(** * Coordinator agent: DAG construction, critical path, role assignment
      and the bounded dependency-respecting executor.

    Shallow embedding of [agents/coordinator.ts] (class [CoordinatorAgent]),
    of the [Task] / [AgentResult] interfaces and the [retry] helper of
    [agents/base-agent.ts], and of the batching loop of the command-line
    runner ([cli/agent-runner.ts]).

    Conventions of the embedding
    - a JavaScript [number] that the code only uses for integral values
      (levels, priority weights, [maxConcurrency], hour estimates) is a [Z];
    - a JavaScript [Map] is an insertion-ordered key list together with a
      finite map ([JsMap]); object references held in several places (the
      nodes of a DAG) are represented by their key in that map;
    - a [throw] is the [Throw] constructor of [outcome]; recursion and loops
      that JavaScript runs unboundedly take a fuel argument and signal its
      exhaustion by [OutOfFuel]. *)

From Stdlib Require Import ZArith Ascii String List Lia.
From stdpp Require Import gmap strings list fin_maps sorting.

Open Scope string_scope.
Open Scope list_scope.
Open Scope Z_scope.

(** ** Data model ([agents/base-agent.ts]) *)

(** [interface Task].  The enumerations [TaskStatus], [Priority] and
    [Complexity] are string enums; [decomposeTask] casts arbitrary parsed
    strings to them, so they are kept as strings.  [metadata] is an opaque
    bag no function of the coordinator reads. *)
Record Task := mkTask {
  id : string;
  title : string;
  description : string;
  status : string;
  priority : string;
  complexity : string;
  assignedAgent : option string;
  dependencies : list string;
  estimatedHours : Z;
  actualHours : option Z;
  labels : list string;
}.

#[global] Instance Task_eq_dec : EqDecision Task.
Proof. solve_decision. Defined.

(** [enum Priority]. *)
Definition P0_CRITICAL : string := "P0-Critical".
Definition P1_HIGH : string := "P1-High".
Definition P2_MEDIUM : string := "P2-Medium".
Definition P3_LOW : string := "P3-Low".

(** [interface AgentResult]; [output] is an opaque payload. *)
Record AgentResult := mkResult {
  success : bool;
  res_taskId : string;
  agentName : string;
  output : option string;
  error : option string;
  executionTime : option Z;
  logs : list string;
}.

(** ** JavaScript values used by the coordinator *)

(** What a [throw] carries: [new Error(msg)], or the [TypeError] the engine
    raises when a property of [undefined] is read. *)
Inductive js_error :=
| JsError (msg : string)
| JsTypeError.

Inductive outcome (A : Type) :=
| Ok (a : A)
| Throw (e : js_error)
| OutOfFuel.
Arguments Ok {A} a.
Arguments Throw {A} e.
Arguments OutOfFuel {A}.

(** Truthiness of a [string | null | undefined] value. *)
Definition truthy (o : option string) : bool :=
  match o with
  | Some s => negb (String.eqb s "")
  | None => false
  end.

(** [Map<string, V>]: keys in insertion order and the stored values. *)
Record JsMap (V : Type) := mkJsMap {
  order : list string;
  store : gmap string V;
}.
Arguments mkJsMap {V} order store.
Arguments order {V} _.
Arguments store {V} _.

Definition js_empty {V} : JsMap V := mkJsMap [] ∅.

Definition js_get {V} (m : JsMap V) (k : string) : option V := store m !! k.

(** [m.set(k, v)]: an existing key keeps its position. *)
Definition js_set {V} (k : string) (v : V) (m : JsMap V) : JsMap V :=
  mkJsMap (if decide (is_Some (store m !! k)) then order m else order m ++ [k])
          (<[k := v]> (store m)).

(** In-place mutation of the object stored under [k]. *)
Definition js_mutate {V} (k : string) (f : V → V) (m : JsMap V) : JsMap V :=
  mkJsMap (order m) (alter f k (store m)).

(** ** DAG ([agents/coordinator.ts]) *)

(** [interface DAGNode]; [node_dependencies] is the field [dependencies]. *)
Record DAGNode := mkNode {
  task : Task;
  node_dependencies : list string;
  dependents : list string;
  level : Z;
}.

Definition set_level (l : Z) (n : DAGNode) : DAGNode :=
  mkNode (task n) (node_dependencies n) (dependents n) l.

Definition push_dependent (nodeId : string) (n : DAGNode) : DAGNode :=
  mkNode (task n) (node_dependencies n) (dependents n ++ [nodeId]) (level n).

(** [interface DAG].  [levels] is a JavaScript array that may have holes
    ([None]); its buckets hold references to the node objects of [nodes],
    that is, their keys. *)
Record DAG := mkDAG {
  nodes : JsMap DAGNode;
  levels : list (option (list string));
  criticalPath : list string;
}.

(** *** [buildDAG]: node creation *)

Definition create_nodes (tasks : list Task) : JsMap DAGNode :=
  foldl (λ m t, js_set (id t) (mkNode t (dependencies t) [] 0) m) js_empty tasks.

(** *** [buildDAG]: reverse edges *)

(** Body of the inner loop: [const depNode = nodes.get(depId);
    if (depNode) depNode.dependents.push(nodeId)]. *)
Definition add_dependent (nodeId : string) (m : JsMap DAGNode) (depId : string)
  : JsMap DAGNode :=
  match js_get m depId with
  | Some _ => js_mutate depId (push_dependent nodeId) m
  | None => m
  end.

Definition link_node (m : JsMap DAGNode) (nodeId : string) : JsMap DAGNode :=
  match js_get m nodeId with
  | Some node => foldl (add_dependent nodeId) m (node_dependencies node)
  | None => m
  end.

Definition link_dependents (m : JsMap DAGNode) : JsMap DAGNode :=
  foldl link_node m (order m).

(** *** [buildDAG]: levels *)

Record BuildState := mkBS {
  bs_nodes : JsMap DAGNode;
  bs_levels : list (option (list string));
  bs_visited : gset string;
  bs_inProgress : gset string;
}.

(** [if (!levels[l]) levels[l] = []; levels[l].push(node)]. *)
Definition levels_push (l : Z) (nodeId : string)
  (lv : list (option (list string))) : list (option (list string)) :=
  let i := Z.to_nat l in
  match lv !! i with
  | Some (Some bucket) => <[i := Some (bucket ++ [nodeId])]> lv
  | Some None => <[i := Some [nodeId]]> lv
  | None => lv ++ replicate (i - length lv)%nat None ++ [Some [nodeId]]
  end.

Definition cycle_message (nodeId : string) : string :=
  String.append "Circular dependency detected at " nodeId.

(** The loop [for (const depId of node.dependencies)
    maxDepLevel = Math.max(maxDepLevel, visit(depId))] of [visit], over the
    recursive call [rec]. *)
Fixpoint visit_deps (rec : string → BuildState → outcome (Z * BuildState))
  (deps : list string) (maxDepLevel : Z) (s : BuildState)
  : outcome (Z * BuildState) :=
  match deps with
  | [] => Ok (maxDepLevel, s)
  | depId :: deps' =>
    match rec depId s with
    | Ok (l, s') => visit_deps rec deps' (Z.max maxDepLevel l) s'
    | Throw e => Throw e
    | OutOfFuel => OutOfFuel
    end
  end.

(** The closure [visit].  A throw abandons the local state of [buildDAG],
    so only a normal return carries the state on. *)
Fixpoint visit (fuel : nat) (nodeId : string) (st : BuildState)
  : outcome (Z * BuildState) :=
  match fuel with
  | O => OutOfFuel
  | S fuel' =>
    if decide (nodeId ∈ bs_visited st) then
      match js_get (bs_nodes st) nodeId with
      | Some node => Ok (level node, st)
      | None => Throw JsTypeError
      end
    else if decide (nodeId ∈ bs_inProgress st) then
      Throw (JsError (cycle_message nodeId))
    else
      let st1 := mkBS (bs_nodes st) (bs_levels st) (bs_visited st)
                      ({[nodeId]} ∪ bs_inProgress st) in
      match js_get (bs_nodes st) nodeId with
      | None => Throw JsTypeError
      | Some node =>
        match visit_deps (visit fuel') (node_dependencies node) (-1) st1 with
        | Ok (maxDepLevel, st2) =>
          let l := maxDepLevel + 1 in
          Ok (l, mkBS (js_mutate nodeId (set_level l) (bs_nodes st2))
                      (levels_push l nodeId (bs_levels st2))
                      ({[nodeId]} ∪ bs_visited st2)
                      (bs_inProgress st2 ∖ {[nodeId]}))
        | Throw e => Throw e
        | OutOfFuel => OutOfFuel
        end
      end
  end.

(** [for (const nodeId of nodes.keys()) visit(nodeId)]. *)
Fixpoint visit_all (fuel : nat) (keys : list string) (s : BuildState)
  : outcome BuildState :=
  match keys with
  | [] => Ok s
  | k :: keys' =>
    match visit fuel k s with
    | Ok (_, s') => visit_all fuel keys' s'
    | Throw e => Throw e
    | OutOfFuel => OutOfFuel
    end
  end.

(** The recursion of [visit] is at most one deeper than the number of
    nodes (each nested call puts a new key of the map on [inProgress]). *)
Definition visit_fuel (m : JsMap DAGNode) : nat := S (size (dom (store m))).

Definition buildDAG (tasks : list Task) : outcome DAG :=
  let m := link_dependents (create_nodes tasks) in
  match visit_all (visit_fuel m) (order m) (mkBS m [] ∅ ∅) with
  | Ok s => Ok (mkDAG (bs_nodes s) (bs_levels s) [])
  | Throw e => Throw e
  | OutOfFuel => OutOfFuel
  end.

(** *** [identifyCriticalPath] *)

(** [x ?? 0] on the result of a [Map.get]. *)
Definition or_zero (o : option Z) : Z := default 0 o.

(** First loop: [duration.set(nodeId, node.task.estimatedHours)].  (The
    map [predecessor] filled by the same loop is never read.) *)
Definition init_duration (m : JsMap DAGNode) : gmap string Z :=
  foldl (λ d nodeId,
           match js_get m nodeId with
           | Some node => <[nodeId := estimatedHours (task node)]> d
           | None => d
           end) ∅ (order m).

(** Earliest finish of a node as both later loops read it. *)
Definition finish_of (earliestStart duration : gmap string Z) (k : string) : Z :=
  or_zero (earliestStart !! k) + or_zero (duration !! k).

(** Forward pass, in the iteration order of the [Map] (insertion order). *)
Definition forward_pass (m : JsMap DAGNode) (duration : gmap string Z)
  : gmap string Z :=
  foldl (λ earliestStart nodeId,
           match js_get m nodeId with
           | Some node =>
             let maxPredEnd :=
               foldl (λ acc depId, Z.max acc (finish_of earliestStart duration depId))
                     0 (node_dependencies node) in
             <[nodeId := maxPredEnd]> earliestStart
           | None => earliestStart
           end) ∅ (order m).

(** Endpoint search: [let endpoint = null; let maxFinish = 0; ...
    if (finish > maxFinish) ...]. *)
Definition find_endpoint (m : JsMap DAGNode) (earliestStart duration : gmap string Z)
  : option string * Z :=
  foldl (λ '(endpoint, maxFinish) nodeId,
           let finish := finish_of earliestStart duration nodeId in
           if maxFinish <? finish then (Some nodeId, finish)
           else (endpoint, maxFinish)) (None, 0) (order m).

(** Predecessor choice of one backtracking step:
    [let criticalPred = null; let maxPredFinish = -1; ...]. *)
Definition critical_pred (earliestStart duration : gmap string Z)
  (deps : list string) : option string * Z :=
  foldl (λ '(criticalPred, maxPredFinish) depId,
           let predFinish := finish_of earliestStart duration depId in
           if maxPredFinish <? predFinish then (Some depId, predFinish)
           else (criticalPred, maxPredFinish)) (None, -1) deps.

(** [while (current) { criticalPath.unshift(current); ... }]. *)
Fixpoint backtrack (fuel : nat) (m : JsMap DAGNode)
  (earliestStart duration : gmap string Z)
  (current : option string) (path : list string) : outcome (list string) :=
  match fuel with
  | O => OutOfFuel
  | S fuel' =>
    match current with
    | Some c =>
      if truthy current then
        match js_get m c with
        | Some node =>
          backtrack fuel' m earliestStart duration
            (fst (critical_pred earliestStart duration (node_dependencies node)))
            (c :: path)
        | None => Throw JsTypeError
        end
      else Ok path
    | None => Ok path
    end
  end.

(** A backtrack that ends visits pairwise different nodes, so it takes at
    most one step per node, one more to read a missing node and one to
    leave the loop. *)
Definition backtrack_fuel (m : JsMap DAGNode) : nat := S (S (length (order m))).

(** Returns the path and the DAG with [dag.criticalPath] assigned. *)
Definition identifyCriticalPath (dag : DAG) : outcome (list string * DAG) :=
  let m := nodes dag in
  let duration := init_duration m in
  let earliestStart := forward_pass m duration in
  let endpoint := fst (find_endpoint m earliestStart duration) in
  if truthy endpoint then
    match backtrack (backtrack_fuel m) m earliestStart duration endpoint [] with
    | Ok path => Ok (path, mkDAG (nodes dag) (levels dag) path)
    | Throw e => Throw e
    | OutOfFuel => OutOfFuel
    end
  else Ok ([], dag).

(** [buildDAG] followed by [identifyCriticalPath], as [execute] chains them. *)
Definition critical_path_of (tasks : list Task) : outcome (list string) :=
  match buildDAG tasks with
  | Ok dag =>
    match identifyCriticalPath dag with
    | Ok (path, _) => Ok path
    | Throw e => Throw e
    | OutOfFuel => OutOfFuel
    end
  | Throw e => Throw e
  | OutOfFuel => OutOfFuel
  end.

(** The earliest-start table that [identifyCriticalPath] computes. *)
Definition earliestStart_of (dag : DAG) : gmap string Z :=
  forward_pass (nodes dag) (init_duration (nodes dag)).

(** ** Role assignment *)

(** [interface AgentAssignment]; [asg_priority] is the field [priority]. *)
Record AgentAssignment := mkAssignment {
  taskId : string;
  agentType : string;
  asg_priority : Z;
}.

(** [String.prototype.toLowerCase] on the ASCII letters. *)
Definition lower_ascii (c : ascii) : ascii :=
  let n := nat_of_ascii c in
  if ((65 <=? n) && (n <=? 90))%nat then ascii_of_nat (n + 32) else c.

Fixpoint toLowerCase (s : string) : string :=
  match s with
  | EmptyString => EmptyString
  | String c s' => String (lower_ascii c) (toLowerCase s')
  end.

(** [String.prototype.includes]. *)
Fixpoint includes (sub s : string) : bool :=
  if String.prefix sub s then true
  else match s with
       | EmptyString => false
       | String _ s' => includes sub s'
       end.

(** [labels.some((l) => l.includes(sub))]. *)
Definition some_includes (sub : string) (ls : list string) : bool :=
  existsb (includes sub) ls.

Definition determineAgentType (t : Task) : string :=
  if truthy (assignedAgent t) then default "" (assignedAgent t)
  else
    let labels := map toLowerCase (labels t) in
    if some_includes "test" labels then "test"
    else if some_includes "deploy" labels then "deploy"
    else if some_includes "review" labels then "review"
    else if existsb (λ l, includes "pr" l || includes "pull" l) labels then "pr"
    else if some_includes "issue" labels then "issue"
    else "codegen".

Definition getPriorityValue (p : string) : Z :=
  if String.eqb p P0_CRITICAL then 4
  else if String.eqb p P1_HIGH then 3
  else if String.eqb p P2_MEDIUM then 2
  else if String.eqb p P3_LOW then 1
  else 0.

(** [Array.prototype.sort(cmp)] for a consistent comparator: the sort is
    stable (ECMAScript 2019), which fixes its result; it is computed here
    by insertion from the right, an element going in front of the first
    element it does not have to follow. *)
Fixpoint sort_insert {A} (cmp : A → A → Z) (x : A) (l : list A) : list A :=
  match l with
  | [] => [x]
  | y :: l' => if cmp x y <=? 0 then x :: l else y :: sort_insert cmp x l'
  end.

Definition js_sort {A} (cmp : A → A → Z) (l : list A) : list A :=
  foldr (sort_insert cmp) [] l.

Definition assignment_of (t : Task) : AgentAssignment :=
  mkAssignment (id t) (determineAgentType t) (getPriorityValue (priority t)).

Definition by_priority_desc (a b : AgentAssignment) : Z :=
  asg_priority b - asg_priority a.

Definition assignAgents (tasks : list Task) : list AgentAssignment :=
  js_sort by_priority_desc (map assignment_of tasks).

(** ** [executeParallel] *)

(** A registered agent; the scheduler only looks agents up and calls
    [execute], whose behaviour is left to the environment. *)
Record BaseAgent := mkAgent { name : string }.

(** How the promise of [agent.execute(task)] settles. *)
Inductive settle :=
| Resolved (r : AgentResult)
| Rejected (msg : string).

(** The mutable locals of [executeParallel], and the part of the
    JavaScript run-time state the loop depends on: [running] lists the
    tasks whose [agent.execute] promise is pending, [failing] the tasks
    whose [executeTask] promise rejected at once ("Agent not found") and
    whose [.catch] handler has not run yet, in dispatch order. *)
Record ExecState := mkES {
  queue : list Task;
  running : list Task;
  inProgress : gset string;
  completed : gset string;
  results : list AgentResult;
  failing : list Task;
}.

Definition exec_init (tasks : list Task) : ExecState := mkES tasks [] ∅ ∅ [] [].

(** [task.dependencies.every((depId) => completed.has(depId))]. *)
Definition is_ready (done : gset string) (t : Task) : bool :=
  forallb (λ depId, bool_decide (depId ∈ done)) (dependencies t).

Definition readyTasks (s : ExecState) : list Task :=
  List.filter (is_ready (completed s)) (queue s).

(** [Array.prototype.slice(0, end)] for an integral [end]. *)
Definition js_slice0 {A} (end_ : Z) (l : list A) : list A :=
  let len := Z.of_nat (length l) in
  let k := if end_ <? 0 then Z.max (len + end_) 0 else Z.min end_ len in
  take (Z.to_nat k) l.

Definition tasksToExecute (maxConcurrency : Z) (s : ExecState) : list Task :=
  js_slice0 (maxConcurrency - Z.of_nat (size (inProgress s))) (readyTasks s).

(** [const index = queue.indexOf(task); if (index > -1) queue.splice(index, 1)].
    Tasks with equal fields are interchangeable for the loop, so the
    identity comparison of [indexOf] is taken on the fields. *)
Fixpoint remove_first (t : Task) (q : list Task) : list Task :=
  match q with
  | [] => []
  | x :: q' => if decide (x = t) then q' else x :: remove_first t q'
  end.

(** [task.assignedAgent ?? 'codegen']. *)
Definition agent_key (t : Task) : string := default "codegen" (assignedAgent t).

(** The object pushed by the [.catch] handler of the dispatch loop. *)
Definition failure_result (t : Task) (msg : string) : AgentResult :=
  mkResult false (id t) (default "unknown" (assignedAgent t))
           None (Some msg) (Some 0) [].

Definition agent_not_found (t : Task) : string :=
  String.append "Agent not found: " (agent_key t).

(** [agents.get(agentType)] is / is not an agent. *)
Definition has_agent (agents : gmap string BaseAgent) (t : Task) : bool :=
  bool_decide (is_Some (agents !! agent_key t)).

Definition no_agent (agents : gmap string BaseAgent) (t : Task) : bool :=
  bool_decide (agents !! agent_key t = None).

(** The synchronous part of [executeTask(task)], up to
    [await agent.execute(task)]: [None] when it throws "Agent not found",
    otherwise the state with the task in [inProgress] and its [execute]
    promise pending. *)
Definition executeTask_start (agents : gmap string BaseAgent) (s : ExecState)
  (t : Task) : option ExecState :=
  match agents !! agent_key t with
  | None => None
  | Some _ =>
    Some (mkES (queue s) (running s ++ [t]) ({[id t]} ∪ inProgress s)
               (completed s) (results s) (failing s))
  end.

(** One turn of the dispatch loop: the splice and the call of
    [executeTask].  When that call rejects at once, the rejection is left
    to the [.catch] handler, which runs later, as a microtask. *)
Definition dispatch (agents : gmap string BaseAgent) (s : ExecState) (t : Task)
  : ExecState :=
  let s1 := mkES (remove_first t (queue s)) (running s) (inProgress s)
                 (completed s) (results s) (failing s) in
  match executeTask_start agents s1 t with
  | Some s2 => s2
  | None =>
    mkES (queue s1) (running s1) (inProgress s1) (completed s1)
         (results s1) (failing s1 ++ [t])
  end.

(** The [.catch] handler of the dispatch loop for the first task [t] of
    [failing]: it pushes the synthetic failed result. *)
Definition catch_no_agent (s : ExecState) (t : Task) (rest : list Task)
  : ExecState :=
  mkES (queue s) (running s) (inProgress s) (completed s)
       (results s ++ [failure_result t (agent_not_found t)]) rest.

(** What the caller of [executeParallel] can observe of one loop turn. *)
Inductive turn :=
| Continue (s : ExecState)
| Return (rs : list AgentResult)
| Reject (e : js_error).

Definition deadlock_message : string :=
  "Circular dependency or blocked tasks detected".

(** The loop test and the synchronous body of one iteration of
    [while (queue.length > 0 || inProgress.size > 0)]. *)
Definition loop_iteration (agents : gmap string BaseAgent) (maxConcurrency : Z)
  (s : ExecState) : turn :=
  if (0 <? length (queue s))%nat || (0 <? size (inProgress s))%nat then
    let todo := tasksToExecute maxConcurrency s in
    if (length todo =? 0)%nat && (size (inProgress s) =? 0)%nat then
      if (0 <? length (queue s))%nat then Reject (JsError deadlock_message)
      else Return (results s)
    else Continue (foldl (dispatch agents) s todo)
  else Return (results s).

(** Settlement of the [agent.execute(task)] promise of a running task:
    the rest of [executeTask] (its [try] continuation or its [catch] block)
    and the [.then] / [.catch] handler of the dispatch loop, which follow
    it in the same microtask drain. *)
Definition executeTask_settle (s : ExecState) (t : Task) (o : settle) : ExecState :=
  match o with
  | Resolved r =>
    mkES (queue s) (remove_first t (running s))
         (inProgress s ∖ {[id t]}) ({[id t]} ∪ completed s) (results s ++ [r])
         (failing s)
  | Rejected msg =>
    mkES (queue s) (remove_first t (running s))
         (inProgress s ∖ {[id t]}) (completed s)
         (results s ++ [failure_result t msg]) (failing s)
  end.

(** Observable events of a run. *)
Inductive event :=
| EvStart (t : Task)
| EvNoAgent (t : Task)
| EvSettle (t : Task) (o : settle).

(** Events of a loop turn that dispatches [todo]: the calls of
    [executeTask] in order, then the rejections "Agent not found" of the
    calls for the tasks without an agent. *)
Definition turn_events (agents : gmap string BaseAgent) (todo : list Task)
  : list event :=
  map EvStart todo ++
  map EvNoAgent (List.filter (no_agent agents) todo).

(** The loop turns are separated by a timer, which fires only after the
    microtasks left by the previous turn have run: a turn starts with no
    [.catch] handler pending.  Between two turns the pending handlers run,
    in dispatch order, and any of the pending promises may settle. *)
Inductive step (agents : gmap string BaseAgent) (maxConcurrency : Z)
  : ExecState → list event → ExecState → Prop :=
| step_turn s s' :
    failing s = [] →
    loop_iteration agents maxConcurrency s = Continue s' →
    step agents maxConcurrency s
         (turn_events agents (tasksToExecute maxConcurrency s)) s'
| step_settle s t o :
    t ∈ running s →
    step agents maxConcurrency s [EvSettle t o] (executeTask_settle s t o)
| step_catch s t rest :
    failing s = t :: rest →
    step agents maxConcurrency s [] (catch_no_agent s t rest).

Inductive run (agents : gmap string BaseAgent) (maxConcurrency : Z)
  : ExecState → list event → ExecState → Prop :=
| run_nil s : run agents maxConcurrency s [] s
| run_step s1 tr s2 evs s3 :
    run agents maxConcurrency s1 tr s2 →
    step agents maxConcurrency s2 evs s3 →
    run agents maxConcurrency s1 (tr ++ evs) s3.

(** [executeParallel(tasks, agents, maxConcurrency)] settles with [o]
    after the events [tr]: the loop turn taken in the state [s] ends the
    loop. *)
Definition executeParallel (tasks : list Task) (agents : gmap string BaseAgent)
  (maxConcurrency : Z) (tr : list event) (o : turn) : Prop :=
  ∃ s, run agents maxConcurrency (exec_init tasks) tr s ∧
       failing s = [] ∧
       loop_iteration agents maxConcurrency s = o ∧
       ∀ s', o ≠ Continue s'.

(** What the caller holds once the promise of [executeParallel] settles:
    the resolved array, or nothing but the thrown error. *)
Definition caller_results (o : turn) : option (list AgentResult) :=
  match o with
  | Return rs => Some rs
  | _ => None
  end.

(** ** Specification-side definitions *)

(** *** Role assignment as the specification words it *)

(** The capital letters of the alphabet, each with its small letter. *)
Definition letter_cases : list (ascii * ascii) :=
  zip (list_ascii_of_string "ABCDEFGHIJKLMNOPQRSTUVWXYZ")
      (list_ascii_of_string "abcdefghijklmnopqrstuvwxyz").

(** The same character, up to the case of a letter. *)
Definition same_letter (a b : ascii) : Prop :=
  a = b ∨ (a, b) ∈ letter_cases ∨ (b, a) ∈ letter_cases.

(** Equal strings, letter case ignored. *)
Definition equal_ignoring_case (u v : string) : Prop :=
  Forall2 same_letter (list_ascii_of_string u) (list_ascii_of_string v).

(** [sub] is a substring of [s]: [s] is [pre], then [sub], then [post]. *)
Definition substring_of (sub s : string) : Prop :=
  ∃ pre post, s = String.append pre (String.append sub post).

(** The label [l] contains the keyword [kw] as a substring, letter case
    ignored. *)
Definition label_contains (kw l : string) : Prop :=
  ∃ w, substring_of w l ∧ equal_ignoring_case w kw.

(** The label rules in their fixed priority order: the keywords to look
    for, and the role they select. *)
Definition label_rules : list (list string * string) :=
  [ (["test"], "test"); (["deploy"], "deploy"); (["review"], "review");
    (["pr"; "pull"], "pr"); (["issue"], "issue") ].

(** A rule applies to a task when some label of the task contains one of
    the keywords of the rule. *)
Definition rule_applies (t : Task) (rule : list string * string) : Prop :=
  ∃ l kw, l ∈ labels t ∧ kw ∈ rule.1 ∧ label_contains kw l.

(** The role of the first rule of the list that applies; the
    code-generation role when none does. *)
Inductive first_rule (t : Task) : list (list string * string) → string → Prop :=
| first_rule_none : first_rule t [] "codegen"
| first_rule_here rule rest :
    rule_applies t rule → first_rule t (rule :: rest) rule.2
| first_rule_later rule rest r :
    ¬ rule_applies t rule → first_rule t rest r →
    first_rule t (rule :: rest) r.

(** The role of a task: its explicit role when [assignedAgent] is a
    non-empty string, the role its labels select otherwise. *)
Definition spec_role (t : Task) (r : string) : Prop :=
  match assignedAgent t with
  | Some a => if decide (a = "") then first_rule t label_rules r else r = a
  | None => first_rule t label_rules r
  end.

Definition spec_weight (p : string) : Z :=
  if decide (p = "P0-Critical") then 4
  else if decide (p = "P1-High") then 3
  else if decide (p = "P2-Medium") then 2
  else if decide (p = "P3-Low") then 1
  else 0.

(** The assignment of a task: its id, its role and the weight of its
    priority. *)
Definition spec_assignment (t : Task) (a : AgentAssignment) : Prop :=
  taskId a = id t ∧ spec_role t (agentType a) ∧
  asg_priority a = spec_weight (priority t).

(** A task whose [assignedAgent] is the empty string. *)
Definition empty_role_task : Task :=
  mkTask "T" "T" "T" "pending" P1_HIGH "small" (Some "") [] 1 None ["type:TEST"].

(** Descending order of weights. *)
Definition weight_ge (a b : AgentAssignment) : Prop :=
  asg_priority b ≤ asg_priority a.

(** The assignments of weight [w], in their order of occurrence. *)
Definition of_weight (w : Z) (l : list AgentAssignment) : list AgentAssignment :=
  filter (λ a, asg_priority a = w) l.

(** *** Executor: invariants and trace properties *)

Definition task_ids (l : list Task) : list string := map id l.

(** Bookkeeping invariant of the loop on a batch whose ids are pairwise
    different: no id is pending or running twice, [inProgress] is the set
    of ids of the running tasks, and a completed id is neither pending nor
    running. *)
Record exec_inv (s : ExecState) : Prop := mk_exec_inv {
  inv_nodup : NoDup (task_ids (queue s ++ running s));
  inv_inProgress : inProgress s = list_to_set (task_ids (running s));
  inv_completed : ∀ x, x ∈ completed s → x ∉ task_ids (queue s ++ running s);
}.

(** The Execution Result of a task with id [d] has been recorded in [tr]:
    its [agent.execute] promise resolved and the result was pushed. *)
Definition recorded_before (tr : list event) (d : string) : Prop :=
  ∃ a r, id a = d ∧ EvSettle a (Resolved r) ∈ tr.

(** Every call of [executeTask] in [tr] comes after the results of all the
    dependencies of its task. *)
Definition dispatch_ordered (tr : list event) : Prop :=
  ∀ pre B post, tr = pre ++ EvStart B :: post →
    ∀ d, d ∈ dependencies B → recorded_before pre d.

(** *** Concrete batches used in the examples *)

Definition task_of (i : string) (role : option string) (deps : list string)
  (hours : Z) : Task :=
  mkTask i i i "pending" P2_MEDIUM "small" role deps hours None [].

Definition ex_agents : gmap string BaseAgent :=
  {[ "codegen" := mkAgent "CodeGenAgent" ]}.

Definition ok_result (i : string) : AgentResult :=
  mkResult true i "CodeGenAgent" None None (Some 1) [].

(** A finishes, B waits for a task that is not in the batch. *)
Definition blocked_A : Task := task_of "A" None [] 1.
Definition blocked_B : Task := task_of "B" None ["Z"] 1.
Definition blocked_trace : list event :=
  [EvStart blocked_A; EvSettle blocked_A (Resolved (ok_result "A"))].
Definition blocked_state : ExecState :=
  mkES [blocked_B] [] ∅ {["A"]} [ok_result "A"] [].

(** A asks for a role nobody registered, B runs on the default agent. *)
Definition ghost_A : Task := task_of "A" (Some "ghost") [] 1.
Definition ghost_B : Task := task_of "B" None [] 1.
Definition ghost_trace : list event :=
  [EvStart ghost_A; EvNoAgent ghost_A; EvStart ghost_B;
   EvSettle ghost_B (Resolved (ok_result "B"))].
Definition ghost_results : list AgentResult :=
  [failure_result ghost_A "Agent not found: ghost"; ok_result "B"].

(** Three independent tasks under a ceiling of two. *)
Definition trio : list Task :=
  [task_of "A" None [] 1; task_of "B" None [] 1; task_of "C" None [] 1].
Definition trio_trace : list event :=
  [EvStart (task_of "A" None [] 1); EvStart (task_of "B" None [] 1)].
Definition trio_state : ExecState :=
  mkES [task_of "C" None [] 1] [task_of "A" None [] 1; task_of "B" None [] 1]
       {["A"; "B"]} ∅ [] [].

(** B depends on A. *)
Definition chain_A : Task := task_of "A" None [] 1.
Definition chain_B : Task := task_of "B" None ["A"] 1.
Definition chain_trace : list event :=
  [EvStart chain_A; EvSettle chain_A (Resolved (ok_result "A")); EvStart chain_B].
Definition chain_state : ExecState :=
  mkES [] [chain_B] {["B"]} {["A"]} [ok_result "A"] [].
Definition chain_failed_trace : list event :=
  [EvStart chain_A; EvSettle chain_A (Rejected "boom")].
Definition chain_failed_state : ExecState :=
  mkES [chain_B] [] ∅ ∅ [failure_result chain_A "boom"] [].

(** *** Graph builder: graphs, levels and the invariant of the traversal *)

(** [a] names [b] among its dependencies. *)
Definition depends_on (tasks : list Task) (a b : string) : Prop :=
  ∃ t, t ∈ tasks ∧ id t = a ∧ b ∈ dependencies t.

(** No task reaches itself along dependencies. *)
Definition acyclic (tasks : list Task) : Prop :=
  ∀ a, ¬ tc (depends_on tasks) a a.

(** Every dependency id is the id of a task of the batch. *)
Definition closed (tasks : list Task) : Prop :=
  ∀ t d, t ∈ tasks → d ∈ dependencies t → d ∈ task_ids tasks.

(** The edges of a node map. *)
Definition node_edge (m : JsMap DAGNode) (a b : string) : Prop :=
  ∃ node, js_get m a = Some node ∧ b ∈ node_dependencies node.

Definition js_dom {V} (m : JsMap V) : gset string := dom (store m).

Definition level_of (m : JsMap DAGNode) (k : string) : option Z :=
  level <$> js_get m k.

(** [node.level] is one plus the maximum of the levels of the dependencies
    of [node], and 0 when it has none. *)
Definition level_rule (m : JsMap DAGNode) (node : DAGNode) : Prop :=
  (node_dependencies node = [] → level node = 0) ∧
  (∀ d, d ∈ node_dependencies node →
        ∃ l, level_of m d = Some l ∧ l + 1 ≤ level node) ∧
  (node_dependencies node ≠ [] →
   ∃ d, d ∈ node_dependencies node ∧ level_of m d = Some (level node - 1)).

(** [k] is in the bucket [levels[i]]. *)
Definition in_level (lv : list (option (list string))) (i : nat) (k : string)
  : Prop :=
  ∃ bucket, lv !! i = Some (Some bucket) ∧ k ∈ bucket.

(** Invariant of the traversal started on the node map [m0]: the map keeps
    its keys and, up to [level], its nodes; a visited node has all its
    dependencies visited and its level set by [level_rule]; the buckets
    hold exactly the visited nodes, each at its level. *)
Record build_inv (m0 : JsMap DAGNode) (st : BuildState) : Prop := mk_build_inv {
  bi_order : order (bs_nodes st) = order m0;
  bi_core : ∀ k, set_level 0 <$> js_get (bs_nodes st) k =
                 set_level 0 <$> js_get m0 k;
  bi_visited : ∀ k, k ∈ bs_visited st →
    ∃ node, js_get (bs_nodes st) k = Some node ∧
            0 ≤ level node ∧
            (∀ d, d ∈ node_dependencies node → d ∈ bs_visited st) ∧
            level_rule (bs_nodes st) node;
  bi_levels : ∀ i k, in_level (bs_levels st) i k ↔
                     k ∈ bs_visited st ∧
                     level_of (bs_nodes st) k = Some (Z.of_nat i);
}.

(** What a normal return of [visit] or of its loop guarantees besides the
    invariant: the stack is as before, nothing visited is touched, and what
    was newly visited was not on the stack. *)
Record visit_frame (st st' : BuildState) : Prop := mk_visit_frame {
  vf_inProgress : bs_inProgress st' = bs_inProgress st;
  vf_visited : bs_visited st ⊆ bs_visited st';
  vf_nodes : ∀ k, k ∈ bs_visited st →
                  js_get (bs_nodes st') k = js_get (bs_nodes st) k;
  vf_fresh : ∀ k, k ∈ bs_visited st' → k ∈ bs_visited st ∨ k ∉ bs_inProgress st;
}.

(** What [visit], as the recursive call handed to [visit_deps], ensures on
    a normal return. *)
Definition visit_ensures (m0 : JsMap DAGNode)
  (rec : string → BuildState → outcome (Z * BuildState)) : Prop :=
  ∀ n st l st', rec n st = Ok (l, st') → build_inv m0 st →
    build_inv m0 st' ∧ visit_frame st st' ∧
    n ∈ bs_visited st' ∧ level_of (bs_nodes st') n = Some l.

(** What a throw of the traversal started at [n] tells about the node map:
    a [TypeError] that some id reachable from [n] has no node, an [Error]
    that the node it names lies on a dependency cycle. *)
Definition throw_reason (m0 : JsMap DAGNode) (n : string) (e : js_error) : Prop :=
  match e with
  | JsTypeError => ∃ d, js_get m0 d = None ∧ rtc (node_edge m0) n d
  | JsError msg => ∃ k, msg = cycle_message k ∧ tc (node_edge m0) k k
  end.

(** The traversal neither runs out of fuel nor throws without a reason. *)
Definition sound_outcome {A} (m0 : JsMap DAGNode) (n : string) (o : outcome A)
  : Prop :=
  match o with
  | Ok _ => True
  | Throw e => throw_reason m0 n e
  | OutOfFuel => False
  end.

(** A node without its reverse edges. *)
Definition node_core (n : DAGNode) : Task * list string * Z :=
  (task n, node_dependencies n, level n).

(** Two node maps that differ in the [dependents] lists at most. *)
Definition same_graph (m m' : JsMap DAGNode) : Prop :=
  order m' = order m ∧
  ∀ k, node_core <$> js_get m' k = node_core <$> js_get m k.

(** A well-formed [Map]: the key list enumerates the stored keys. *)
Definition js_wf {V} (m : JsMap V) : Prop :=
  ∀ k, k ∈ order m ↔ k ∈ js_dom m.

(** *** Concrete batches for the graph builder and the critical path *)

(** A chain listed in dependency order, and a task with a dangling
    dependency. *)
Definition ordered_chain : list Task :=
  [task_of "A" None [] 2; task_of "B" None ["A"] 3; task_of "C" None ["B"] 4].
Definition dangling_A : Task := task_of "A" None ["X"] 1.

(** The chain A → B → C (hours 5, 1, 1) listed dependents first. *)
Definition reversed_chain : list Task :=
  [task_of "C" None ["B"] 1; task_of "B" None ["A"] 1; task_of "A" None [] 5].

(** The diamond of the specification: A → {B, C} → D. *)
Definition diamond : list Task :=
  [task_of "A" None [] 1; task_of "B" None ["A"] 5; task_of "C" None ["A"] 2;
   task_of "D" None ["B"; "C"] 1].

(** A single task estimated at zero hours. *)
Definition zero_task : Task := task_of "A" None [] 0.

(** Case analysis on membership in an explicit list. *)
Ltac case_tasks H :=
  repeat (apply elem_of_cons in H as [->|H]); [..|by apply elem_of_nil in H].

(** ** [CoordinatorAgent.execute] and [validate] *)

(** [!!task.id && !!task.title && !!task.description]. *)
Definition validate (t : Task) : bool :=
  truthy (Some (id t)) && truthy (Some (title t)) && truthy (Some (description t)).

(** The [output] object of a successful coordination. *)
Record CoordinationOutput := mkOutput {
  out_subtasks : list Task;
  out_dag : DAG;
  out_criticalPath : list string;
  out_assignments : list AgentAssignment;
}.

(** The [AgentResult] that [execute] resolves to, with its [metrics]
    fields [subtaskCount] and [dagLevels]; the clock-dependent fields
    ([metrics.executionTime], the time-stamped [logs]) are left out. *)
Record CoordinationResult := mkCoordination {
  co_success : bool;
  co_taskId : string;
  co_agentName : string;
  co_output : option CoordinationOutput;
  co_error : option string;
  co_subtaskCount : option Z;
  co_dagLevels : option Z;
}.

(** [error instanceof Error ? error.message : String(error)]; the message
    of an engine [TypeError] is the engine's own text [te]. *)
Definition error_message (te : string) (e : js_error) : string :=
  match e with
  | JsError msg => msg
  | JsTypeError => te
  end.

(** The steps of the [try] block after the decomposition: [buildDAG],
    [identifyCriticalPath] (which stores the path in the DAG object that
    [output.dag] then refers to) and [assignAgents]. *)
Definition coordinate (subtasks : list Task) : outcome CoordinationOutput :=
  match buildDAG subtasks with
  | Ok dag =>
    match identifyCriticalPath dag with
    | Ok (path, dag') => Ok (mkOutput subtasks dag' path (assignAgents subtasks))
    | Throw e => Throw e
    | OutOfFuel => OutOfFuel
    end
  | Throw e => Throw e
  | OutOfFuel => OutOfFuel
  end.

(** [execute(task)].  [decomposeTask] asks a language model and parses its
    answer; it is given here by what it resolves to (subtasks with fields of
    the declared types) or throws. *)
Definition execute (te : string) (decomposeTask : Task → outcome (list Task))
  (t : Task) : outcome CoordinationResult :=
  let body :=
    if validate t then
      match decomposeTask t with
      | Ok subtasks => coordinate subtasks
      | Throw e => Throw e
      | OutOfFuel => OutOfFuel
      end
    else Throw (JsError "Invalid task provided") in
  match body with
  | Ok out =>
    Ok (mkCoordination true (id t) "CoordinatorAgent" (Some out) None
          (Some (Z.of_nat (length (out_subtasks out))))
          (Some (Z.of_nat (length (levels (out_dag out))))))
  | Throw e =>
    Ok (mkCoordination false (id t) "CoordinatorAgent" None
          (Some (error_message te e)) None None)
  | OutOfFuel => OutOfFuel
  end.

(** ** [BaseAgent.retry] ([agents/base-agent.ts]) *)

(** What a run of [retry] does on the way: calls of the operation and timer
    waits ([setTimeout] delays in milliseconds), in order. *)
Inductive retry_event :=
| Called (attempt : Z)
| Waited (ms : Z).

(** The loop [for (let attempt = 1; attempt <= maxRetries; attempt++)] for
    integral [maxRetries].  The operation is a closure with effects: it is
    given by what its call in iteration [attempt] resolves to ([inl]) or
    rejects with ([inr]). *)
Fixpoint retry_loop {T} (fuel : nat) (operation : Z → T + js_error)
  (maxRetries delay attempt : Z) : outcome T * list retry_event :=
  if attempt <=? maxRetries then
    match fuel with
    | O => (OutOfFuel, [])
    | S fuel' =>
      match operation attempt with
      | inl v => (Ok v, [Called attempt])
      | inr e =>
        if attempt =? maxRetries then (Throw e, [Called attempt])
        else
          let r := retry_loop fuel' operation maxRetries delay (attempt + 1) in
          (fst r, Called attempt :: Waited (delay * attempt) :: snd r)
      end
    end
  else (Throw (JsError "Max retries exceeded"), []).

Definition retry {T} (operation : Z → T + js_error) (maxRetries delay : Z)
  : outcome T * list retry_event :=
  retry_loop (Z.to_nat maxRetries) operation maxRetries delay 1.

(** The attempts made and the delays waited, in order. *)
Definition calls (evs : list retry_event) : list Z :=
  omap (λ e, match e with Called a => Some a | Waited _ => None end) evs.

Definition waits (evs : list retry_event) : list Z :=
  omap (λ e, match e with Waited ms => Some ms | Called _ => None end) evs.

(** ** The command-line runner ([cli/agent-runner.ts]) *)

(** [Array.prototype.slice(start, end)] for integral arguments. *)
Definition js_slice {A} (start end_ : Z) (l : list A) : list A :=
  let len := Z.of_nat (length l) in
  let rel x := if x <? 0 then Z.max (len + x) 0 else Z.min x len in
  let k := rel start in
  let final := rel end_ in
  take (Z.to_nat (Z.max (final - k) 0)) (drop (Z.to_nat k) l).

Module AgentRunner.

(** The loop [for (let i = 0; i < issueNumbers.length; i += concurrency)]
    of the runner's [executeParallel], for an integral [concurrency]; the
    result is the sequence of batches handed to [executeIssue] (whose
    promises never reject and are awaited with [Promise.allSettled]). *)
Fixpoint batches (fuel : nat) (issueNumbers : list Z) (concurrency i : Z)
  : outcome (list (list Z)) :=
  if i <? Z.of_nat (length issueNumbers) then
    match fuel with
    | O => OutOfFuel
    | S fuel' =>
      let batch := js_slice i (i + concurrency) issueNumbers in
      match batches fuel' issueNumbers concurrency (i + concurrency) with
      | Ok bs => Ok (batch :: bs)
      | Throw e => Throw e
      | OutOfFuel => OutOfFuel
      end
    end
  else Ok [].

Definition executeParallel (fuel : nat) (issueNumbers : list Z) (concurrency : Z)
  : outcome (list (list Z)) :=
  batches fuel issueNumbers concurrency 0.

End AgentRunner.

(** *** Executor: what a trace has started *)

(** The tasks on which [executeTask] has been called, in call order. *)
Definition started (tr : list event) : list Task :=
  omap (λ e, match e with EvStart t => Some t | _ => None end) tr.

(** No [execute] promise has rejected in [tr]. *)
Definition no_rejection (tr : list event) : Prop :=
  ∀ t msg, EvSettle t (Rejected msg) ∉ tr.

(** Every task of the batch has a registered agent. *)
Definition all_agents (agents : gmap string BaseAgent) (tasks : list Task) : Prop :=
  ∀ t, t ∈ tasks → is_Some (agents !! agent_key t).

(** Every task of the batch is pending, running or completed. *)
Definition accounted (tasks : list Task) (s : ExecState) : Prop :=
  ∀ t, t ∈ tasks → t ∈ queue s ∨ t ∈ running s ∨ id t ∈ completed s.

(** *** Graph builder: reverse edges and the shape of [levels] *)

(** The [dependents] list stored for the id [d] (empty without a node). *)
Definition dependents_of (m : JsMap DAGNode) (d : string) : list string :=
  default [] (dependents <$> js_get m d).

(** An array of buckets without holes and without empty buckets. *)
Definition dense (lv : list (option (list string))) : Prop :=
  ∀ i, (i < length lv)%nat → ∃ b, lv !! i = Some (Some b) ∧ b ≠ [].

(** *** Critical path: what the tables and the path satisfy *)

(** Every task is listed after the tasks it depends on. *)
Definition listed_after_dependencies (tasks : list Task) : Prop :=
  ∀ pre t post, tasks = pre ++ t :: post →
    ∀ d, d ∈ dependencies t → d ∈ task_ids pre.

(** [e] is the maximum of 0 and of the earliest finishes of [deps]. *)
Definition start_rule (earliestStart duration : gmap string Z)
  (deps : list string) (e : Z) : Prop :=
  0 ≤ e ∧
  (∀ d, d ∈ deps → finish_of earliestStart duration d ≤ e) ∧
  (e = 0 ∨ ∃ d, d ∈ deps ∧ e = finish_of earliestStart duration d).

(** Each element of the path is, among the dependencies of the next one,
    one of maximal earliest finish. *)
Fixpoint critical_chain (m : JsMap DAGNode) (earliestStart duration : gmap string Z)
  (p : list string) : Prop :=
  match p with
  | a :: (b :: _) as rest =>
    (∃ node, js_get m b = Some node ∧ a ∈ node_dependencies node ∧
             ∀ d, d ∈ node_dependencies node →
                  finish_of earliestStart duration d ≤
                  finish_of earliestStart duration a) ∧
    critical_chain m earliestStart duration rest
  | _ => True
  end.

(** The earliest finish of a node of [dag], from the tables of
    [identifyCriticalPath]. *)
Definition earliestFinish_of (dag : DAG) (k : string) : Z :=
  finish_of (earliestStart_of dag) (init_duration (nodes dag)) k.

(** The DAG of a batch, for the examples (empty when [buildDAG] throws). *)
Definition dag_or_empty (o : outcome DAG) : DAG :=
  match o with
  | Ok d => d
  | _ => mkDAG js_empty [] []
  end.

Definition diamond_dag : DAG := Eval vm_compute in dag_or_empty (buildDAG diamond).

Definition diamond_node_A : DAGNode :=
  Eval vm_compute in
    default (mkNode zero_task [] [] 0) (js_get (nodes diamond_dag) "A").

Definition ordered_chain_dag : DAG :=
  Eval vm_compute in dag_or_empty (buildDAG ordered_chain).

Definition cyclic_pair : list Task :=
  [task_of "A" None ["B"] 1; task_of "B" None ["A"] 1].

(** *** [retry]: the attempts of a run with [n] failed calls from [first] on *)

Definition attempts_from (first : Z) (n : nat) : list Z := seqZ first (Z.of_nat n).

Definition delays_from (delay first : Z) (n : nat) : list Z :=
  (λ j, delay * j) <$> seqZ first (Z.of_nat n).

(** *** Further concrete inputs *)

Definition zero_dag : DAG := Eval vm_compute in dag_or_empty (buildDAG [zero_task]).

(** The diamond DAG with its critical path A → B → D stored. *)
Definition diamond_critical_dag : DAG :=
  mkDAG (nodes diamond_dag) (levels diamond_dag) ["A"; "B"; "D"].

(** A valid parent task, and decompositions into the chain and into the
    circular pair. *)
Definition parent_task : Task := task_of "parent" (Some "coordinator") [] 2.
Definition decompose_cycle (_ : Task) : outcome (list Task) := Ok cyclic_pair.

(** An operation that rejects twice and then resolves, and one that always
    rejects. *)
Definition third_time_lucky (attempt : Z) : Z + js_error :=
  if attempt <? 3 then inr (JsError "busy") else inl 7.
Definition always_down (_ : Z) : Z + js_error := inr (JsError "down").

(** * Theorems *)

(** ** Role assignment *)

(** *** Letter case *)

Lemma letter_cases_lower :
  Forall (λ p, (nat_of_ascii p.1 + 32 = nat_of_ascii p.2)%nat ∧
               lower_ascii p.1 = p.2 ∧ lower_ascii p.2 = p.2) letter_cases.
Proof. unfold letter_cases. simpl. repeat constructor. Qed.

Lemma lower_ascii_cases (a : ascii) :
  lower_ascii a = a ∨ (a, lower_ascii a) ∈ letter_cases.
Proof.
  destruct a as [[] [] [] [] [] [] [] []];
    first [ by left
          | right; apply (bool_decide_unpack _); by vm_compute ].
Qed.

Lemma same_letter_lower (a b : ascii) :
  same_letter a b ↔ lower_ascii a = lower_ascii b.
Proof.
  pose proof letter_cases_lower as Htab. rewrite Forall_forall in Htab.
  split.
  - intros [->|[Hin|Hin]]; [done|..]; apply Htab in Hin as (_ & H1 & H2);
      simpl in *; congruence.
  - intros Heq.
    destruct (lower_ascii_cases a) as [Ha|Ha], (lower_ascii_cases b) as [Hb|Hb].
    + left. congruence.
    + right. right. rewrite <- Heq, Ha in Hb. done.
    + right. left. rewrite Heq, Hb in Ha. done.
    + left. apply Htab in Ha as (Ha & _), Hb as (Hb & _). simpl in *.
      rewrite Heq in Ha.
      assert (nat_of_ascii a = nat_of_ascii b) as Hn by lia.
      rewrite <- (ascii_nat_embedding a), <- (ascii_nat_embedding b).
      by rewrite Hn.
Qed.

Lemma equal_ignoring_case_lower (u v : string) :
  equal_ignoring_case u v ↔ toLowerCase u = toLowerCase v.
Proof.
  unfold equal_ignoring_case. revert v.
  induction u as [|a u IH]; intros [|b v]; simpl.
  - split; [done | constructor].
  - split; [by intros ?%Forall2_nil_cons_inv | done].
  - split; [by intros ?%Forall2_cons_nil_inv | done].
  - rewrite Forall2_cons, same_letter_lower, IH.
    split; [by intros [-> ->] | by intros [= -> ->]].
Qed.

(** *** Substrings *)

Lemma append_cons (c : ascii) (a b : string) :
  String.append (String c a) b = String c (String.append a b).
Proof. reflexivity. Qed.

Lemma append_empty (b : string) : String.append EmptyString b = b.
Proof. reflexivity. Qed.

Lemma toLowerCase_app (a b : string) :
  toLowerCase (String.append a b) =
  String.append (toLowerCase a) (toLowerCase b).
Proof.
  induction a as [|c a IH]; [done|].
  rewrite append_cons. simpl. by rewrite IH, append_cons.
Qed.

Lemma toLowerCase_split (a b s : string) :
  toLowerCase s = String.append a b →
  ∃ x y, s = String.append x y ∧ toLowerCase x = a ∧ toLowerCase y = b.
Proof.
  revert s. induction a as [|c a IH]; intros s Heq.
  - by exists EmptyString, s.
  - rewrite append_cons in Heq.
    destruct s as [|d s]; simpl in Heq; [done|].
    injection Heq as Hc Hs.
    destruct (IH s Hs) as (x & y & -> & Hx & Hy).
    exists (String d x), y. rewrite append_cons. simpl. by rewrite Hc, Hx.
Qed.

Lemma prefix_spec (a s : string) :
  String.prefix a s = true ↔ ∃ post, s = String.append a post.
Proof.
  revert s. induction a as [|c a IH]; intros s.
  - destruct s; simpl; split; eauto.
  - destruct s as [|d s]; simpl.
    + split; [done|]. intros [post Hp]. rewrite append_cons in Hp. done.
    + destruct (ascii_dec c d) as [->|Hne].
      * rewrite IH. split; intros [post Hp]; exists post;
          rewrite append_cons in *; congruence.
      * split; [done|]. intros [post Hp]. rewrite append_cons in Hp.
        congruence.
Qed.

Lemma includes_unfold (sub s : string) :
  includes sub s =
  if String.prefix sub s then true
  else match s with
       | EmptyString => false
       | String _ s' => includes sub s'
       end.
Proof. by destruct s. Qed.

Lemma includes_spec (sub s : string) :
  includes sub s = true ↔ substring_of sub s.
Proof.
  unfold substring_of. split.
  - induction s as [|c s IH]; rewrite includes_unfold.
    + destruct (String.prefix sub EmptyString) eqn:Hp; [|done].
      intros _. apply prefix_spec in Hp as [post Hp].
      by exists EmptyString, post.
    + destruct (String.prefix sub (String c s)) eqn:Hp.
      * intros _. apply prefix_spec in Hp as [post Hp].
        by exists EmptyString, post.
      * intros (pre & post & ->)%IH. by exists (String c pre), post.
  - intros (pre & post & ->). induction pre as [|c pre IH].
    + rewrite append_empty, includes_unfold.
      assert (String.prefix sub (String.append sub post) = true) as ->
        by (apply prefix_spec; eauto).
      done.
    + rewrite append_cons, includes_unfold, IH.
      by destruct (String.prefix _ _).
Qed.

(** For a keyword without capital letters, the test of the code is the
    containment of the keyword, letter case ignored. *)
Lemma label_contains_spec (kw l : string) :
  toLowerCase kw = kw →
  label_contains kw l ↔ includes kw (toLowerCase l) = true.
Proof.
  intros Hkw. rewrite includes_spec. unfold label_contains, substring_of.
  split.
  - intros (w & (pre & post & ->) & Hw%equal_ignoring_case_lower).
    exists (toLowerCase pre), (toLowerCase post).
    by rewrite !toLowerCase_app, Hw, Hkw.
  - intros (pre & post & Heq).
    apply toLowerCase_split in Heq as (x & y & -> & Hx & Hy).
    apply toLowerCase_split in Hy as (w & z & -> & Hw & Hz).
    exists w. split; [by exists x, z|].
    apply equal_ignoring_case_lower. by rewrite Hw, Hkw.
Qed.

(** *** The label rules *)

Lemma some_includes_spec (t : Task) (kw : string) :
  toLowerCase kw = kw →
  some_includes kw (map toLowerCase (labels t)) = true ↔
  ∃ l, l ∈ labels t ∧ label_contains kw l.
Proof.
  intros Hkw. unfold some_includes. rewrite existsb_exists. split.
  - intros (x & (l & <- & Hl)%in_map_iff & Hx). exists l.
    split; [by apply list_elem_of_In | by apply label_contains_spec].
  - intros (l & Hl & Hc). exists (toLowerCase l).
    split; [by apply in_map, list_elem_of_In | by apply label_contains_spec].
Qed.

Lemma rule_applies_one (t : Task) (kw r : string) :
  toLowerCase kw = kw →
  rule_applies t ([kw], r) ↔
  some_includes kw (map toLowerCase (labels t)) = true.
Proof.
  intros Hkw. rewrite (some_includes_spec t kw Hkw). unfold rule_applies.
  split.
  - intros (l & kw' & Hl & ->%list_elem_of_singleton & Hc). eauto.
  - intros (l & Hl & Hc). exists l, kw.
    split_and!; [done | apply list_elem_of_here | done].
Qed.

Lemma rule_applies_two (t : Task) (kw1 kw2 r : string) :
  toLowerCase kw1 = kw1 → toLowerCase kw2 = kw2 →
  rule_applies t ([kw1; kw2], r) ↔
  existsb (λ l, includes kw1 l || includes kw2 l)
          (map toLowerCase (labels t)) = true.
Proof.
  intros H1 H2. rewrite existsb_exists. unfold rule_applies. split.
  - intros (l & kw & Hl & Hkw & Hc). exists (toLowerCase l).
    split; [by apply in_map, list_elem_of_In|].
    apply orb_true_iff.
    apply elem_of_cons in Hkw as [->|Hkw];
      [left | right; apply list_elem_of_singleton in Hkw as ->];
      by apply label_contains_spec.
  - intros (x & (l & <- & Hl)%in_map_iff & [Hx|Hx]%orb_true_iff).
    + exists l, kw1. split_and!;
        [by apply list_elem_of_In | apply list_elem_of_here
        | by apply label_contains_spec].
    + exists l, kw2. split_and!;
        [by apply list_elem_of_In
        | apply list_elem_of_further, list_elem_of_here
        | by apply label_contains_spec].
Qed.

Lemma role_by_labels (t : Task) :
  first_rule t label_rules
    (let labels := map toLowerCase (labels t) in
     if some_includes "test" labels then "test"
     else if some_includes "deploy" labels then "deploy"
     else if some_includes "review" labels then "review"
     else if existsb (λ l, includes "pr" l || includes "pull" l) labels then "pr"
     else if some_includes "issue" labels then "issue"
     else "codegen").
Proof.
  cbv zeta. unfold label_rules.
  destruct (some_includes "test" _) eqn:H1.
  { apply (first_rule_here t (["test"], "test")).
    by apply rule_applies_one. }
  apply first_rule_later; [rewrite rule_applies_one, H1; done|].
  destruct (some_includes "deploy" _) eqn:H2.
  { apply (first_rule_here t (["deploy"], "deploy")).
    by apply rule_applies_one. }
  apply first_rule_later; [rewrite rule_applies_one, H2; done|].
  destruct (some_includes "review" _) eqn:H3.
  { apply (first_rule_here t (["review"], "review")).
    by apply rule_applies_one. }
  apply first_rule_later; [rewrite rule_applies_one, H3; done|].
  destruct (existsb _ _) eqn:H4.
  { apply (first_rule_here t (["pr"; "pull"], "pr")).
    by apply rule_applies_two. }
  apply first_rule_later; [rewrite rule_applies_two, H4; done|].
  destruct (some_includes "issue" _) eqn:H5.
  { apply (first_rule_here t (["issue"], "issue")).
    by apply rule_applies_one. }
  apply first_rule_later; [rewrite rule_applies_one, H5; done|].
  constructor.
Qed.

Lemma determineAgentType_spec (t : Task) : spec_role t (determineAgentType t).
Proof.
  pose proof (role_by_labels t) as Hr.
  unfold determineAgentType, spec_role, truthy.
  destruct (assignedAgent t) as [a|]; [|exact Hr].
  destruct (decide (a = "")) as [->|Hne]; [exact Hr|].
  apply String.eqb_neq in Hne. by rewrite Hne.
Qed.

(** The specification fixes the role of every task. *)
Lemma first_rule_functional (t : Task) (rules : list (list string * string))
  (r r' : string) :
  first_rule t rules r → first_rule t rules r' → r = r'.
Proof.
  induction 1 as [|rule rest Ha|rule rest r Hn _ IH]; inversion 1; subst;
    try done. by apply IH.
Qed.

Lemma getPriorityValue_spec (p : string) : getPriorityValue p = spec_weight p.
Proof.
  unfold getPriorityValue, spec_weight, P0_CRITICAL, P1_HIGH, P2_MEDIUM, P3_LOW.
  repeat case_decide; subst; try reflexivity;
    repeat match goal with
           | H : ?a ≠ ?b |- _ => apply String.eqb_neq in H; rewrite H
           end; reflexivity.
Qed.

Lemma assignment_of_spec (t : Task) : spec_assignment t (assignment_of t).
Proof.
  unfold assignment_of, spec_assignment. simpl.
  split_and!; [done | apply determineAgentType_spec | apply getPriorityValue_spec].
Qed.

Section sort_facts.
Implicit Types (a x y : AgentAssignment) (l : list AgentAssignment).

Lemma sort_insert_perm x l : sort_insert by_priority_desc x l ≡ₚ x :: l.
Proof.
  induction l as [|y l IH]; simpl; [done|].
  destruct (by_priority_desc x y <=? 0); [done|].
  rewrite IH. apply Permutation_swap.
Qed.

Lemma js_sort_perm l : js_sort by_priority_desc l ≡ₚ l.
Proof.
  induction l as [|x l IH]; simpl; [done|].
  unfold js_sort in *. simpl. by rewrite sort_insert_perm, IH.
Qed.

Lemma sort_insert_sorted x l :
  StronglySorted weight_ge l →
  StronglySorted weight_ge (sort_insert by_priority_desc x l).
Proof.
  induction 1 as [|y l Hs IH Hall]; simpl.
  - repeat constructor.
  - destruct (Z.leb_spec (by_priority_desc x y) 0) as [Hle|Hgt].
    + constructor; [by constructor|].
      unfold by_priority_desc in Hle.
      constructor; [unfold weight_ge; lia|].
      eapply Forall_impl; [exact Hall|].
      unfold weight_ge. intros z Hz. lia.
    + constructor; [exact IH|].
      rewrite sort_insert_perm. constructor; [|exact Hall].
      unfold weight_ge, by_priority_desc in *. lia.
Qed.

Lemma js_sort_sorted l : StronglySorted weight_ge (js_sort by_priority_desc l).
Proof.
  induction l as [|x l IH]; [constructor|].
  unfold js_sort in *. simpl. by apply sort_insert_sorted.
Qed.

Lemma sort_insert_of_weight w x l :
  of_weight w (sort_insert by_priority_desc x l) = of_weight w (x :: l).
Proof.
  unfold of_weight.
  induction l as [|y l IH]; simpl; [done|].
  destruct (Z.leb_spec (by_priority_desc x y) 0) as [Hle|Hgt]; [done|].
  rewrite filter_cons, IH, !filter_cons.
  unfold by_priority_desc in Hgt.
  repeat case_decide; try done; lia.
Qed.

Lemma js_sort_of_weight w l :
  of_weight w (js_sort by_priority_desc l) = of_weight w l.
Proof.
  induction l as [|x l IH]; [done|].
  unfold js_sort in *. simpl. rewrite sort_insert_of_weight.
  unfold of_weight in *. by rewrite !filter_cons, IH.
Qed.
End sort_facts.

(** C9 (as amended).  For every task sequence, [assignAgents] returns the
    assignments the specification describes, one per task: the id of the
    task; as its role, the explicit role verbatim when [assignedAgent] is a
    non-empty string, and otherwise (no role, or the empty string) the role
    of the first rule, in the order test, deploy, review, pr/pull, issue,
    one of whose keywords some label contains as a substring, letter case
    ignored, and the code-generation role when no rule applies; the weight
    Critical=4, High=3, Medium=2, Low=1, anything else 0.  They are
    rearranged so that the weights descend, the assignments of each weight
    staying in their original relative task order (stable sort). *)
Theorem assignAgents_sorted_stable (tasks : list Task) :
  ∃ l, Forall2 spec_assignment tasks l ∧
       assignAgents tasks ≡ₚ l ∧
       StronglySorted weight_ge (assignAgents tasks) ∧
       ∀ w, of_weight w (assignAgents tasks) = of_weight w l.
Proof.
  exists (map assignment_of tasks). unfold assignAgents. split_and!.
  - induction tasks as [|t tasks IH]; simpl; constructor;
      [apply assignment_of_spec | exact IH].
  - apply js_sort_perm.
  - apply js_sort_sorted.
  - intros w. apply js_sort_of_weight.
Qed.

(** C9 (counterexample).  A task whose [assignedAgent] is the empty string
    does not keep that role: its label selects the role test. *)
Lemma empty_role_not_verbatim :
  assignedAgent empty_role_task = Some "" ∧
  assignAgents [empty_role_task] = [mkAssignment "T" "test" 3] ∧
  agentType (assignment_of empty_role_task) ≠ "".
Proof. split_and!; [reflexivity | reflexivity | done]. Qed.

(** ** The executor: facts about one loop turn *)

Section executor.
Variable agents : gmap string BaseAgent.
Variable maxConcurrency : Z.

Implicit Types (s : ExecState) (t : Task) (q l : list Task).

Lemma remove_first_head t q : remove_first t (t :: q) = q.
Proof. simpl. by rewrite decide_True. Qed.

Lemma remove_first_perm t q : t ∈ q → q ≡ₚ t :: remove_first t q.
Proof.
  induction q as [|x q IH]; [by intros ?%elem_of_nil|].
  intros Hin. simpl. case_decide as Hx; [by subst|].
  apply elem_of_cons in Hin as [->|Hin]; [done|].
  rewrite (IH Hin) at 1. apply Permutation_swap.
Qed.

Lemma remove_first_submseteq t q : remove_first t q ⊆+ q.
Proof.
  induction q as [|x q IH]; simpl; [done|].
  case_decide; [by apply submseteq_cons | by apply submseteq_skip].
Qed.

Lemma readyTasks_spec s t :
  t ∈ readyTasks s ↔ t ∈ queue s ∧ ∀ d, d ∈ dependencies t → d ∈ completed s.
Proof.
  unfold readyTasks. rewrite !list_elem_of_In, filter_In.
  unfold is_ready. rewrite forallb_forall.
  split; intros [Hq Hd]; (split; [done|]); intros d Hin.
  - apply list_elem_of_In, Hd in Hin. by apply bool_decide_eq_true in Hin.
  - apply bool_decide_eq_true, Hd. by apply list_elem_of_In.
Qed.

Lemma filter_sublist {A} (p : A → bool) (l : list A) :
  List.filter p l `sublist_of` l.
Proof.
  induction l as [|x l IH]; simpl; [constructor|].
  destruct (p x); by constructor.
Qed.

Lemma js_slice0_sublist {A} (e : Z) (l : list A) : js_slice0 e l `sublist_of` l.
Proof. unfold js_slice0. apply sublist_take. Qed.

Lemma js_slice0_length {A} (e : Z) (l : list A) :
  0 ≤ e → Z.of_nat (length (js_slice0 e l)) ≤ e.
Proof.
  intros He. unfold js_slice0. rewrite length_take.
  destruct (Z.ltb_spec e 0); lia.
Qed.

Lemma js_slice0_nil_inv {A} (e : Z) (l : list A) :
  0 < e → js_slice0 e l = [] → l = [].
Proof.
  intros He. unfold js_slice0.
  destruct (Z.ltb_spec e 0); [lia|].
  destruct l as [|x l]; [done|]. simpl length.
  destruct (Z.to_nat (e `min` Z.of_nat (S (length l)))) eqn:Hk; [lia|done].
Qed.

Lemma tasksToExecute_sublist s :
  tasksToExecute maxConcurrency s `sublist_of` queue s.
Proof.
  unfold tasksToExecute, readyTasks.
  etrans; [apply js_slice0_sublist | apply filter_sublist].
Qed.

Lemma tasksToExecute_ready s t :
  t ∈ tasksToExecute maxConcurrency s → t ∈ readyTasks s.
Proof.
  unfold tasksToExecute. intros Hin.
  eapply elem_of_sublist; [done | apply js_slice0_sublist].
Qed.

Lemma filter_split_length {A} (p q : A → bool) (l : list A) :
  (∀ x, q x = negb (p x)) →
  (length (List.filter p l) + length (List.filter q l) = length l)%nat.
Proof.
  intros Hpq. induction l as [|x l IH]; simpl; [done|].
  rewrite (Hpq x). destruct (p x); simpl; lia.
Qed.

Lemma no_agent_negb t : no_agent agents t = negb (has_agent agents t).
Proof.
  unfold no_agent, has_agent.
  destruct (agents !! agent_key t) as [a|] eqn:Ha.
  - rewrite bool_decide_eq_false_2 by done.
    by rewrite bool_decide_eq_true_2 by eauto.
  - rewrite bool_decide_eq_true_2 by done.
    by rewrite bool_decide_eq_false_2 by (by intros [? ?]).
Qed.

(** The state after dispatching [l], field by field. *)
Lemma dispatch_fold_completed l s :
  completed (foldl (dispatch agents) s l) = completed s.
Proof.
  revert s. induction l as [|t l IH]; intros s; simpl; [done|].
  rewrite IH. unfold dispatch, executeTask_start. by destruct (agents !! agent_key t).
Qed.

Lemma dispatch_fold_running l s :
  running (foldl (dispatch agents) s l) = running s ++ List.filter (has_agent agents) l.
Proof.
  revert s. induction l as [|t l IH]; intros s; simpl.
  - by rewrite app_nil_r.
  - rewrite IH. unfold dispatch, executeTask_start.
    destruct (has_agent agents t) eqn:Hb; unfold has_agent in Hb.
    + apply bool_decide_eq_true in Hb as [a Ha]. rewrite Ha. simpl.
      by rewrite <- app_assoc.
    + apply bool_decide_eq_false in Hb.
      destruct (agents !! agent_key t) eqn:Ha; [by destruct Hb; eauto|done].
Qed.

Lemma dispatch_fold_inProgress l s :
  inProgress (foldl (dispatch agents) s l) =
  list_to_set (map id (List.filter (has_agent agents) l)) ∪ inProgress s.
Proof.
  revert s. induction l as [|t l IH]; intros s; simpl.
  - set_solver.
  - rewrite IH. unfold dispatch, executeTask_start.
    destruct (has_agent agents t) eqn:Hb; unfold has_agent in Hb.
    + apply bool_decide_eq_true in Hb as [a Ha]. rewrite Ha. simpl.
      set_solver.
    + apply bool_decide_eq_false in Hb.
      destruct (agents !! agent_key t) eqn:Ha; [by destruct Hb; eauto|done].
Qed.

Lemma dispatch_fold_results l s :
  results (foldl (dispatch agents) s l) = results s.
Proof.
  revert s. induction l as [|t l IH]; intros s; simpl; [done|].
  rewrite IH. unfold dispatch, executeTask_start. by destruct (agents !! agent_key t).
Qed.

Lemma dispatch_fold_failing l s :
  failing (foldl (dispatch agents) s l) =
  failing s ++ List.filter (no_agent agents) l.
Proof.
  revert s. induction l as [|t l IH]; intros s; simpl.
  - by rewrite app_nil_r.
  - rewrite IH. unfold dispatch, executeTask_start.
    destruct (no_agent agents t) eqn:Hb; unfold no_agent in Hb.
    + apply bool_decide_eq_true in Hb. rewrite Hb. simpl.
      by rewrite <- app_assoc.
    + apply bool_decide_eq_false in Hb.
      by destruct (agents !! agent_key t) eqn:Ha.
Qed.

Lemma dispatch_fold_queue l s :
  l ⊆+ queue s → queue s ≡ₚ l ++ queue (foldl (dispatch agents) s l).
Proof.
  revert s. induction l as [|t l IH]; intros s Hsub; simpl; [done|].
  assert (t ∈ queue s) as Hin.
  { eapply elem_of_submseteq; [|exact Hsub]. apply elem_of_cons; auto. }
  assert (queue (dispatch agents s t) = remove_first t (queue s)) as Hq.
  { unfold dispatch, executeTask_start. by destruct (agents !! agent_key t). }
  assert (l ⊆+ queue (dispatch agents s t)) as Hsub'.
  { rewrite Hq. apply (submseteq_app_inv_l _ _ [t]). simpl.
    by rewrite <- (remove_first_perm t (queue s)). }
  rewrite <- (IH _ Hsub'), Hq. by apply remove_first_perm.
Qed.

Lemma loop_iteration_Continue s s' :
  loop_iteration agents maxConcurrency s = Continue s' →
  s' = foldl (dispatch agents) s (tasksToExecute maxConcurrency s) ∧
  (tasksToExecute maxConcurrency s ≠ [] ∨ inProgress s ≠ ∅).
Proof.
  unfold loop_iteration. intros H.
  destruct (_ || _); [|done].
  destruct (_ && _) eqn:Hc; [by destruct (0 <? _)%nat|].
  injection H as <-. split; [done|].
  apply andb_false_iff in Hc as [Hc|Hc].
  - left. intros Hnil. rewrite Hnil in Hc. done.
  - right. intros Hnil. rewrite Hnil in Hc. done.
Qed.

Lemma loop_iteration_Return s rs :
  loop_iteration agents maxConcurrency s = Return rs →
  queue s = [] ∧ rs = results s.
Proof.
  unfold loop_iteration. intros H.
  destruct (queue s) as [|t q]; simpl in H.
  - split; [done|]. repeat case_match; by simplify_eq.
  - repeat case_match; by simplify_eq.
Qed.

Lemma loop_iteration_Reject s e :
  loop_iteration agents maxConcurrency s = Reject e →
  e = JsError deadlock_message.
Proof.
  unfold loop_iteration. intros H.
  destruct (_ || _); [|done].
  destruct (_ && _); [|done].
  destruct (0 <? _)%nat; [by injection H|done].
Qed.

(** *** Invariants of a run *)

Lemma NoDup_of_submseteq {A} (l k : list A) : l ⊆+ k → NoDup k → NoDup l.
Proof.
  intros [k' Hk]%submseteq_Permutation Hnd.
  rewrite Hk in Hnd. by apply NoDup_app in Hnd as [? _].
Qed.

Lemma run_trans s1 tr1 s2 tr2 s3 :
  run agents maxConcurrency s1 tr1 s2 →
  run agents maxConcurrency s2 tr2 s3 →
  run agents maxConcurrency s1 (tr1 ++ tr2) s3.
Proof.
  intros H1 H2. induction H2 as [|s2 tr s3 evs s4 _ IH Hst].
  - by rewrite app_nil_r.
  - rewrite app_assoc. eapply run_step; [by apply IH | done].
Qed.

Lemma run_one s evs s' :
  step agents maxConcurrency s evs s' → run agents maxConcurrency s evs s'.
Proof. intros H. apply (run_step _ _ s [] s evs s'); [constructor | done]. Qed.

Lemma turn_pending s s' :
  loop_iteration agents maxConcurrency s = Continue s' →
  queue s ++ running s ≡ₚ
    List.filter (no_agent agents) (tasksToExecute maxConcurrency s) ++
    (queue s' ++ running s').
Proof.
  intros [-> _]%loop_iteration_Continue.
  set (todo := tasksToExecute maxConcurrency s).
  assert (todo ⊆+ queue s) as Hsub
    by apply sublist_submseteq, tasksToExecute_sublist.
  rewrite dispatch_fold_running.
  rewrite (dispatch_fold_queue todo s Hsub) at 1.
  assert (todo ≡ₚ List.filter (no_agent agents) todo ++
                  List.filter (has_agent agents) todo) as Hsplit.
  { clear. induction todo as [|t l IH]; simpl; [done|].
    unfold no_agent, has_agent at 1 3.
    destruct (agents !! agent_key t) as [a|] eqn:Ha.
    - rewrite bool_decide_eq_false_2 by done.
      rewrite bool_decide_eq_true_2 by eauto.
      rewrite IH at 1. by rewrite Permutation_middle.
    - rewrite bool_decide_eq_true_2 by done.
      rewrite bool_decide_eq_false_2 by (by intros [? ?]).
      simpl. by rewrite IH at 1. }
  rewrite Hsplit at 1.
  rewrite <- !app_assoc. apply Permutation_app_head.
  rewrite (Permutation_app_comm (List.filter (has_agent agents) todo)).
  by rewrite <- app_assoc.
Qed.

Lemma turn_pending_sub s s' :
  loop_iteration agents maxConcurrency s = Continue s' →
  queue s' ++ running s' ⊆+ queue s ++ running s.
Proof.
  intros H. rewrite (turn_pending s s' H). apply submseteq_inserts_l. done.
Qed.

Lemma settle_pending_sub s t o :
  queue (executeTask_settle s t o) ++ running (executeTask_settle s t o) ⊆+ queue s ++ running s.
Proof.
  destruct o; simpl; apply submseteq_app; try done;
    apply remove_first_submseteq.
Qed.

Lemma exec_inv_init tasks : NoDup (task_ids tasks) → exec_inv (exec_init tasks).
Proof.
  intros Hnd. split; simpl.
  - by rewrite app_nil_r.
  - done.
  - set_solver.
Qed.

Lemma exec_inv_running_ids s t :
  exec_inv s → t ∈ running s →
  id t ∉ task_ids (queue s ++ remove_first t (running s)).
Proof.
  intros [Hnd _ _] Hin. unfold task_ids in *.
  rewrite (remove_first_perm t (running s) Hin) in Hnd.
  rewrite map_app in *. simpl in Hnd.
  rewrite <- Permutation_middle in Hnd.
  by apply NoDup_cons in Hnd as [? _].
Qed.

Lemma exec_inv_step s evs s' :
  exec_inv s → step agents maxConcurrency s evs s' → exec_inv s'.
Proof.
  intros Hinv Hst. destruct Hst as [s s' _ Hturn | s t o Hin | s t rest _];
    [| |by destruct Hinv].
  - destruct Hinv as [Hnd Hip Hc].
    pose proof (turn_pending_sub s s' Hturn) as Hsub.
    apply loop_iteration_Continue in Hturn as [Hs' _].
    split.
    + eapply NoDup_of_submseteq; [|exact Hnd].
      unfold task_ids. by apply fmap_submseteq.
    + subst s'. rewrite dispatch_fold_inProgress, dispatch_fold_running, Hip.
      unfold task_ids. rewrite map_app, list_to_set_app_L. set_solver.
    + intros x Hx Hin. eapply (Hc x).
      * subst s'. by rewrite dispatch_fold_completed in Hx.
      * eapply elem_of_submseteq; [exact Hin|].
        unfold task_ids. by apply fmap_submseteq.
  - pose proof (exec_inv_running_ids s t Hinv Hin) as Hfresh.
    pose proof (settle_pending_sub s t o) as Hsub.
    destruct Hinv as [Hnd Hip Hc].
    assert (inProgress s ∖ {[id t]} =
            list_to_set (task_ids (remove_first t (running s)))) as Hip'.
    { rewrite Hip. unfold task_ids in *.
      rewrite (remove_first_perm t (running s) Hin) at 1.
      simpl. rewrite map_app in Hfresh.
      apply not_elem_of_app in Hfresh as [_ Hfresh].
      apply set_eq. intros x.
      rewrite elem_of_difference, elem_of_union, elem_of_singleton,
        !elem_of_list_to_set.
      split; [intros [[->|?] ?]; done|].
      intros Hx. split; [by right|]. by intros ->. }
    split.
    + eapply NoDup_of_submseteq; [|exact Hnd].
      unfold task_ids. by apply fmap_submseteq.
    + by destruct o.
    + intros x Hx Hxin.
      assert (x ∈ task_ids (queue s ++ running s)) as Hold.
      { eapply elem_of_submseteq; [exact Hxin|].
        unfold task_ids. by apply fmap_submseteq. }
      destruct o as [r|msg]; simpl in *.
      * apply elem_of_union in Hx as [->%elem_of_singleton|Hx];
          [done | by apply (Hc x)].
      * by apply (Hc x).
Qed.

Lemma exec_inv_run s tr s' :
  exec_inv s → run agents maxConcurrency s tr s' → exec_inv s'.
Proof.
  intros Hinv Hrun.
  induction Hrun as [|s1 tr s2 evs s3 Hrun IH Hst]; [done|].
  eapply exec_inv_step; [by apply IH | exact Hst].
Qed.

Lemma exec_inv_size s :
  exec_inv s → size (inProgress s) = length (running s).
Proof.
  intros [Hnd Hip _]. rewrite Hip, size_list_to_set.
  - unfold task_ids. by rewrite length_map.
  - unfold task_ids in *. rewrite map_app in Hnd.
    by apply NoDup_app in Hnd as (_ & _ & ?).
Qed.

(** The pending [.catch] handlers run without a trace event and touch the
    results only. *)
Lemma run_flush s :
  ∃ s', run agents maxConcurrency s [] s' ∧ failing s' = [] ∧
        queue s' = queue s ∧ running s' = running s ∧
        inProgress s' = inProgress s ∧ completed s' = completed s ∧
        results s' =
          results s ++ map (λ t, failure_result t (agent_not_found t)) (failing s).
Proof.
  remember (failing s) as f eqn:Hf. revert s Hf.
  induction f as [|t rest IH]; intros s Hf.
  - exists s. rewrite app_nil_r. split_and!; try done. constructor.
  - destruct (IH (catch_no_agent s t rest) eq_refl)
      as (s' & Hrun & Hnil & Hq & Hr & Hip & Hc & Hres).
    exists s'. split_and!; try done.
    + apply (run_trans s [] (catch_no_agent s t rest) [] s'); [|done].
      apply run_one. by constructor.
    + rewrite Hres. simpl. by rewrite <- app_assoc.
Qed.

(** *** What a run records *)

Lemma step_completed_mono s evs s' x :
  step agents maxConcurrency s evs s' → x ∈ completed s → x ∈ completed s'.
Proof.
  intros [s1 s2 _ [-> _]%loop_iteration_Continue | s1 t o _ | s1 t rest _] Hx.
  - by rewrite dispatch_fold_completed.
  - destruct o; simpl; [set_solver | done].
  - done.
Qed.

Lemma step_results_mono s evs s' r :
  step agents maxConcurrency s evs s' → r ∈ results s → r ∈ results s'.
Proof.
  intros [s1 s2 _ [-> _]%loop_iteration_Continue | s1 t o _ | s1 t rest _] Hr.
  - by rewrite dispatch_fold_results.
  - destruct o; simpl; apply elem_of_app; by left.
  - simpl. apply elem_of_app. by left.
Qed.

Lemma turn_events_start todo B :
  EvStart B ∈ turn_events agents todo → B ∈ todo.
Proof.
  unfold turn_events. rewrite elem_of_app, !list_elem_of_In, !in_map_iff.
  intros [(t & Heq & Hin) | (t & Heq & _)]; [|discriminate Heq].
  by injection Heq as <-.
Qed.

Lemma turn_events_settle todo t o : EvSettle t o ∉ turn_events agents todo.
Proof.
  unfold turn_events. rewrite elem_of_app, !list_elem_of_In, !in_map_iff.
  intros [(? & Heq & _) | (? & Heq & _)]; discriminate Heq.
Qed.

Lemma recorded_before_app tr evs d :
  recorded_before tr d → recorded_before (tr ++ evs) d.
Proof.
  intros (a & r & Hid & Hin). exists a, r. split; [done|].
  apply elem_of_app. by left.
Qed.

Lemma run_recorded tasks tr s :
  run agents maxConcurrency (exec_init tasks) tr s →
  ∀ x, x ∈ completed s → recorded_before tr x.
Proof.
  remember (exec_init tasks) as s0 eqn:Hs0.
  induction 1 as [|s1 tr s2 evs s3 Hrun IH Hst]; intros x Hx.
  - subst. simpl in Hx. set_solver.
  - specialize (IH Hs0).
    destruct Hst as [s2 s3 _ [-> _]%loop_iteration_Continue | s2 t o Hin
                    | s2 t rest _].
    + rewrite dispatch_fold_completed in Hx.
      by apply recorded_before_app, IH.
    + destruct o as [r|msg]; simpl in Hx.
      * apply elem_of_union in Hx as [->%elem_of_singleton | Hx].
        -- exists t, r. split; [done|]. apply elem_of_app. right.
           by apply list_elem_of_singleton.
        -- by apply recorded_before_app, IH.
      * by apply recorded_before_app, IH.
    + by apply recorded_before_app, IH.
Qed.

Lemma run_ordered tasks tr s :
  run agents maxConcurrency (exec_init tasks) tr s → dispatch_ordered tr.
Proof.
  remember (exec_init tasks) as s0 eqn:Hs0.
  induction 1 as [|s1 tr s2 evs s3 Hrun IH Hst]; intros pre B post Heq d Hd.
  - by destruct pre.
  - specialize (IH Hs0). subst s1.
    assert (EvStart B ∈ evs → recorded_before tr d) as Hnew.
    { intros Hin. destruct Hst as [s2 s3 _ Hturn | s2 t o Hrunning | s2 t rest _].
      - apply turn_events_start, tasksToExecute_ready in Hin.
        apply readyTasks_spec in Hin as [_ Hdeps].
        eapply run_recorded; [exact Hrun | by apply Hdeps].
      - by apply list_elem_of_singleton in Hin.
      - by apply elem_of_nil in Hin. }
    apply app_eq_inv in Heq as [(k & Hk1 & Hk2) | (k & Hk1 & Hk2)].
    + destruct k as [|e k]; simpl in Hk2.
      * rewrite app_nil_r in Hk1. subst pre. apply Hnew.
        rewrite <- Hk2. apply elem_of_cons. by left.
      * injection Hk2 as <- Hpost. by eapply IH.
    + subst pre. apply recorded_before_app, Hnew. rewrite Hk2.
      apply elem_of_app. right. apply elem_of_cons. by left.
Qed.

Lemma run_dispatched tasks tr s B :
  run agents maxConcurrency (exec_init tasks) tr s → B ∈ tasks →
  B ∈ queue s ∨ ∀ d, d ∈ dependencies B → d ∈ completed s.
Proof.
  remember (exec_init tasks) as s0 eqn:Hs0.
  induction 1 as [|s1 tr s2 evs s3 Hrun IH Hst]; intros HB.
  - subst. by left.
  - destruct (IH Hs0 HB) as [Hq | Hdone].
    + destruct Hst as [s2 s3 _ Hturn | s2 t o Hin | s2 t rest _].
      * apply loop_iteration_Continue in Hturn as [-> _].
        pose proof (dispatch_fold_queue (tasksToExecute maxConcurrency s2) s2
          (sublist_submseteq _ _ (tasksToExecute_sublist s2))) as Hperm.
        rewrite Hperm in Hq. apply elem_of_app in Hq as [Hq|Hq]; [|by left].
        right. intros d Hd. rewrite dispatch_fold_completed.
        apply tasksToExecute_ready, readyTasks_spec in Hq as [_ Hdeps].
        by apply Hdeps.
      * left. by destruct o.
      * by left.
    + right. intros d Hd. eapply step_completed_mono; [exact Hst|].
      by apply Hdone.
Qed.

Lemma run_rejected tasks tr s t msg :
  NoDup (task_ids tasks) →
  run agents maxConcurrency (exec_init tasks) tr s →
  EvSettle t (Rejected msg) ∈ tr →
  (id t ∉ completed s) ∧ (id t ∉ task_ids (queue s ++ running s)) ∧
  failure_result t msg ∈ results s.
Proof.
  intros Hnd. remember (exec_init tasks) as s0 eqn:Hs0.
  induction 1 as [|s1 tr s2 evs s3 Hrun IH Hst]; intros Hev.
  - by apply elem_of_nil in Hev.
  - assert (exec_inv s2) as Hinv.
    { eapply exec_inv_run; [|exact Hrun]. subst. by apply exec_inv_init. }
    apply elem_of_app in Hev as [Hev | Hev].
    + destruct (IH Hs0 Hev) as (Hc & Hp & Hr).
      split_and!.
      * destruct Hst as [s2 s3 _ [-> _]%loop_iteration_Continue | s2 t' o Hin
                        | s2 t' rest _].
        -- by rewrite dispatch_fold_completed.
        -- destruct o as [r|m]; simpl; [|done].
           intros [Hx%elem_of_singleton | ?]%elem_of_union; [|done].
           apply Hp. rewrite Hx. unfold task_ids.
           apply list_elem_of_In, in_map, list_elem_of_In.
           apply elem_of_app. by right.
        -- done.
      * intros Hin. apply Hp.
        eapply elem_of_submseteq; [exact Hin|].
        unfold task_ids. apply fmap_submseteq.
        destruct Hst as [s2 s3 _ Hturn | s2 t' o _ | s2 t' rest _];
          [by apply turn_pending_sub | apply settle_pending_sub | done].
      * by eapply step_results_mono.
    + destruct Hst as [s2 s3 _ Hturn | s2 t' o Hin | s2 t' rest _];
        [| |by apply elem_of_nil in Hev].
      * by apply turn_events_settle in Hev.
      * apply list_elem_of_singleton in Hev. injection Hev as <- <-.
        pose proof (exec_inv_running_ids s2 t Hinv Hin) as Hfresh.
        simpl. split_and!; [|done|].
        -- intros Hc. apply (inv_completed s2 Hinv _ Hc).
           unfold task_ids. apply list_elem_of_In, in_map, list_elem_of_In.
           apply elem_of_app. by right.
        -- apply elem_of_app. right. by apply list_elem_of_singleton.
Qed.

(** *** Termination of the loop *)

(** From every state of a run the loop can still end: the pending
    handlers run, the running tasks settle, and each turn that follows
    either dispatches or ends the loop. *)
Lemma can_finish (n : nat) : ∀ s,
  exec_inv s → 0 < maxConcurrency →
  (2 * length (queue s) + length (running s) + length (failing s) ≤ n)%nat →
  ∃ tr s', run agents maxConcurrency s tr s' ∧ failing s' = [] ∧
           ∀ s'', loop_iteration agents maxConcurrency s' ≠ Continue s''.
Proof.
  induction n as [|n IH]; intros s Hinv Hpos Hm.
  - exists [], s. split_and!; [constructor | by destruct (failing s); simpl in *; [|lia] |].
    intros s''. unfold loop_iteration.
    rewrite (exec_inv_size s Hinv).
    destruct (queue s), (running s); simpl in *; try lia. done.
  - destruct (failing s) as [|f frest] eqn:Hf.
    { destruct (running s) as [|t rest] eqn:Hr.
      + destruct (loop_iteration agents maxConcurrency s) as [s1| |] eqn:Hl;
          [|exists [], s; split_and!; [constructor | done | by rewrite Hl]..].
        pose proof (exec_inv_step s _ s1 Hinv (step_turn _ _ s s1 Hf Hl)) as Hinv1.
        pose proof (exec_inv_size s Hinv) as Hsz. rewrite Hr in Hsz.
        pose proof Hl as [Hs1 Hne]%loop_iteration_Continue.
        set (todo := tasksToExecute maxConcurrency s) in *.
        assert (todo ≠ []) as Htodo.
        { destruct Hne as [?|Hne]; [done|]. destruct Hne.
          apply size_empty_inv in Hsz. by apply leibniz_equiv. }
        pose proof (dispatch_fold_queue todo s
          (sublist_submseteq _ _ (tasksToExecute_sublist s))) as Hq.
        apply Permutation_length in Hq. rewrite length_app, <- Hs1 in Hq.
        assert (length (running s1) + length (failing s1) = length todo)%nat
          as Hrun.
        { rewrite Hs1, dispatch_fold_running, dispatch_fold_failing, Hr, Hf.
          simpl. apply filter_split_length, no_agent_negb. }
        assert (0 < length todo)%nat by (destruct todo; [done|simpl; lia]).
        destruct (IH s1 Hinv1 Hpos) as (tr' & s' & Hrun' & Hnil & Hfin);
          [simpl in Hm; lia|].
        eexists _, s'. split_and!; [|exact Hnil|exact Hfin].
        eapply run_trans; [apply run_one, step_turn; [exact Hf | exact Hl] | exact Hrun'].
      + assert (t ∈ running s) as Hin by (rewrite Hr; apply elem_of_cons; auto).
        pose proof (step_settle agents maxConcurrency s t (Rejected "") Hin)
          as Hst.
        destruct (IH (executeTask_settle s t (Rejected "")))
          as (tr' & s' & Hrun' & Hnil & Hfin).
        * by eapply exec_inv_step.
        * done.
        * simpl. rewrite Hr, remove_first_head, Hf. simpl in Hm. simpl. lia.
        * eexists _, s'. split_and!; [|exact Hnil|exact Hfin].
          eapply run_trans; [apply run_one, Hst | exact Hrun']. }
    pose proof (step_catch agents maxConcurrency s f frest Hf) as Hst.
    destruct (IH (catch_no_agent s f frest)) as (tr' & s' & Hrun' & Hnil & Hfin).
    + by eapply exec_inv_step.
    + done.
    + simpl in *. lia.
    + eexists _, s'. split_and!; [|exact Hnil|exact Hfin].
      eapply run_trans; [apply run_one, Hst | exact Hrun'].
Qed.

(** The test of the deadlock branch. *)
Lemma loop_iteration_deadlock s :
  queue s ≠ [] → readyTasks s = [] → inProgress s = ∅ →
  loop_iteration agents maxConcurrency s = Reject (JsError deadlock_message).
Proof.
  intros Hq Hready Hip.
  unfold loop_iteration, tasksToExecute. rewrite Hready, Hip.
  destruct (queue s); [done|]. simpl.
  unfold js_slice0. by rewrite take_nil.
Qed.

(** A task left to its [.catch] handler stays there until its failure is
    recorded, and the results only grow. *)
Lemma run_failing_recorded s tr s' t :
  run agents maxConcurrency s tr s' → t ∈ failing s →
  t ∈ failing s' ∨ failure_result t (agent_not_found t) ∈ results s'.
Proof.
  induction 1 as [|s1 tr s2 evs s3 Hrun IH Hst]; intros Hin; [by left|].
  destruct (IH Hin) as [Hf|Hr]; [|right; by eapply step_results_mono].
  destruct Hst as [s2 s3 _ [-> _]%loop_iteration_Continue | s2 t' o _
                  | s2 t' rest Hfail].
  - left. rewrite dispatch_fold_failing. apply elem_of_app. by left.
  - left. by destruct o.
  - rewrite Hfail in Hf. apply elem_of_cons in Hf as [->|Hf]; [right|by left].
    simpl. apply elem_of_app. right. apply list_elem_of_here.
Qed.

Lemma run_results_prefix s tr s' :
  run agents maxConcurrency s tr s' → results s `prefix_of` results s'.
Proof.
  induction 1 as [|s1 tr s2 evs s3 Hrun IH Hst]; [done|].
  etrans; [exact IH|].
  destruct Hst as [s2 s3 _ [-> _]%loop_iteration_Continue | s2 t' o _
                  | s2 t' rest _].
  - by rewrite dispatch_fold_results.
  - destruct o; simpl; by eexists.
  - simpl. by eexists.
Qed.

(** A loop turn that selects [u] continues, and passes [u] to
    [executeTask]: [u] is running, or left to its [.catch] handler. *)
Lemma turn_dispatches s u :
  u ∈ tasksToExecute maxConcurrency s →
  ∃ s', loop_iteration agents maxConcurrency s = Continue s' ∧
        s' = foldl (dispatch agents) s (tasksToExecute maxConcurrency s) ∧
        (u ∈ running s' ∨ u ∈ failing s').
Proof.
  intros Hin. set (todo := tasksToExecute maxConcurrency s) in *.
  exists (foldl (dispatch agents) s todo). split_and!; [|done|].
  - unfold loop_iteration. fold todo.
    assert (u ∈ queue s) as Hq
      by (eapply elem_of_sublist; [exact Hin | apply tasksToExecute_sublist]).
    destruct (queue s) as [|x q]; [by apply elem_of_nil in Hq|].
    destruct todo as [|y l]; [by apply elem_of_nil in Hin|]. done.
  - rewrite dispatch_fold_running, dispatch_fold_failing, !elem_of_app.
    destruct (agents !! agent_key u) as [a|] eqn:Ha.
    + left. right. apply list_elem_of_In, filter_In.
      split; [by apply list_elem_of_In | apply bool_decide_eq_true; eauto].
    + right. right. apply list_elem_of_In, filter_In.
      split; [by apply list_elem_of_In | by apply bool_decide_eq_true].
Qed.

(** *** The claims on the executor *)

(** C4 (as amended).  When the loop of [executeParallel] reaches a state in
    which the pending queue is non-empty, no pending task is ready and
    nothing is in flight, [executeParallel] rejects with the error
    "Circular dependency or blocked tasks detected"; the rejection carries
    only that error, and the results collected so far do not reach the
    caller. *)
Theorem deadlock_rejects_without_results tasks tr s :
  run agents maxConcurrency (exec_init tasks) tr s →
  queue s ≠ [] → readyTasks s = [] → inProgress s = ∅ →
  executeParallel tasks agents maxConcurrency tr
    (Reject (JsError deadlock_message)) ∧
  caller_results (loop_iteration agents maxConcurrency s) = None.
Proof.
  intros Hrun Hq Hready Hip.
  pose proof (loop_iteration_deadlock s Hq Hready Hip) as Hl.
  split; [|by rewrite Hl].
  destruct (run_flush s) as (s' & Hflush & Hnil & Hq' & _ & Hip' & Hc' & _).
  exists s'. split_and!; [| done | | done].
  - rewrite <- (app_nil_r tr). by eapply run_trans.
  - apply loop_iteration_deadlock; [by rewrite Hq' | | by rewrite Hip'].
    unfold readyTasks in *. by rewrite Hq', Hc'.
Qed.

(** C5 (as amended).  When a loop turn dispatches a task [t] whose role
    has no registered agent, [executeParallel] does not fail at that
    point: the turn continues, [t] enters neither the running tasks nor
    the completed set, and every task of the same round that has an agent
    is started all the same.  The rejection "Agent not found: <role>" of
    [executeTask] goes to the [.catch] handler of the dispatch loop, which
    runs before the next turn: by then the results collected so far are
    followed by the synthetic failed result of [t] (success false, the id
    of [t], the role of [t] or "unknown", the error "Agent not found:
    <role>", execution time 0, no logs).  The later turns dispatch as
    before: every task a later turn selects is passed to [executeTask]. *)
Theorem missing_agent_is_recorded s t :
  failing s = [] →
  t ∈ tasksToExecute maxConcurrency s →
  agents !! agent_key t = None →
  ∃ s', loop_iteration agents maxConcurrency s = Continue s' ∧
        completed s' = completed s ∧
        results s' = results s ∧
        (t ∈ running s' → t ∈ running s) ∧
        (∀ u, u ∈ tasksToExecute maxConcurrency s →
              is_Some (agents !! agent_key u) → u ∈ running s') ∧
        (∃ s1, run agents maxConcurrency s' [] s1 ∧ failing s1 = []) ∧
        ∀ tr s'', run agents maxConcurrency s' tr s'' → failing s'' = [] →
          results s `prefix_of` results s'' ∧
          mkResult false (id t) (default "unknown" (assignedAgent t)) None
                   (Some (String.append "Agent not found: " (agent_key t)))
                   (Some 0) [] ∈ results s'' ∧
          ∀ u, u ∈ tasksToExecute maxConcurrency s'' →
               ∃ s3, loop_iteration agents maxConcurrency s'' = Continue s3 ∧
                     (u ∈ running s3 ∨ u ∈ failing s3).
Proof.
  intros Hnil Hin Hnone.
  destruct (turn_dispatches s t Hin) as (s' & Hl & Hs' & _).
  set (todo := tasksToExecute maxConcurrency s) in *.
  exists s'. split_and!.
  - done.
  - subst s'. apply dispatch_fold_completed.
  - subst s'. apply dispatch_fold_results.
  - subst s'. rewrite dispatch_fold_running.
    intros [?|Hf]%elem_of_app; [done|].
    apply list_elem_of_In, filter_In in Hf as [_ Hf].
    apply bool_decide_eq_true in Hf as [a Ha]. congruence.
  - intros u Hu Ha. subst s'. rewrite dispatch_fold_running.
    apply elem_of_app. right. apply list_elem_of_In, filter_In.
    split; [by apply list_elem_of_In | by apply bool_decide_eq_true].
  - destruct (run_flush s') as (s1 & Hrun1 & Hnil1 & _). by exists s1.
  - intros tr s'' Hrun Hnil''.
    assert (t ∈ failing s') as Hfail.
    { subst s'. rewrite dispatch_fold_failing. apply elem_of_app. right.
      apply list_elem_of_In, filter_In.
      split; [by apply list_elem_of_In | by apply bool_decide_eq_true]. }
    split_and!.
    + assert (results s = results s') as -> by (subst s'; by rewrite dispatch_fold_results).
      by eapply run_results_prefix.
    + destruct (run_failing_recorded s' tr s'' t Hrun Hfail) as [Hf|Hr]; [|exact Hr].
      rewrite Hnil'' in Hf. by apply elem_of_nil in Hf.
    + intros u Hu. destruct (turn_dispatches s'' u Hu) as (s3 & Hl3 & _ & Hu3).
      by exists s3.
Qed.

(** C6.  In every state of a run, a pending task is ready exactly when
    all its declared dependencies are in the completed set, only ready
    tasks are dispatched, and a running task enters the completed set
    when its agent resolves, whatever the result's success flag; so, for
    every concurrency ceiling, each call of [executeTask] on a task comes
    after the results of all its dependencies have been recorded. *)
Theorem dependencies_before_dispatch tasks tr s :
  run agents maxConcurrency (exec_init tasks) tr s →
  (∀ B, B ∈ readyTasks s ↔
        B ∈ queue s ∧ ∀ d, d ∈ dependencies B → d ∈ completed s) ∧
  (∀ B, B ∈ tasksToExecute maxConcurrency s → B ∈ readyTasks s) ∧
  (∀ t r, id t ∈ completed (executeTask_settle s t (Resolved r))) ∧
  dispatch_ordered tr.
Proof.
  intros Hrun. split_and!.
  - intros B. apply readyTasks_spec.
  - intros B. apply tasksToExecute_ready.
  - intros t r. simpl. set_solver.
  - by eapply run_ordered.
Qed.

(** C7.  On a batch with pairwise different ids and a positive ceiling,
    in every state of a run the number of running (dispatched, not yet
    settled) tasks, and likewise the size of [inProgress], is at most
    [maxConcurrency], and the next round dispatches at most
    [maxConcurrency] minus the number in flight. *)
Theorem inflight_bounded tasks tr s :
  NoDup (task_ids tasks) → 0 < maxConcurrency →
  run agents maxConcurrency (exec_init tasks) tr s →
  Z.of_nat (length (running s)) ≤ maxConcurrency ∧
  Z.of_nat (size (inProgress s)) ≤ maxConcurrency ∧
  Z.of_nat (length (tasksToExecute maxConcurrency s)) ≤
    maxConcurrency - Z.of_nat (size (inProgress s)).
Proof.
  intros Hnd Hpos Hrun.
  assert (exec_inv s) as Hinv
    by (eapply exec_inv_run; [by apply exec_inv_init | exact Hrun]).
  assert (Z.of_nat (length (running s)) ≤ maxConcurrency) as Hb.
  { clear Hinv. remember (exec_init tasks) as s0 eqn:Hs0.
    induction Hrun as [|s1 tr s2 evs s3 Hrun IH Hst].
    - subst. simpl. lia.
    - specialize (IH Hs0).
      assert (exec_inv s2) as Hinv2.
      { eapply exec_inv_run; [|exact Hrun]. subst. by apply exec_inv_init. }
      destruct Hst as [s2 s3 _ [-> _]%loop_iteration_Continue | s2 t o Hin
                      | s2 t rest _]; [| |done].
      + rewrite dispatch_fold_running, length_app.
        pose proof (sublist_length _ _
          (filter_sublist (has_agent agents)
             (tasksToExecute maxConcurrency s2))) as Hf.
        pose proof (js_slice0_length
          (maxConcurrency - Z.of_nat (size (inProgress s2)))
          (readyTasks s2)) as Hsl.
        rewrite (exec_inv_size s2 Hinv2) in Hsl.
        unfold tasksToExecute in Hf at 2.
        rewrite (exec_inv_size s2 Hinv2) in Hf. lia.
      + pose proof (submseteq_length _ _
          (remove_first_submseteq t (running s2))) as Hlen.
        destruct o; simpl; lia. }
  rewrite (exec_inv_size s Hinv). split_and!; [done..|].
  unfold tasksToExecute. rewrite (exec_inv_size s Hinv).
  apply js_slice0_length. lia.
Qed.

(** C10.  On a batch with pairwise different ids and a positive ceiling:
    once the [execute] promise of a dispatched task [t] has rejected with
    the message [msg], the synthetic failed result of [t] (success false,
    the id of [t], the role of [t] or "unknown", the error [msg],
    execution time 0, no logs) is among the results and the id of [t] is
    not, and never will be, in the completed set; every task that depends
    on [t] stays in the queue and is never ready, so the loop can only
    end, and can still end, by the rejection of the deadlock branch.  An
    agent that resolves with [success = false] does put the task into the
    completed set, and a pending task that waited for it only is ready
    afterwards. *)
Theorem rejected_blocks_dependents tasks tr s t msg :
  NoDup (task_ids tasks) → 0 < maxConcurrency →
  run agents maxConcurrency (exec_init tasks) tr s →
  EvSettle t (Rejected msg) ∈ tr →
  (mkResult false (id t) (default "unknown" (assignedAgent t)) None
            (Some msg) (Some 0) [] ∈ results s ∧
   (id t ∉ completed s)) ∧
  (∀ B, B ∈ tasks → id t ∈ dependencies B →
     B ∈ queue s ∧ (B ∉ readyTasks s) ∧
     (∀ tr' s' o, run agents maxConcurrency s tr' s' →
        loop_iteration agents maxConcurrency s' = o →
        (∀ s'', o ≠ Continue s'') → o = Reject (JsError deadlock_message)) ∧
     (∃ tr' s', run agents maxConcurrency s tr' s' ∧ failing s' = [] ∧
        loop_iteration agents maxConcurrency s' =
          Reject (JsError deadlock_message))) ∧
  (∀ s0 t0 r B, success r = false → B ∈ queue s0 →
     (∀ d, d ∈ dependencies B → d = id t0 ∨ d ∈ completed s0) →
     id t0 ∈ completed (executeTask_settle s0 t0 (Resolved r)) ∧
     B ∈ readyTasks (executeTask_settle s0 t0 (Resolved r))).
Proof.
  intros Hnd Hpos Hrun Hev.
  assert (∀ tr1 s1, run agents maxConcurrency (exec_init tasks) tr1 s1 →
            EvSettle t (Rejected msg) ∈ tr1 →
            ∀ B, B ∈ tasks → id t ∈ dependencies B →
                 B ∈ queue s1 ∧ (B ∉ readyTasks s1)) as Hstuck.
  { intros tr1 s1 Hrun1 Hev1 B HB Hdep.
    destruct (run_rejected tasks tr1 s1 t msg Hnd Hrun1 Hev1) as (Hc & _ & _).
    destruct (run_dispatched tasks tr1 s1 B Hrun1 HB) as [Hq|Hdone];
      [|by destruct Hc; apply Hdone].
    split; [done|]. intros [_ Hd]%readyTasks_spec. by apply Hc, Hd. }
  assert (∀ tr' s' o, run agents maxConcurrency s tr' s' →
            ∀ B, B ∈ tasks → id t ∈ dependencies B →
            loop_iteration agents maxConcurrency s' = o →
            (∀ s'', o ≠ Continue s'') →
            o = Reject (JsError deadlock_message)) as Hend.
  { intros tr' s' o Hrun' B HB Hdep Hl Hfin.
    destruct o as [s''| rs | e].
    - by destruct (Hfin s'').
    - apply loop_iteration_Return in Hl as [Hq _].
      destruct (Hstuck (tr ++ tr') s') with (B := B) as [Hin _]; try done.
      + by eapply run_trans.
      + apply elem_of_app. by left.
      + rewrite Hq in Hin. by apply elem_of_nil in Hin.
    - by apply loop_iteration_Reject in Hl as ->. }
  split_and!.
  - by destruct (run_rejected tasks tr s t msg Hnd Hrun Hev) as (_ & _ & ?).
  - by destruct (run_rejected tasks tr s t msg Hnd Hrun Hev) as (? & _ & _).
  - intros B HB Hdep.
    destruct (Hstuck tr s Hrun Hev B HB Hdep) as [Hq Hnr].
    split_and!; [done | done | by eauto |].
    assert (exec_inv s) as Hinv
      by (eapply exec_inv_run; [by apply exec_inv_init | exact Hrun]).
    destruct (can_finish _ s Hinv Hpos (le_n _))
      as (tr' & s' & Hrun' & Hnil & Hfin).
    exists tr', s'. split_and!; [done..|].
    eapply Hend; eauto.
  - intros s0 t0 r B _ HB Hdeps. split; [simpl; set_solver|].
    apply readyTasks_spec. split; [done|].
    intros d Hd. simpl. destruct (Hdeps d Hd) as [->|?]; set_solver.
Qed.
End executor.

(** *** Concrete runs *)

Lemma run_snoc_turn agents maxConcurrency s0 tr s s' tr' :
  run agents maxConcurrency s0 tr s →
  failing s = [] →
  loop_iteration agents maxConcurrency s = Continue s' →
  tr' = tr ++ turn_events agents (tasksToExecute maxConcurrency s) →
  run agents maxConcurrency s0 tr' s'.
Proof.
  intros Hrun Hf Hl ->. eapply run_step; [exact Hrun | by constructor].
Defined.

Lemma run_snoc_catch agents maxConcurrency s0 tr s t rest s' :
  run agents maxConcurrency s0 tr s →
  failing s = t :: rest →
  s' = catch_no_agent s t rest →
  run agents maxConcurrency s0 tr s'.
Proof.
  intros Hrun Hf ->. rewrite <- (app_nil_r tr).
  eapply run_step; [exact Hrun | by constructor].
Defined.

Lemma run_snoc_settle agents maxConcurrency s0 tr s t o s' tr' :
  run agents maxConcurrency s0 tr s →
  t ∈ running s →
  s' = executeTask_settle s t o →
  tr' = tr ++ [EvSettle t o] →
  run agents maxConcurrency s0 tr' s'.
Proof. intros Hrun Hin -> ->. eapply run_step; [exact Hrun | by constructor]. Defined.

Lemma blocked_run :
  run ex_agents 4 (exec_init [blocked_A; blocked_B]) blocked_trace blocked_state.
Proof.
  eapply run_snoc_settle with
    (s := mkES [blocked_B] [blocked_A] {["A"]} ∅ [] []) (t := blocked_A)
    (o := Resolved (ok_result "A")).
  - eapply run_snoc_turn;
      [apply run_nil | reflexivity | vm_compute; reflexivity | reflexivity].
  - apply list_elem_of_here.
  - vm_compute; reflexivity.
  - reflexivity.
Defined.

Lemma ghost_run :
  run ex_agents 1 (exec_init [ghost_A; ghost_B]) ghost_trace
      (mkES [] [] ∅ {["B"]} ghost_results []).
Proof.
  eapply run_snoc_settle with
    (s := mkES [] [ghost_B] {["B"]} ∅
               [failure_result ghost_A "Agent not found: ghost"] [])
    (t := ghost_B) (o := Resolved (ok_result "B")).
  - eapply run_snoc_turn with
      (s := mkES [ghost_B] [] ∅ ∅
                 [failure_result ghost_A "Agent not found: ghost"] []).
    + eapply run_snoc_catch with
        (s := mkES [ghost_B] [] ∅ ∅ [] [ghost_A]) (t := ghost_A) (rest := []).
      * eapply run_snoc_turn;
          [apply run_nil | reflexivity | vm_compute; reflexivity | reflexivity].
      * reflexivity.
      * reflexivity.
    + reflexivity.
    + vm_compute; reflexivity.
    + reflexivity.
  - apply list_elem_of_here.
  - vm_compute; reflexivity.
  - reflexivity.
Defined.

Lemma trio_run : run ex_agents 2 (exec_init trio) trio_trace trio_state.
Proof.
  eapply run_snoc_turn;
      [apply run_nil | reflexivity | vm_compute; reflexivity | reflexivity].
Defined.

Lemma chain_run :
  run ex_agents 4 (exec_init [chain_A; chain_B]) chain_trace chain_state.
Proof.
  eapply run_snoc_turn with (s := mkES [chain_B] [] ∅ {["A"]} [ok_result "A"] []).
  - eapply run_snoc_settle with
      (s := mkES [chain_B] [chain_A] {["A"]} ∅ [] []) (t := chain_A)
      (o := Resolved (ok_result "A")).
    + eapply run_snoc_turn;
      [apply run_nil | reflexivity | vm_compute; reflexivity | reflexivity].
    + apply list_elem_of_here.
    + vm_compute; reflexivity.
    + reflexivity.
  - reflexivity.
  - vm_compute; reflexivity.
  - reflexivity.
Defined.

Lemma chain_failed_run :
  run ex_agents 4 (exec_init [chain_A; chain_B]) chain_failed_trace
      chain_failed_state.
Proof.
  eapply run_snoc_settle with
    (s := mkES [chain_B] [chain_A] {["A"]} ∅ [] []) (t := chain_A)
    (o := Rejected "boom").
  - eapply run_snoc_turn;
      [apply run_nil | reflexivity | vm_compute; reflexivity | reflexivity].
  - apply list_elem_of_here.
  - vm_compute; reflexivity.
  - reflexivity.
Defined.

(** The order of the results is the order in which the handlers run: B is
    dispatched before A in the same turn and resolves before the [.catch]
    handler of A has run, so its result precedes the failure of A. *)
Example result_before_failure :
  executeParallel [ghost_B; ghost_A] ex_agents 2
    [EvStart ghost_B; EvStart ghost_A; EvNoAgent ghost_A;
     EvSettle ghost_B (Resolved (ok_result "B"))]
    (Return [ok_result "B"; failure_result ghost_A "Agent not found: ghost"]).
Proof.
  exists (mkES [] [] ∅ {["B"]}
               [ok_result "B"; failure_result ghost_A "Agent not found: ghost"] []).
  split_and!; [|reflexivity|reflexivity|done].
  eapply run_snoc_catch with
    (s := mkES [] [] ∅ {["B"]} [ok_result "B"] [ghost_A])
    (t := ghost_A) (rest := []); [|reflexivity|reflexivity].
  eapply run_snoc_settle with
    (s := mkES [] [ghost_B] {["B"]} ∅ [] [ghost_A]) (t := ghost_B)
    (o := Resolved (ok_result "B")).
  - eapply run_snoc_turn;
      [apply run_nil | reflexivity | vm_compute; reflexivity | reflexivity].
  - apply list_elem_of_here.
  - vm_compute; reflexivity.
  - reflexivity.
Qed.

(** *** The executor claims on the concrete runs *)

(** Witness for C4 as amended: A done, B blocked. *)
Lemma deadlock_rejects_witness :
  (queue blocked_state ≠ [] ∧ readyTasks blocked_state = [] ∧
   inProgress blocked_state = ∅) ∧
  executeParallel [blocked_A; blocked_B] ex_agents 4 blocked_trace
    (Reject (JsError deadlock_message)) ∧
  caller_results (loop_iteration ex_agents 4 blocked_state) = None.
Proof.
  split; [split_and!; [done | reflexivity | reflexivity]|].
  apply (deadlock_rejects_without_results ex_agents 4
           [blocked_A; blocked_B] blocked_trace blocked_state blocked_run);
    [done | reflexivity | reflexivity].
Defined.

(** C4 (counterexample).  After A has finished, the run is in the deadlock
    state with the result of A collected; [executeParallel] rejects, and
    what reaches the caller is not the partial result list. *)
Lemma deadlock_discards_partial_results :
  run ex_agents 4 (exec_init [blocked_A; blocked_B]) blocked_trace blocked_state ∧
  queue blocked_state ≠ [] ∧
  readyTasks blocked_state = [] ∧
  inProgress blocked_state = ∅ ∧
  results blocked_state = [ok_result "A"] ∧
  loop_iteration ex_agents 4 blocked_state = Reject (JsError deadlock_message) ∧
  caller_results (loop_iteration ex_agents 4 blocked_state) ≠
    Some (results blocked_state).
Proof.
  split_and!; [apply blocked_run | done | reflexivity | reflexivity
              | reflexivity | reflexivity | by vm_compute].
Qed.

(** Witness for C5 as amended: the first turn on the batch whose task A
    asks for the unregistered role ghost. *)
Lemma missing_agent_witness :
  ghost_A ∈ tasksToExecute 1 (exec_init [ghost_A; ghost_B]) ∧
  ex_agents !! agent_key ghost_A = None ∧
  ∃ s', loop_iteration ex_agents 1 (exec_init [ghost_A; ghost_B]) = Continue s' ∧
        completed s' = completed (exec_init [ghost_A; ghost_B]) ∧
        results s' = results (exec_init [ghost_A; ghost_B]) ∧
        (ghost_A ∈ running s' → ghost_A ∈ running (exec_init [ghost_A; ghost_B])) ∧
        (∀ u, u ∈ tasksToExecute 1 (exec_init [ghost_A; ghost_B]) →
              is_Some (ex_agents !! agent_key u) → u ∈ running s') ∧
        (∃ s1, run ex_agents 1 s' [] s1 ∧ failing s1 = []) ∧
        ∀ tr s'', run ex_agents 1 s' tr s'' → failing s'' = [] →
          results (exec_init [ghost_A; ghost_B]) `prefix_of` results s'' ∧
          mkResult false (id ghost_A) (default "unknown" (assignedAgent ghost_A))
                   None
                   (Some (String.append "Agent not found: " (agent_key ghost_A)))
                   (Some 0) [] ∈ results s'' ∧
          ∀ u, u ∈ tasksToExecute 1 s'' →
               ∃ s3, loop_iteration ex_agents 1 s'' = Continue s3 ∧
                     (u ∈ running s3 ∨ u ∈ failing s3).
Proof.
  assert (ghost_A ∈ tasksToExecute 1 (exec_init [ghost_A; ghost_B])) as Hin
    by apply list_elem_of_here.
  split; [exact Hin|]. split; [reflexivity|].
  apply (missing_agent_is_recorded ex_agents 1 (exec_init [ghost_A; ghost_B])
           ghost_A eq_refl Hin).
  reflexivity.
Defined.

(** C5 (counterexample).  With the ceiling 1, A meets the missing role
    first; B is started after that fault, and [executeParallel] resolves
    with both results instead of failing. *)
Lemma missing_agent_does_not_abort :
  ex_agents !! agent_key ghost_A = None ∧
  ghost_trace = [EvStart ghost_A; EvNoAgent ghost_A; EvStart ghost_B;
                 EvSettle ghost_B (Resolved (ok_result "B"))] ∧
  executeParallel [ghost_A; ghost_B] ex_agents 1 ghost_trace
    (Return [failure_result ghost_A "Agent not found: ghost"; ok_result "B"]).
Proof.
  split_and!; [reflexivity | reflexivity |].
  eexists. split_and!; [apply ghost_run | reflexivity | reflexivity | done].
Qed.

(** Witness for C6: B, which depends on A, is started once the result of
    A is recorded. *)
Lemma dependencies_before_dispatch_witness :
  (∀ B, B ∈ readyTasks chain_state ↔
        B ∈ queue chain_state ∧
        ∀ d, d ∈ dependencies B → d ∈ completed chain_state) ∧
  (∀ B, B ∈ tasksToExecute 4 chain_state → B ∈ readyTasks chain_state) ∧
  (∀ t r, id t ∈ completed (executeTask_settle chain_state t (Resolved r))) ∧
  dispatch_ordered chain_trace.
Proof.
  exact (dependencies_before_dispatch ex_agents 4 [chain_A; chain_B]
           chain_trace chain_state chain_run).
Defined.

Lemma trio_nodup : NoDup (task_ids trio).
Proof. apply (bool_decide_unpack (NoDup (task_ids trio))). by vm_compute. Defined.

Lemma chain_nodup : NoDup (task_ids [chain_A; chain_B]).
Proof.
  apply (bool_decide_unpack (NoDup (task_ids [chain_A; chain_B]))).
  by vm_compute.
Defined.

(** Witness for C7: three independent tasks, ceiling 2, after the first
    round. *)
Lemma inflight_bounded_witness :
  Z.of_nat (length (running trio_state)) ≤ 2 ∧
  Z.of_nat (size (inProgress trio_state)) ≤ 2 ∧
  Z.of_nat (length (tasksToExecute 2 trio_state)) ≤
    2 - Z.of_nat (size (inProgress trio_state)).
Proof.
  apply (inflight_bounded ex_agents 2 trio trio_trace trio_state trio_nodup);
    [lia | apply trio_run].
Defined.

(** Witness for C10: the agent of A throws, B depends on A. *)
Lemma rejected_blocks_dependents_witness :
  EvSettle chain_A (Rejected "boom") ∈ chain_failed_trace ∧
  mkResult false "A" "unknown" None (Some "boom") (Some 0) []
    ∈ results chain_failed_state ∧
  (id chain_A ∉ completed chain_failed_state) ∧
  chain_B ∈ queue chain_failed_state ∧
  (chain_B ∉ readyTasks chain_failed_state).
Proof.
  assert (EvSettle chain_A (Rejected "boom") ∈ chain_failed_trace) as Hev
    by (apply list_elem_of_further, list_elem_of_here).
  assert (0 < 4) as Hpos by lia.
  destruct (rejected_blocks_dependents ex_agents 4 [chain_A; chain_B]
              chain_failed_trace chain_failed_state chain_A "boom"
              chain_nodup Hpos chain_failed_run Hev) as ([Hr Hc] & Hdep & _).
  destruct (Hdep chain_B) as (Hq & Hnr & _).
  - apply list_elem_of_further, list_elem_of_here.
  - apply list_elem_of_here.
  - by split_and!.
Defined.

(** ** The graph builder *)

Lemma visit_unfold (fuel : nat) (nodeId : string) (st : BuildState) :
  visit (S fuel) nodeId st =
  if decide (nodeId ∈ bs_visited st) then
    match js_get (bs_nodes st) nodeId with
    | Some node => Ok (level node, st)
    | None => Throw JsTypeError
    end
  else if decide (nodeId ∈ bs_inProgress st) then
    Throw (JsError (cycle_message nodeId))
  else
    match js_get (bs_nodes st) nodeId with
    | None => Throw JsTypeError
    | Some node =>
      match visit_deps (visit fuel) (node_dependencies node) (-1)
              (mkBS (bs_nodes st) (bs_levels st) (bs_visited st)
                    ({[nodeId]} ∪ bs_inProgress st)) with
      | Ok (maxDepLevel, st2) =>
        Ok (maxDepLevel + 1,
            mkBS (js_mutate nodeId (set_level (maxDepLevel + 1)) (bs_nodes st2))
                 (levels_push (maxDepLevel + 1) nodeId (bs_levels st2))
                 ({[nodeId]} ∪ bs_visited st2)
                 (bs_inProgress st2 ∖ {[nodeId]}))
      | Throw e => Throw e
      | OutOfFuel => OutOfFuel
      end
    end.
Proof. reflexivity. Qed.

(** *** The buckets of [levels] *)

Lemma in_level_push (l : Z) (n : string) (lv : list (option (list string)))
  (i : nat) (k : string) :
  in_level (levels_push l n lv) i k ↔
  in_level lv i k ∨ (i = Z.to_nat l ∧ k = n).
Proof.
  unfold levels_push, in_level.
  destruct (lv !! Z.to_nat l) as [[bucket|]|] eqn:Hl.
  - assert (Z.to_nat l < length lv)%nat as Hlt by (by eapply lookup_lt_Some).
    destruct (decide (i = Z.to_nat l)) as [->|Hne].
    + rewrite list_lookup_insert_eq by done. split.
      * intros (b & [= <-] & [Hin|Hin%list_elem_of_singleton]%elem_of_app);
          [left; eauto | right; done].
      * intros [(b & Hb & Hin) | [_ ->]].
        -- rewrite Hl in Hb. injection Hb as <-.
           eexists. split; [done|]. apply elem_of_app. by left.
        -- eexists. split; [done|]. apply elem_of_app. right.
           by apply list_elem_of_singleton.
    + rewrite list_lookup_insert_ne by done. split; [by left|].
      by intros [? | [? _]].
  - assert (Z.to_nat l < length lv)%nat as Hlt by (by eapply lookup_lt_Some).
    destruct (decide (i = Z.to_nat l)) as [->|Hne].
    + rewrite list_lookup_insert_eq by done. split.
      * intros (b & [= <-] & Hin%list_elem_of_singleton). by right.
      * intros [(b & Hb & Hin) | [_ ->]]; [by rewrite Hl in Hb|].
        eexists. split; [done|]. by apply list_elem_of_singleton.
    + rewrite list_lookup_insert_ne by done. split; [by left|].
      by intros [? | [? _]].
  - apply lookup_ge_None in Hl.
    destruct (decide (i < length lv)%nat) as [Hlt|Hge].
    + rewrite lookup_app_l by done. split; [by left|].
      intros [? | [-> _]]; [done | lia].
    + rewrite lookup_app_r by lia.
      assert (lv !! i = None) as Hnone by (apply lookup_ge_None; lia).
      destruct (decide (i = Z.to_nat l)) as [->|Hne].
      * rewrite lookup_app_r by (rewrite length_replicate; lia).
        rewrite length_replicate, Nat.sub_diag. simpl. split.
        -- intros (b & [= <-] & Hin%list_elem_of_singleton). by right.
        -- intros [(b & Hb & _) | [_ ->]]; [by rewrite Hnone in Hb|].
           eexists. split; [done|]. by apply list_elem_of_singleton.
      * split; [|intros [(b & Hb & _) | [? _]]; [by rewrite Hnone in Hb | done]].
        intros (b & Hb & _). exfalso.
        destruct (decide (i - length lv < Z.to_nat l - length lv)%nat).
        -- rewrite lookup_app_l in Hb by (by rewrite length_replicate).
           apply lookup_replicate in Hb as [? _]. done.
        -- rewrite lookup_app_r in Hb by (rewrite length_replicate; lia).
           rewrite length_replicate in Hb.
           destruct (i - length lv - (Z.to_nat l - length lv))%nat eqn:Hd;
             [lia | done].
Qed.

(** *** Partial correctness of [visit] *)

Lemma js_get_mutate {V} (k k' : string) (f : V → V) (m : JsMap V) :
  js_get (js_mutate k f m) k' =
  if decide (k = k') then f <$> js_get m k' else js_get m k'.
Proof.
  unfold js_get, js_mutate. simpl. rewrite lookup_alter.
  by case_decide; subst.
Qed.

Lemma level_of_mutate_ne (k k' : string) (l : Z) (m : JsMap DAGNode) :
  k ≠ k' → level_of (js_mutate k (set_level l) m) k' = level_of m k'.
Proof.
  intros Hne. unfold level_of. rewrite js_get_mutate. by rewrite decide_False.
Qed.

Lemma level_rule_ext (m m' : JsMap DAGNode) (node : DAGNode) :
  (∀ d, d ∈ node_dependencies node → level_of m' d = level_of m d) →
  level_rule m node → level_rule m' node.
Proof.
  intros Hext (H0 & Hall & Hmax). split_and!; [done| |].
  - intros d Hd. rewrite (Hext d Hd). by apply Hall.
  - intros Hne. destruct (Hmax Hne) as (d & Hd & Hl).
    exists d. by rewrite (Hext d Hd).
Qed.

Lemma visit_frame_refl (st : BuildState) : visit_frame st st.
Proof. split; [done | done | done | by left]. Qed.

Lemma visit_frame_trans (s1 s2 s3 : BuildState) :
  visit_frame s1 s2 → visit_frame s2 s3 → visit_frame s1 s3.
Proof.
  intros [Hip1 Hv1 Hn1 Hf1] [Hip2 Hv2 Hn2 Hf2]. split.
  - by rewrite Hip2.
  - by etrans.
  - intros k Hk. rewrite Hn2 by (by apply Hv1). by apply Hn1.
  - intros k Hk. destruct (Hf2 k Hk) as [Hk2|Hk2].
    + by apply Hf1.
    + right. by rewrite <- Hip1.
Qed.

Section traversal.
Variable m0 : JsMap DAGNode.

Implicit Types (st s : BuildState) (n k d : string).

Lemma build_inv_core st k node :
  build_inv m0 st → js_get (bs_nodes st) k = Some node →
  ∃ node0, js_get m0 k = Some node0 ∧
           node_dependencies node0 = node_dependencies node ∧
           task node0 = task node ∧ dependents node0 = dependents node.
Proof.
  intros Hinv Hget. pose proof (bi_core m0 st Hinv k) as Hc.
  rewrite Hget in Hc. simpl in Hc.
  destruct (js_get m0 k) as [node0|]; simpl in Hc; [|done].
  exists node0. split; [done|].
  assert (set_level 0 node = set_level 0 node0) as Heq by congruence.
  split_and!;
    [apply (f_equal node_dependencies) in Heq
    |apply (f_equal task) in Heq
    |apply (f_equal dependents) in Heq]; done.
Qed.

Lemma build_inv_core_rev st k node0 :
  build_inv m0 st → js_get m0 k = Some node0 →
  ∃ node, js_get (bs_nodes st) k = Some node ∧
          node_dependencies node = node_dependencies node0.
Proof.
  intros Hinv Hget. pose proof (bi_core m0 st Hinv k) as Hc.
  rewrite Hget in Hc. simpl in Hc.
  destruct (js_get (bs_nodes st) k) as [node|]; simpl in Hc; [|done].
  exists node. split; [done|].
  assert (set_level 0 node = set_level 0 node0) as Heq by congruence.
  by apply (f_equal node_dependencies) in Heq.
Qed.

Lemma build_inv_stack st ip :
  build_inv m0 st →
  build_inv m0 (mkBS (bs_nodes st) (bs_levels st) (bs_visited st) ip).
Proof. intros [? ? ? ?]. by split. Qed.

Lemma visit_deps_spec rec :
  visit_ensures m0 rec →
  ∀ deps acc s acc' s',
    visit_deps rec deps acc s = Ok (acc', s') → build_inv m0 s →
    build_inv m0 s' ∧ visit_frame s s' ∧
    (∀ d, d ∈ deps → d ∈ bs_visited s') ∧
    acc ≤ acc' ∧
    (∀ d, d ∈ deps → ∃ l, level_of (bs_nodes s') d = Some l ∧ l ≤ acc') ∧
    (acc' = acc ∨ ∃ d, d ∈ deps ∧ level_of (bs_nodes s') d = Some acc').
Proof.
  intros Hrec. induction deps as [|d ds IH]; intros acc s acc' s' Hv Hinv.
  - simpl in Hv. injection Hv as <- <-.
    split_and!; [done | apply visit_frame_refl | | lia | | by left];
      by intros d ?%elem_of_nil.
  - simpl in Hv.
    destruct (rec d s) as [[l s1]| |] eqn:Hd; [|done..].
    destruct (Hrec d s l s1 Hd Hinv) as (Hinv1 & Hf1 & Hvis1 & Hl1).
    destruct (IH _ _ _ _ Hv Hinv1) as (Hinv' & Hf' & Hvis' & Hle & Hall & Hmax).
    assert (level_of (bs_nodes s') d = Some l) as Hl'.
    { unfold level_of in *. by rewrite (vf_nodes _ _ Hf' d Hvis1). }
    split_and!.
    + done.
    + by eapply visit_frame_trans.
    + intros x [->|Hx]%elem_of_cons; [|by apply Hvis'].
      by apply (vf_visited _ _ Hf').
    + lia.
    + intros x [->|Hx]%elem_of_cons; [|by apply Hall].
      exists l. split; [done | lia].
    + destruct Hmax as [Hmax | (x & Hx & Hlx)].
      * destruct (Z.max_spec acc l) as [[_ Hm]|[_ Hm]].
        -- right. exists d. split; [apply elem_of_cons; by left|].
           by rewrite Hmax, Hm.
        -- left. lia.
      * right. exists x. split; [apply elem_of_cons; by right | done].
Qed.

Lemma visit_spec fuel : visit_ensures m0 (visit fuel).
Proof.
  induction fuel as [|fuel IH]; intros n st l st' Hv Hinv; [done|].
  rewrite visit_unfold in Hv.
  destruct (decide (n ∈ bs_visited st)) as [Hvis|Hnvis].
  { destruct (js_get (bs_nodes st) n) as [node|] eqn:Hget; [|done].
    injection Hv as <- <-.
    split_and!; [done | apply visit_frame_refl | done |].
    unfold level_of. by rewrite Hget. }
  destruct (decide (n ∈ bs_inProgress st)) as [|Hnip]; [done|].
  destruct (js_get (bs_nodes st) n) as [node|] eqn:Hget; [|done].
  destruct (visit_deps _ _ _ _) as [[acc' st2]| |] eqn:Hdeps; [|done..].
  injection Hv as <- <-.
  destruct (visit_deps_spec _ IH _ _ _ _ _ Hdeps
              (build_inv_stack st _ Hinv))
    as (Hinv2 & Hf2 & Hvis2 & Hle & Hall & Hmax).
  destruct Hf2 as [Hip2 Hv2 Hn2 Hfr2]. simpl in Hip2, Hv2, Hn2, Hfr2.
  assert (n ∉ bs_visited st2) as Hn_new.
  { intros Hin. destruct (Hfr2 n Hin) as [?|Hout]; [done|].
    apply Hout. set_solver. }
  (* the node of [n] in [st2] *)
  destruct (build_inv_core st n node Hinv Hget) as (node0 & Hget0 & Hdeps0 & _).
  destruct (build_inv_core_rev st2 n node0 Hinv2 Hget0) as (node2 & Hget2 & Hdeps2).
  assert (node_dependencies node2 = node_dependencies node) as Hd2
    by congruence.
  set (l := acc' + 1).
  set (nodes3 := js_mutate n (set_level l) (bs_nodes st2)).
  assert (js_get nodes3 n = Some (set_level l node2)) as Hget3.
  { unfold nodes3. rewrite js_get_mutate, decide_True by done.
    by rewrite Hget2. }
  assert (∀ k, k ≠ n → js_get nodes3 k = js_get (bs_nodes st2) k) as Hget3'.
  { intros k Hk. unfold nodes3. rewrite js_get_mutate.
    by rewrite decide_False. }
  assert (∀ k, k ∈ bs_visited st2 → level_of nodes3 k = level_of (bs_nodes st2) k)
    as Hlev3.
  { intros k Hk. unfold level_of. rewrite Hget3'; [done|]. by intros ->. }
  assert (0 ≤ l) as Hl0 by (unfold l; lia).
  split_and!.
  - (* the invariant *)
    split; simpl.
    + by rewrite <- (bi_order m0 st2 Hinv2).
    + intros k. rewrite <- (bi_core m0 st2 Hinv2 k). fold nodes3.
      destruct (decide (k = n)) as [->|Hk].
      * by rewrite Hget3, Hget2.
      * by rewrite Hget3'.
    + fold nodes3. intros k [->%elem_of_singleton | Hk]%elem_of_union.
      * exists (set_level l node2). split; [done|]. simpl.
        split; [done|]. rewrite Hd2. split.
        { intros d Hd. apply elem_of_union. right. by apply Hvis2. }
        split_and!; simpl.
        -- intros Hnil. rewrite Hd2 in Hnil.
           destruct Hmax as [Hm | (d & Hd & _)]; [unfold l; lia|].
           rewrite Hnil in Hd. by apply elem_of_nil in Hd.
        -- rewrite Hd2. intros d Hd. destruct (Hall d Hd) as (ld & Hld & Hle').
           exists ld. split; [|unfold l; lia].
           rewrite Hlev3; [done | by apply Hvis2].
        -- rewrite Hd2. intros Hne.
           destruct Hmax as [Hm | (d & Hd & Hld)].
           ++ destruct (node_dependencies node) as [|d ds] eqn:Hds; [done|].
              assert (d ∈ d :: ds) as Hd by (apply elem_of_cons; by left).
              destruct (Hall d Hd) as (ld & Hld & Hle').
              destruct (bi_visited m0 st2 Hinv2 d (Hvis2 d Hd))
                as (nd & Hgd & Hnd0 & _).
              unfold level_of in Hld. rewrite Hgd in Hld.
              injection Hld as <-. lia.
           ++ exists d. split; [done|]. rewrite Hlev3 by (by apply Hvis2).
              rewrite Hld. f_equal. unfold l. lia.
      * assert (k ≠ n) as Hkn by (by intros ->).
        destruct (bi_visited m0 st2 Hinv2 k Hk) as (nk & Hgk & Hk0 & Hkd & Hkr).
        exists nk. rewrite Hget3' by done.
        split_and!; [done | done | |].
        -- intros d Hd. apply elem_of_union. right. by apply Hkd.
        -- eapply level_rule_ext; [|exact Hkr].
           intros d Hd. apply Hlev3. by apply Hkd.
    + fold nodes3. intros i k. rewrite in_level_push.
      rewrite (bi_levels m0 st2 Hinv2 i k). split.
      * intros [[Hk Hlk] | [-> ->]].
        -- split; [apply elem_of_union; by right|]. by rewrite Hlev3.
        -- split; [apply elem_of_union; left; by apply elem_of_singleton|].
           unfold level_of. rewrite Hget3. simpl. f_equal. lia.
      * intros [[->%elem_of_singleton | Hk]%elem_of_union Hlk].
        -- right. split; [|done]. unfold level_of in Hlk.
           rewrite Hget3 in Hlk. simpl in Hlk. injection Hlk as Hlk. lia.
        -- left. split; [done|]. by rewrite <- Hlev3.
  - (* the frame *)
    split; simpl.
    + rewrite Hip2. set_solver.
    + set_solver.
    + intros k Hk. fold nodes3. rewrite Hget3' by (by intros ->).
      by apply Hn2.
    + intros k [->%elem_of_singleton | Hk]%elem_of_union; [by right|].
      destruct (Hfr2 k Hk) as [?|Hout]; [by left|]. right. set_solver.
  - simpl. set_solver.
  - simpl. fold nodes3. unfold level_of. by rewrite Hget3.
Qed.

(** *** Termination and the meaning of the throws *)

Lemma throw_reason_edge n d e :
  node_edge m0 n d → throw_reason m0 d e → throw_reason m0 n e.
Proof.
  intros Hnd. destruct e as [msg|]; simpl; [done|].
  intros (x & Hx & Hr). exists x. split; [done|]. by eapply rtc_l.
Qed.

Lemma visit_deps_result fuel n ip :
  (∀ d st, build_inv m0 st → bs_inProgress st = ip → node_edge m0 n d →
           sound_outcome m0 d (visit fuel d st)) →
  ∀ deps acc s,
    (∀ d, d ∈ deps → node_edge m0 n d) →
    build_inv m0 s → bs_inProgress s = ip →
    sound_outcome m0 n (visit_deps (visit fuel) deps acc s).
Proof.
  intros Hrec. induction deps as [|d ds IH]; intros acc s Hedges Hinv Hip;
    simpl; [done|].
  assert (node_edge m0 n d) as Hnd by (apply Hedges, elem_of_cons; by left).
  pose proof (Hrec d s Hinv Hip Hnd) as Hres.
  destruct (visit fuel d s) as [[l s1]|e|] eqn:Hv; simpl in Hres.
  - destruct (visit_spec fuel d s l s1 Hv Hinv) as (Hinv1 & Hf1 & _).
    apply IH; [|done|].
    + intros x Hx. apply Hedges, elem_of_cons. by right.
    + by rewrite (vf_inProgress _ _ Hf1).
  - by eapply throw_reason_edge.
  - done.
Qed.

Lemma visit_result fuel : ∀ n st,
  build_inv m0 st →
  bs_inProgress st ⊆ js_dom m0 →
  (∀ p, p ∈ bs_inProgress st → tc (node_edge m0) p n) →
  (size (js_dom m0 ∖ bs_inProgress st) < fuel)%nat →
  sound_outcome m0 n (visit fuel n st).
Proof.
  induction fuel as [|fuel IH]; intros n st Hinv Hsub Hpath Hsize; [lia|].
  rewrite visit_unfold.
  destruct (decide (n ∈ bs_visited st)) as [Hvis|Hnvis].
  { destruct (bi_visited m0 st Hinv n Hvis) as (node & -> & _). done. }
  destruct (decide (n ∈ bs_inProgress st)) as [Hip|Hnip].
  { simpl. exists n. split; [done | by apply Hpath]. }
  destruct (js_get (bs_nodes st) n) as [node|] eqn:Hget.
  - destruct (build_inv_core st n node Hinv Hget) as (node0 & Hget0 & Hd0 & _).
    assert (n ∈ js_dom m0) as Hdom by (apply elem_of_dom; by eexists).
    pose proof (visit_deps_result fuel n ({[n]} ∪ bs_inProgress st)) as Hloop.
    match goal with
    | |- context [visit_deps ?r ?ds ?a ?s] =>
        specialize (Hloop
          (λ d st' Hinv' Hip' Hnd, IH d st' Hinv'
             ltac:(rewrite Hip'; set_solver)
             ltac:(rewrite Hip'; intros p [->%elem_of_singleton|Hp]%elem_of_union;
                   [by apply tc_once | eapply tc_r; [by apply Hpath | done]])
             ltac:(rewrite Hip';
                   assert (js_dom m0 ∖ ({[n]} ∪ bs_inProgress st) ⊂
                           js_dom m0 ∖ bs_inProgress st) as Hss by set_solver;
                   apply subset_size in Hss; lia))
          ds a s)
    end.
    simpl in Hloop.
    destruct (visit_deps _ _ _ _) as [[acc' st2]|e|]; simpl.
    + done.
    + apply Hloop; [|by apply build_inv_stack|done].
      intros d Hd. exists node0. split; [done | by rewrite Hd0].
    + apply Hloop; [|by apply build_inv_stack|done].
      intros d Hd. exists node0. split; [done | by rewrite Hd0].
  - simpl. exists n. split; [|done].
    pose proof (bi_core m0 st Hinv n) as Hc. rewrite Hget in Hc.
    by destruct (js_get m0 n).
Qed.

Lemma visit_all_spec fuel : ∀ keys s s',
  visit_all fuel keys s = Ok s' → build_inv m0 s →
  build_inv m0 s' ∧ visit_frame s s' ∧ ∀ k, k ∈ keys → k ∈ bs_visited s'.
Proof.
  induction keys as [|k keys IH]; intros s s' Hv Hinv; simpl in Hv.
  - injection Hv as <-.
    split_and!; [done | apply visit_frame_refl | by intros ? ?%elem_of_nil].
  - destruct (visit fuel k s) as [[l s1]| |] eqn:Hk; [|done..].
    destruct (visit_spec fuel k s l s1 Hk Hinv) as (Hinv1 & Hf1 & Hvis1 & _).
    destruct (IH s1 s' Hv Hinv1) as (Hinv' & Hf' & Hvis').
    split_and!; [done | by eapply visit_frame_trans |].
    intros x [->|Hx]%elem_of_cons; [|by apply Hvis'].
    by apply (vf_visited _ _ Hf').
Qed.

Lemma visit_all_result fuel : ∀ keys s,
  build_inv m0 s → bs_inProgress s = ∅ →
  (size (js_dom m0) < fuel)%nat →
  match visit_all fuel keys s with
  | Ok _ => True
  | Throw e => ∃ n, n ∈ keys ∧ throw_reason m0 n e
  | OutOfFuel => False
  end.
Proof.
  induction keys as [|k keys IH]; intros s Hinv Hip Hsize; simpl; [done|].
  assert (sound_outcome m0 k (visit fuel k s)) as Hres.
  { apply visit_result; [done | rewrite Hip; set_solver
                        | rewrite Hip; set_solver |].
    rewrite Hip. by replace (js_dom m0 ∖ ∅) with (js_dom m0) by set_solver. }
  destruct (visit fuel k s) as [[l s1]|e|] eqn:Hk; simpl in Hres.
  - destruct (visit_spec fuel k s l s1 Hk Hinv) as (Hinv1 & Hf1 & _).
    specialize (IH s1 Hinv1).
    rewrite (vf_inProgress _ _ Hf1) in IH. specialize (IH Hip Hsize).
    destruct (visit_all fuel keys s1) as [?|e|]; [done| |done].
    destruct IH as (n & Hn & Hr). exists n.
    split; [apply elem_of_cons; by right | done].
  - exists k. split; [apply elem_of_cons; by left | done].
  - done.
Qed.
End traversal.

(** *** The node map of a batch *)

Lemma create_nodes_snoc (tasks : list Task) (t : Task) :
  create_nodes (tasks ++ [t]) =
  js_set (id t) (mkNode t (dependencies t) [] 0) (create_nodes tasks).
Proof. unfold create_nodes. by rewrite foldl_snoc. Qed.

Lemma js_get_set {V} (k k' : string) (v : V) (m : JsMap V) :
  js_get (js_set k v m) k' = if decide (k = k') then Some v else js_get m k'.
Proof. unfold js_get, js_set. simpl. by rewrite lookup_insert. Qed.

Lemma create_nodes_get (tasks : list Task) (k : string) (node : DAGNode) :
  js_get (create_nodes tasks) k = Some node →
  task node ∈ tasks ∧ id (task node) = k ∧
  node_dependencies node = dependencies (task node).
Proof.
  revert node. induction tasks as [|t tasks IH] using rev_ind; intros node.
  - unfold create_nodes, js_get. simpl. by rewrite lookup_empty.
  - rewrite create_nodes_snoc, js_get_set. case_decide as Hk.
    + intros [= <-]. simpl. split_and!; [|done..].
      apply elem_of_app. right. by apply list_elem_of_singleton.
    + intros (? & ? & ?)%IH. split_and!; [|done..].
      apply elem_of_app. by left.
Qed.

Lemma create_nodes_dom (tasks : list Task) (k : string) :
  k ∈ js_dom (create_nodes tasks) ↔ k ∈ task_ids tasks.
Proof.
  unfold js_dom, task_ids.
  induction tasks as [|t tasks IH] using rev_ind.
  - unfold create_nodes. simpl. set_solver.
  - rewrite create_nodes_snoc. unfold js_set. simpl.
    rewrite dom_insert, map_app, elem_of_union, elem_of_app, IH. simpl.
    rewrite elem_of_singleton, list_elem_of_singleton. tauto.
Qed.

Lemma create_nodes_wf (tasks : list Task) : js_wf (create_nodes tasks).
Proof.
  unfold js_wf, js_dom. induction tasks as [|t tasks IH] using rev_ind; intros k.
  - unfold create_nodes. simpl. set_solver.
  - rewrite create_nodes_snoc. unfold js_set. simpl. rewrite dom_insert.
    case_decide as Hin.
    + rewrite IH. apply elem_of_dom in Hin. set_solver.
    + rewrite elem_of_app, list_elem_of_singleton, IH. set_solver.
Qed.

Lemma create_nodes_nodup (tasks : list Task) (t : Task) :
  NoDup (task_ids tasks) → t ∈ tasks →
  js_get (create_nodes tasks) (id t) = Some (mkNode t (dependencies t) [] 0).
Proof.
  unfold task_ids. induction tasks as [|x tasks IH] using rev_ind;
    intros Hnd Hin; [by apply elem_of_nil in Hin|].
  rewrite map_app in Hnd. apply NoDup_app in Hnd as (Hnd & Hfresh & _).
  rewrite create_nodes_snoc, js_get_set.
  apply elem_of_app in Hin as [Hin | ->%list_elem_of_singleton].
  - rewrite decide_False; [by apply IH|].
    intros Heq. apply (Hfresh (id t)).
    + apply list_elem_of_In, in_map, list_elem_of_In, Hin.
    + rewrite <- Heq. simpl. apply list_elem_of_here.
  - by rewrite decide_True.
Qed.

(** *** The reverse-edge pass *)

Lemma same_graph_refl (m : JsMap DAGNode) : same_graph m m.
Proof. by split. Qed.

Lemma same_graph_trans (m1 m2 m3 : JsMap DAGNode) :
  same_graph m1 m2 → same_graph m2 m3 → same_graph m1 m3.
Proof.
  intros [Ho1 Hc1] [Ho2 Hc2]. split; [congruence|].
  intros k. by rewrite Hc2.
Qed.

Lemma add_dependent_graph (nodeId depId : string) (m : JsMap DAGNode) :
  same_graph m (add_dependent nodeId m depId).
Proof.
  unfold add_dependent. destruct (js_get m depId) as [dep|] eqn:Hdep;
    [|apply same_graph_refl].
  split; [done|]. intros k. rewrite js_get_mutate. case_decide as Hk; [|done].
  subst k. by rewrite Hdep.
Qed.

Lemma add_dependent_missing (nodeId depId : string) (m : JsMap DAGNode) :
  js_get m depId = None → add_dependent nodeId m depId = m.
Proof. unfold add_dependent. by intros ->. Qed.

Lemma link_node_graph (m : JsMap DAGNode) (nodeId : string) :
  same_graph m (link_node m nodeId).
Proof.
  unfold link_node. destruct (js_get m nodeId) as [node|];
    [|apply same_graph_refl].
  generalize (node_dependencies node). intros deps. revert m.
  induction deps as [|d deps IH]; intros m; simpl; [apply same_graph_refl|].
  eapply same_graph_trans; [apply add_dependent_graph | apply IH].
Qed.

Lemma link_dependents_graph (m : JsMap DAGNode) :
  same_graph m (link_dependents m).
Proof.
  unfold link_dependents. generalize (order m). intros keys. revert m.
  induction keys as [|k keys IH]; intros m; simpl; [apply same_graph_refl|].
  eapply same_graph_trans; [apply link_node_graph | apply IH].
Qed.

Lemma same_graph_get (m m' : JsMap DAGNode) (k : string) (node' : DAGNode) :
  same_graph m m' → js_get m' k = Some node' →
  ∃ node, js_get m k = Some node ∧ task node = task node' ∧
          node_dependencies node = node_dependencies node' ∧
          level node = level node'.
Proof.
  intros [_ Hc] Hget. specialize (Hc k). rewrite Hget in Hc.
  destruct (js_get m k) as [node|]; simpl in Hc; [|done].
  exists node. split; [done|].
  assert (node_core node' = node_core node) as Heq by congruence.
  unfold node_core in Heq. by injection Heq as -> -> ->.
Qed.

Lemma same_graph_dom (m m' : JsMap DAGNode) :
  same_graph m m' → js_dom m' = js_dom m.
Proof.
  intros [_ Hc]. apply set_eq. intros k. unfold js_dom.
  rewrite !elem_of_dom. specialize (Hc k). unfold js_get in Hc.
  destruct (store m' !! k), (store m !! k); simpl in Hc; try done;
    split; intros [? ?]; done.
Qed.

Lemma same_graph_wf (m m' : JsMap DAGNode) :
  same_graph m m' → js_wf m → js_wf m'.
Proof.
  intros Hsg Hwf k. rewrite (same_graph_dom m m' Hsg).
  destruct Hsg as [-> _]. apply Hwf.
Qed.

(** The node map [buildDAG] traverses. *)
Lemma linked_get (tasks : list Task) (k : string) (node : DAGNode) :
  js_get (link_dependents (create_nodes tasks)) k = Some node →
  task node ∈ tasks ∧ id (task node) = k ∧
  node_dependencies node = dependencies (task node).
Proof.
  intros Hget.
  destruct (same_graph_get _ _ k node (link_dependents_graph _) Hget)
    as (node0 & Hget0 & Ht & Hd & _).
  apply create_nodes_get in Hget0 as (? & ? & ?).
  rewrite <- Ht, <- Hd. done.
Qed.

Lemma linked_dom (tasks : list Task) (k : string) :
  k ∈ js_dom (link_dependents (create_nodes tasks)) ↔ k ∈ task_ids tasks.
Proof.
  rewrite (same_graph_dom _ _ (link_dependents_graph _)).
  apply create_nodes_dom.
Qed.

Lemma linked_wf (tasks : list Task) :
  js_wf (link_dependents (create_nodes tasks)).
Proof.
  eapply same_graph_wf; [apply link_dependents_graph | apply create_nodes_wf].
Qed.

Lemma linked_edge (tasks : list Task) (a b : string) :
  node_edge (link_dependents (create_nodes tasks)) a b → depends_on tasks a b.
Proof.
  intros (node & Hget & Hb). apply linked_get in Hget as (Ht & Hid & Hd).
  exists (task node). by rewrite <- Hd.
Qed.

Lemma linked_nodup_deps (tasks : list Task) (t : Task) :
  NoDup (task_ids tasks) → t ∈ tasks →
  ∃ node, js_get (link_dependents (create_nodes tasks)) (id t) = Some node ∧
          node_dependencies node = dependencies t.
Proof.
  intros Hnd Hin.
  pose proof (create_nodes_nodup tasks t Hnd Hin) as Hget0.
  destruct (link_dependents_graph (create_nodes tasks)) as [_ Hc].
  specialize (Hc (id t)). rewrite Hget0 in Hc.
  destruct (js_get (link_dependents _) (id t)) as [node|]; simpl in Hc; [|done].
  exists node. split; [done|].
  assert (node_core node = node_core (mkNode t (dependencies t) [] 0)) as Heq
    by congruence.
  unfold node_core in Heq. simpl in Heq. by injection Heq as _ -> _.
Qed.

Lemma build_inv_init (m0 : JsMap DAGNode) : build_inv m0 (mkBS m0 [] ∅ ∅).
Proof.
  split; simpl; [done | done | set_solver |].
  intros i k. split.
  - intros (b & Hb & _). by rewrite lookup_nil in Hb.
  - intros [Hk _]. set_solver.
Qed.

(** *** The claims on [buildDAG] *)

Lemma build_inv_dom (m0 : JsMap DAGNode) (st : BuildState) :
  build_inv m0 st → js_dom (bs_nodes st) = js_dom m0.
Proof.
  intros Hinv. apply set_eq. intros k. unfold js_dom. rewrite !elem_of_dom.
  pose proof (bi_core m0 st Hinv k) as Hc. unfold js_get in Hc.
  destruct (store (bs_nodes st) !! k), (store m0 !! k); simpl in Hc; try done;
    split; intros [? ?]; done.
Qed.

Lemma js_dom_get {V} (m : JsMap V) (k : string) :
  k ∈ js_dom m ↔ is_Some (js_get m k).
Proof. unfold js_dom, js_get. apply elem_of_dom. Qed.

Lemma tc_first {A} (R : relation A) (x y : A) : tc R x y → ∃ z, R x z.
Proof. intros [? ? ?|? z ? ? _]; eauto. Qed.

Lemma closed_reach (tasks : list Task) (n d : string) :
  closed tasks → n ∈ task_ids tasks →
  rtc (node_edge (link_dependents (create_nodes tasks))) n d →
  d ∈ task_ids tasks.
Proof.
  intros Hcl Hn [->|(y & _ & Hyd)]%rtc_inv_r; [done|].
  apply linked_edge in Hyd as (t & Ht & _ & Hd). by eapply Hcl.
Qed.

(** C8.  For every acyclic batch whose dependency ids all name tasks of the
    batch, [buildDAG] returns a DAG (the traversal ends within its fuel and
    throws nothing) that has a node for exactly the task ids; each node
    carries a task of the batch and its dependency list, its level is one
    plus the maximum of the levels of its dependencies and 0 when it has
    none, and the bucket [levels[i]] holds exactly the nodes of level [i]. *)
Theorem buildDAG_levels (tasks : list Task) :
  closed tasks → acyclic tasks →
  ∃ dag, buildDAG tasks = Ok dag ∧
    (∀ k, k ∈ task_ids tasks ↔ is_Some (js_get (nodes dag) k)) ∧
    (∀ k node, js_get (nodes dag) k = Some node →
       task node ∈ tasks ∧ id (task node) = k ∧
       node_dependencies node = dependencies (task node) ∧
       level_rule (nodes dag) node) ∧
    (∀ i k, in_level (levels dag) i k ↔
            level_of (nodes dag) k = Some (Z.of_nat i)).
Proof.
  intros Hcl Hac. unfold buildDAG.
  set (m0 := link_dependents (create_nodes tasks)).
  pose proof (build_inv_init m0) as Hinit.
  pose proof (visit_all_result m0 (visit_fuel m0) (order m0) _ Hinit eq_refl)
    as Hres.
  pose proof (visit_all_spec m0 (visit_fuel m0) (order m0) (mkBS m0 [] ∅ ∅))
    as Hspec.
  destruct (visit_all _ _ _) as [s'|e|].
  - destruct (Hspec s' eq_refl Hinit) as (Hinv & _ & Hvis).
    assert (∀ k, is_Some (js_get (bs_nodes s') k) → k ∈ bs_visited s') as Hall.
    { intros k Hk. apply Hvis, (linked_wf tasks).
      fold m0. rewrite <- (build_inv_dom m0 s' Hinv). by apply js_dom_get. }
    eexists. split; [done|]. simpl. split_and!.
    + intros k. rewrite <- linked_dom. fold m0.
      rewrite <- (build_inv_dom m0 s' Hinv). apply js_dom_get.
    + intros k node Hget.
      destruct (build_inv_core m0 s' k node Hinv Hget)
        as (node0 & Hget0 & Hd0 & Ht0 & _).
      apply linked_get in Hget0 as (Ht & Hid & Hd).
      rewrite <- Ht0, <- Hd0. split_and!; [done..|].
      destruct (bi_visited m0 s' Hinv k) as (node' & Hget' & _ & _ & Hrule);
        [apply Hall; by eexists|].
      congruence.
    + intros i k. rewrite (bi_levels m0 s' Hinv). split; [by intros [_ ?]|].
      intros Hl. split; [|done]. apply Hall. unfold level_of in Hl.
      by destruct (js_get (bs_nodes s') k); [eexists|].
  - exfalso. destruct Hres as (n & Hn & Hr); [unfold visit_fuel, js_dom; lia|].
    apply (linked_wf tasks), linked_dom in Hn.
    destruct e as [msg|]; simpl in Hr.
    + destruct Hr as (k & _ & Hcyc). apply (Hac k).
      apply (tc_congruence (λ x, x) _ _ _ (linked_edge tasks)) in Hcyc. done.
    + destruct Hr as (d & Hnone & Hreach).
      pose proof (closed_reach tasks n d Hcl Hn Hreach) as Hd.
      apply linked_dom, js_dom_get in Hd as [? Hd]. fold m0 in Hd.
      congruence.
  - exfalso. apply Hres. unfold visit_fuel, js_dom. lia.
Qed.

(** *** [buildDAG] on concrete batches *)

Lemma acyclic_of_rank (tasks : list Task) (rank : string → nat) :
  (∀ a b, depends_on tasks a b → (rank b < rank a)%nat) → acyclic tasks.
Proof.
  intros Hrank a Hcyc.
  assert (∀ x y, tc (depends_on tasks) x y → (rank y < rank x)%nat) as Hlt.
  { induction 1 as [x y Hxy | x y z Hxy _ IH]; [by apply Hrank|].
    apply Hrank in Hxy. lia. }
  apply Hlt in Hcyc. lia.
Qed.

Lemma ordered_chain_closed : closed ordered_chain.
Proof.
  intros t d Ht Hd. unfold ordered_chain in Ht. case_tasks Ht; simpl in Hd;
    case_tasks Hd; apply (bool_decide_unpack _); by vm_compute.
Qed.

Lemma ordered_chain_acyclic : acyclic ordered_chain.
Proof.
  apply (acyclic_of_rank _
           (λ s, if decide (s = "A") then 0 else if decide (s = "B") then 1 else 2)%nat).
  intros a b (t & Ht & <- & Hb). unfold ordered_chain in Ht.
  case_tasks Ht; simpl in Hb; case_tasks Hb; vm_compute; lia.
Qed.

(** Witness for C8: the chain A → B → C. *)
Lemma buildDAG_levels_witness :
  closed ordered_chain ∧ acyclic ordered_chain ∧
  ∃ dag, buildDAG ordered_chain = Ok dag ∧
    (∀ k, k ∈ task_ids ordered_chain ↔ is_Some (js_get (nodes dag) k)) ∧
    (∀ k node, js_get (nodes dag) k = Some node →
       task node ∈ ordered_chain ∧ id (task node) = k ∧
       node_dependencies node = dependencies (task node) ∧
       level_rule (nodes dag) node) ∧
    (∀ i k, in_level (levels dag) i k ↔
            level_of (nodes dag) k = Some (Z.of_nat i)).
Proof.
  split; [exact ordered_chain_closed|]. split; [exact ordered_chain_acyclic|].
  exact (buildDAG_levels ordered_chain ordered_chain_closed ordered_chain_acyclic).
Defined.

(** The levels and buckets of the diamond, as [buildDAG] computes them. *)
Example buildDAG_diamond :
  ∃ dag, buildDAG diamond = Ok dag ∧
         map (level_of (nodes dag)) ["A"; "B"; "C"; "D"] =
           [Some 0; Some 1; Some 1; Some 2] ∧
         levels dag = [Some ["A"]; Some ["B"; "C"]; Some ["D"]] ∧
         (dependents <$> js_get (nodes dag) "A") = Some ["B"; "C"].
Proof.
  eexists. split; [vm_compute; reflexivity|].
  split_and!; vm_compute; reflexivity.
Qed.

(** The error of a circular batch names a task on the cycle. *)
Example buildDAG_cycle :
  buildDAG [task_of "A" None ["B"] 1; task_of "B" None ["A"] 1] =
  Throw (JsError "Circular dependency detected at A").
Proof. vm_compute. reflexivity. Qed.

Lemma dangling_nodup : NoDup (task_ids [dangling_A]).
Proof. apply (bool_decide_unpack (NoDup (task_ids [dangling_A]))). by vm_compute. Defined.

Lemma dangling_absent : "X" ∉ task_ids [dangling_A].
Proof. apply (bool_decide_unpack ("X" ∉ task_ids [dangling_A])). by vm_compute. Defined.

(** ** The critical path *)

Lemma reversed_chain_acyclic : acyclic reversed_chain.
Proof.
  apply (acyclic_of_rank _
           (λ s, if decide (s = "A") then 0 else if decide (s = "B") then 1 else 2)%nat).
  intros a b (t & Ht & <- & Hb). unfold reversed_chain in Ht.
  case_tasks Ht; simpl in Hb; case_tasks Hb; vm_compute; lia.
Qed.

(** The examples of the specification, listed in dependency order. *)
Example critical_path_chain :
  critical_path_of ordered_chain = Ok ["A"; "B"; "C"].
Proof. vm_compute. reflexivity. Qed.

Example critical_path_diamond :
  critical_path_of diamond = Ok ["A"; "B"; "D"].
Proof. vm_compute. reflexivity. Qed.

(** C2 (failing input).  On the acyclic chain A → B → C with hours 5, 1, 1,
    listed as C, B, A, the forward pass reads the earliest start of B
    before it is set: it leaves [earliestStart(C) = 1], not
    [earliestStart(B) + duration(B) = 6], and the returned path is [A; B],
    of 6 hours, although the chain [A; B; C] takes 7. *)
Theorem critical_path_reversed_chain :
  acyclic reversed_chain ∧
  ∃ dag, buildDAG reversed_chain = Ok dag ∧
    earliestStart_of dag !! "B" = Some 5 ∧
    init_duration (nodes dag) !! "B" = Some 1 ∧
    earliestStart_of dag !! "C" = Some 1 ∧
    identifyCriticalPath dag =
      Ok (["A"; "B"], mkDAG (nodes dag) (levels dag) ["A"; "B"]).
Proof.
  split; [exact reversed_chain_acyclic|].
  eexists. split; [vm_compute; reflexivity|].
  split_and!; vm_compute; reflexivity.
Qed.

(** C3 (failing input).  For the batch of the single task A estimated at 0
    hours, [buildDAG] returns a DAG with the one node A, and
    [identifyCriticalPath] returns the empty path on it: no finish time
    exceeds the initial [maxFinish = 0], so no endpoint is chosen. *)
Theorem critical_path_zero_hours :
  ∃ dag, buildDAG [zero_task] = Ok dag ∧
    order (nodes dag) = ["A"] ∧
    is_Some (js_get (nodes dag) "A") ∧
    find_endpoint (nodes dag) (earliestStart_of dag) (init_duration (nodes dag)) =
      (None, 0) ∧
    identifyCriticalPath dag = Ok ([], dag).
Proof.
  eexists. split; [vm_compute; reflexivity|].
  split_and!; [reflexivity | by eexists | vm_compute; reflexivity
              | vm_compute; reflexivity].
Qed.

(** ** More on the executor *)

Section executor_more.
Variable agents : gmap string BaseAgent.
Variable maxConcurrency : Z.

Implicit Types (s : ExecState) (t : Task) (q l : list Task).

Lemma started_app (tr1 tr2 : list event) :
  started (tr1 ++ tr2) = started tr1 ++ started tr2.
Proof. unfold started. apply omap_app. Qed.

Lemma started_turn_events (todo : list Task) :
  started (turn_events agents todo) = todo.
Proof.
  unfold turn_events. rewrite started_app.
  assert (started (map EvStart todo) = todo) as ->.
  { induction todo as [|t l IH]; [done|]. cbn. f_equal. exact IH. }
  assert (∀ l, started (map EvNoAgent l) = []) as ->.
  { induction l as [|t l IH]; [done|]. cbn. exact IH. }
  by rewrite app_nil_r.
Qed.

Lemma remove_first_length t q :
  t ∈ q → S (length (remove_first t q)) = length q.
Proof.
  intros Hin. apply remove_first_perm, Permutation_length in Hin.
  simpl in Hin. lia.
Qed.

Lemma remove_first_ne t u q : u ∈ q → u ≠ t → u ∈ remove_first t q.
Proof.
  intros Hin Hne. induction q as [|x q IH]; [by apply elem_of_nil in Hin|].
  simpl. case_decide as Hx.
  - apply elem_of_cons in Hin as [->|Hin]; [by subst|done].
  - apply elem_of_cons in Hin as [->|Hin]; apply elem_of_cons; auto.
Qed.

(** The batch is split between the tasks started so far and the queue. *)
Lemma run_started tasks tr s :
  run agents maxConcurrency (exec_init tasks) tr s →
  started tr ++ queue s ≡ₚ tasks.
Proof.
  remember (exec_init tasks) as s0 eqn:Hs0.
  induction 1 as [|s1 tr s2 evs s3 Hrun IH Hst]; [by subst|].
  specialize (IH Hs0). rewrite started_app.
  destruct Hst as [s2 s3 _ [-> _]%loop_iteration_Continue | s2 t o Hin
                  | s2 t rest _].
  - rewrite started_turn_events, <- app_assoc.
    rewrite <- (dispatch_fold_queue agents _ s2
      (sublist_submseteq _ _ (tasksToExecute_sublist maxConcurrency s2))).
    done.
  - simpl. rewrite app_nil_r. by destruct o.
  - simpl. by rewrite app_nil_r.
Qed.

(** Nothing is lost: the pending tasks, the running ones, those left to
    their [.catch] handler and the recorded results add up to the batch. *)
Lemma run_conservation tasks tr s :
  run agents maxConcurrency (exec_init tasks) tr s →
  (length (queue s) + length (running s) + length (failing s) +
   length (results s) = length tasks)%nat.
Proof.
  remember (exec_init tasks) as s0 eqn:Hs0.
  induction 1 as [|s1 tr s2 evs s3 Hrun IH Hst]; [subst; simpl; lia|].
  specialize (IH Hs0).
  destruct Hst as [s2 s3 _ [-> _]%loop_iteration_Continue | s2 t o Hin
                  | s2 t rest Hf].
  - set (todo := tasksToExecute maxConcurrency s2).
    pose proof (dispatch_fold_queue agents todo s2
      (sublist_submseteq _ _ (tasksToExecute_sublist maxConcurrency s2))) as Hq.
    apply Permutation_length in Hq. rewrite length_app in Hq.
    rewrite dispatch_fold_running, dispatch_fold_results, dispatch_fold_failing,
      !length_app.
    pose proof (filter_split_length (has_agent agents) (no_agent agents) todo
                  (no_agent_negb agents)).
    fold todo in Hq. lia.
  - pose proof (remove_first_length t (running s2) Hin).
    destruct o; simpl; rewrite length_app; simpl; lia.
  - rewrite Hf in IH. simpl in *. rewrite length_app. simpl. lia.
Qed.

Lemma loop_iteration_Return_idle s rs :
  loop_iteration agents maxConcurrency s = Return rs → size (inProgress s) = 0%nat.
Proof.
  unfold loop_iteration. intros H.
  destruct (0 <? length (queue s))%nat; simpl in H.
  - destruct (_ && _) eqn:Hc; [|done].
    apply andb_true_iff in Hc as [_ Hc]. by apply Nat.eqb_eq in Hc.
  - destruct (0 <? size (inProgress s))%nat eqn:Hip.
    + destruct (_ && _) eqn:Hc; [|done].
      apply andb_true_iff in Hc as [_ Hc]. by apply Nat.eqb_eq in Hc.
    + apply Nat.ltb_ge in Hip. lia.
Qed.

(** X1.  On a batch with pairwise different ids, a normal return of
    [executeParallel] delivers exactly one result per task of the batch,
    and every task of the batch has been started exactly once. *)
Theorem return_one_result_per_task tasks tr rs :
  NoDup (task_ids tasks) →
  executeParallel tasks agents maxConcurrency tr (Return rs) →
  length rs = length tasks ∧ started tr ≡ₚ tasks.
Proof.
  intros Hnd (s & Hrun & Hnil & Hl & _).
  pose proof (loop_iteration_Return_idle s rs Hl) as Hidle.
  apply loop_iteration_Return in Hl as [Hq ->].
  assert (exec_inv s) as Hinv
    by (eapply exec_inv_run; [by apply exec_inv_init | exact Hrun]).
  rewrite (exec_inv_size s Hinv) in Hidle.
  pose proof (run_conservation tasks tr s Hrun) as Hc.
  pose proof (run_started tasks tr s Hrun) as Hs.
  rewrite Hq, Hnil in Hc. rewrite Hq in Hs. rewrite app_nil_r in Hs.
  simpl in Hc. split; [lia | done].
Qed.

(** X2.  Whatever the batch and the ceiling, no task is started twice and
    none is lost: at any point of a run the tasks started so far together
    with the pending queue are the batch, and the pending tasks, the
    running ones, the recorded results and the failures still left to
    their [.catch] handler (none at a loop turn) add up to its size. *)
Theorem started_and_pending_partition tasks tr s :
  run agents maxConcurrency (exec_init tasks) tr s →
  started tr ++ queue s ≡ₚ tasks ∧
  (length (queue s) + length (running s) + length (failing s) +
   length (results s) = length tasks)%nat.
Proof.
  intros Hrun. split;
    [exact (run_started tasks tr s Hrun) | exact (run_conservation tasks tr s Hrun)].
Qed.

End executor_more.

(** *** No false deadlock *)

(** In a non-empty part of an acyclic batch some task depends on no task of
    that part. *)
Lemma minimal_pending (tasks q : list Task) :
  acyclic tasks → (∀ t, t ∈ q → t ∈ tasks) → q ≠ [] →
  ∃ t, t ∈ q ∧ ∀ d, d ∈ dependencies t → d ∉ task_ids q.
Proof.
  intros Hac Hsub Hne.
  assert (∀ (n : nat) (S : gset string) t,
            (size S ≤ n)%nat → t ∈ q →
            (∀ a, a ∈ task_ids q → a ∉ S → tc (depends_on tasks) a (id t)) →
            ∃ t', t' ∈ q ∧ ∀ d, d ∈ dependencies t' → d ∉ task_ids q) as Hgen.
  { induction n as [|n IH]; intros S t Hsize Ht Hanc.
    - destruct (decide (Exists (λ d, d ∈ task_ids q) (dependencies t)))
        as [Hex|Hnex].
      + exfalso. apply (Hac (id t)), Hanc.
        * unfold task_ids. apply list_elem_of_In, in_map, list_elem_of_In, Ht.
        * assert (size S = 0%nat) as Hz by lia.
          apply size_empty_inv in Hz. set_solver.
      + exists t. split; [done|]. intros d Hd Hin. apply Hnex.
        apply Exists_exists. eauto.
    - destruct (decide (Exists (λ d, d ∈ task_ids q) (dependencies t)))
        as [Hex|Hnex].
      + apply Exists_exists in Hex as (d & Hd & Hdq).
        unfold task_ids in Hdq.
        apply list_elem_of_In, in_map_iff in Hdq as (u & Hu & Huq).
        apply list_elem_of_In in Huq.
        assert (depends_on tasks (id t) (id u)) as Hedge.
        { exists t. split_and!; [by apply Hsub | done | by rewrite Hu]. }
        destruct (decide (id t ∈ S)) as [HtS|HtS].
        * apply (IH (S ∖ {[id t]}) u); [|done|].
          { assert (size S = size (S ∖ {[id t]}) + 1)%nat; [|lia].
            rewrite (size_difference S {[id t]}) by set_solver.
            rewrite size_singleton.
            assert (0 < size S)%nat; [|lia].
            destruct (decide (size S = 0%nat)) as [Hz|]; [|lia].
            apply size_empty_inv in Hz. set_solver. }
          intros a Ha HaS.
          destruct (decide (a = id t)) as [->|Hat]; [by apply tc_once|].
          eapply tc_r; [|exact Hedge]. apply Hanc; [done|]. set_solver.
        * exfalso. apply (Hac (id t)), Hanc; [|done].
          unfold task_ids. apply list_elem_of_In, in_map, list_elem_of_In, Ht.
      + exists t. split; [done|]. intros d Hd Hin. apply Hnex.
        apply Exists_exists. eauto. }
  destruct q as [|t q']; [done|].
  apply (Hgen (size (list_to_set (C := gset string) (task_ids (t :: q'))))
              (list_to_set (task_ids (t :: q'))) t); [done | apply list_elem_of_here |].
  intros a Ha HaS. destruct HaS. by apply elem_of_list_to_set.
Qed.

Section executor_liveness.
Variable agents : gmap string BaseAgent.
Variable maxConcurrency : Z.

Implicit Types (s : ExecState) (t : Task).

Lemma no_rejection_app (tr evs : list event) :
  no_rejection (tr ++ evs) → no_rejection tr ∧ no_rejection evs.
Proof.
  intros H. split; intros t msg Hin; apply (H t msg), elem_of_app; auto.
Qed.

Lemma run_accounted tasks tr s :
  all_agents agents tasks →
  run agents maxConcurrency (exec_init tasks) tr s →
  no_rejection tr → accounted tasks s.
Proof.
  intros Hag. remember (exec_init tasks) as s0 eqn:Hs0.
  induction 1 as [|s1 tr s2 evs s3 Hrun IH Hst]; intros Hnr.
  - subst. intros t Ht. by left.
  - apply no_rejection_app in Hnr as [Hnr Hevs].
    specialize (IH Hs0 Hnr). intros t Ht.
    destruct Hst as [s2 s3 _ [-> _]%loop_iteration_Continue | s2 t' o Hin
                    | s2 t' rest _]; [| |by apply IH].
    + destruct (IH t Ht) as [Hq | [Hr | Hc]].
      * rewrite (dispatch_fold_queue agents _ s2
          (sublist_submseteq _ _ (tasksToExecute_sublist maxConcurrency s2)))
          in Hq.
        apply elem_of_app in Hq as [Hq|Hq]; [|by left].
        right. left. rewrite dispatch_fold_running. apply elem_of_app. right.
        apply list_elem_of_In, filter_In. split; [by apply list_elem_of_In|].
        apply bool_decide_eq_true. by apply Hag.
      * right. left. rewrite dispatch_fold_running. apply elem_of_app. by left.
      * right. right. by rewrite dispatch_fold_completed.
    + destruct o as [r|msg];
        [|destruct (Hevs t' msg); by apply list_elem_of_singleton].
      destruct (IH t Ht) as [Hq | [Hr | Hc]]; simpl.
      * by left.
      * destruct (decide (t = t')) as [->|Hne].
        -- right. right. set_solver.
        -- right. left. by apply remove_first_ne.
      * right. right. set_solver.
Qed.

(** The deadlock branch is taken only when nothing runs and no pending
    task is ready. *)
Lemma reject_is_stuck s e :
  exec_inv s → 0 < maxConcurrency →
  loop_iteration agents maxConcurrency s = Reject e →
  queue s ≠ [] ∧ running s = [] ∧ readyTasks s = [].
Proof.
  intros Hinv Hpos Hl.
  pose proof (exec_inv_size s Hinv) as Hsize.
  unfold loop_iteration in Hl.
  destruct (_ || _); [|done].
  destruct (_ && _) eqn:Hc; [|done].
  apply andb_true_iff in Hc as [Htodo Hip].
  apply Nat.eqb_eq in Htodo, Hip.
  split_and!.
  - intros Hq0. by rewrite Hq0 in Hl.
  - rewrite Hip in Hsize. by destruct (running s).
  - apply (js_slice0_nil_inv (maxConcurrency - Z.of_nat (size (inProgress s))));
      [lia|]. fold (tasksToExecute maxConcurrency s).
    by destruct (tasksToExecute maxConcurrency s).
Qed.

(** While nothing has rejected, an idle state with pending tasks has a
    ready one. *)
Lemma pending_task_ready tasks tr s :
  closed tasks → acyclic tasks → all_agents agents tasks →
  run agents maxConcurrency (exec_init tasks) tr s →
  no_rejection tr →
  queue s ≠ [] → running s = [] → readyTasks s ≠ [].
Proof.
  intros Hcl Hac Hag Hrun Hnr Hqne Hrunning Hready.
  pose proof (run_accounted tasks tr s Hag Hrun Hnr) as Hacc.
  pose proof (run_started agents maxConcurrency tasks tr s Hrun) as Hst.
  destruct (minimal_pending tasks (queue s)) as (t & Ht & Hmin);
    [done | | done |].
  { intros u Hu. rewrite <- Hst. apply elem_of_app. by right. }
  assert (t ∈ readyTasks s) as Hin;
    [|by rewrite Hready in Hin; apply elem_of_nil in Hin].
  apply readyTasks_spec. split; [done|]. intros d Hd.
  assert (t ∈ tasks) as Htt by (rewrite <- Hst; apply elem_of_app; by right).
  pose proof (Hcl t d Htt Hd) as Hdin. unfold task_ids in Hdin.
  apply list_elem_of_In, in_map_iff in Hdin as (u & <- & Hu).
  apply list_elem_of_In in Hu.
  destruct (Hacc u Hu) as [Huq | [Hur | Huc]];
    [|by rewrite Hrunning in Hur; apply elem_of_nil in Hur|done].
  destruct (Hmin (id u) Hd). unfold task_ids.
  by apply list_elem_of_In, in_map, list_elem_of_In.
Qed.

(** From every state the loop can end with the pending handlers run and
    every running task resolving. *)
Lemma can_finish_resolved (n : nat) : ∀ s,
  exec_inv s → 0 < maxConcurrency →
  (2 * length (queue s) + length (running s) + length (failing s) ≤ n)%nat →
  ∃ tr s', run agents maxConcurrency s tr s' ∧ no_rejection tr ∧
           failing s' = [] ∧
           ∀ s'', loop_iteration agents maxConcurrency s' ≠ Continue s''.
Proof.
  induction n as [|n IH]; intros s Hinv Hpos Hm.
  - exists [], s.
    split_and!; [constructor | by intros ? ? ?%elem_of_nil
                | by destruct (failing s); simpl in *; [|lia] |].
    intros s''. unfold loop_iteration. rewrite (exec_inv_size s Hinv).
    destruct (queue s), (running s); simpl in *; try lia. done.
  - destruct (failing s) as [|f frest] eqn:Hf.
    { destruct (running s) as [|t rest] eqn:Hr.
      + destruct (loop_iteration agents maxConcurrency s) as [s1| |] eqn:Hl;
          [|exists [], s; split_and!;
              [constructor | by intros ? ? ?%elem_of_nil | done
              | by rewrite Hl]..].
        pose proof (exec_inv_step agents maxConcurrency s _ s1 Hinv
                      (step_turn _ _ s s1 Hf Hl)) as Hinv1.
        pose proof (exec_inv_size s Hinv) as Hsz. rewrite Hr in Hsz.
        pose proof Hl as [Hs1 Hne]%loop_iteration_Continue.
        set (todo := tasksToExecute maxConcurrency s) in *.
        assert (todo ≠ []) as Htodo.
        { destruct Hne as [?|Hne]; [done|]. destruct Hne.
          apply size_empty_inv in Hsz. by apply leibniz_equiv. }
        pose proof (dispatch_fold_queue agents todo s
          (sublist_submseteq _ _ (tasksToExecute_sublist maxConcurrency s))) as Hq.
        apply Permutation_length in Hq. rewrite length_app, <- Hs1 in Hq.
        assert (length (running s1) + length (failing s1) = length todo)%nat
          as Hrun.
        { rewrite Hs1, dispatch_fold_running, dispatch_fold_failing, Hr, Hf.
          simpl. apply filter_split_length, no_agent_negb. }
        assert (0 < length todo)%nat by (destruct todo; [done|simpl; lia]).
        destruct (IH s1 Hinv1 Hpos) as (tr' & s' & Hrun' & Hnr' & Hnil & Hfin);
          [simpl in Hm; lia|].
        eexists _, s'. split_and!; [| |exact Hnil|exact Hfin].
        * eapply run_trans;
            [apply run_one, step_turn; [exact Hf | exact Hl] | exact Hrun'].
        * intros u msg [Hin|Hin]%elem_of_app; [|by apply (Hnr' u msg)].
          by apply turn_events_settle in Hin.
      + assert (t ∈ running s) as Hin by (rewrite Hr; apply elem_of_cons; auto).
        pose proof (step_settle agents maxConcurrency s t
                      (Resolved (failure_result t "")) Hin) as Hst.
        destruct (IH (executeTask_settle s t (Resolved (failure_result t ""))))
          as (tr' & s' & Hrun' & Hnr' & Hnil & Hfin).
        * by eapply exec_inv_step.
        * done.
        * simpl. rewrite Hr, remove_first_head, Hf. simpl in Hm. simpl. lia.
        * eexists _, s'. split_and!; [| |exact Hnil|exact Hfin].
          -- eapply run_trans; [apply run_one, Hst | exact Hrun'].
          -- intros u msg [Hin'|Hin']%elem_of_app; [|by apply (Hnr' u msg)].
             by apply list_elem_of_singleton in Hin'. }
    pose proof (step_catch agents maxConcurrency s f frest Hf) as Hst.
    destruct (IH (catch_no_agent s f frest))
      as (tr' & s' & Hrun' & Hnr' & Hnil & Hfin).
    + by eapply exec_inv_step.
    + done.
    + simpl in *. lia.
    + eexists _, s'. split_and!; [| |exact Hnil|exact Hfin].
      * eapply run_trans; [apply run_one, Hst | exact Hrun'].
      * intros u msg Hin'. by apply (Hnr' u msg).
Qed.

(** X3.  On an acyclic batch with pairwise different ids, whose dependency
    ids all name tasks of the batch and whose roles all have an agent, with
    a positive ceiling: as long as no [execute] promise has rejected, the
    loop never takes the deadlock branch. *)
Theorem well_formed_batch_never_deadlocks tasks tr s :
  NoDup (task_ids tasks) → closed tasks → acyclic tasks →
  all_agents agents tasks → 0 < maxConcurrency →
  run agents maxConcurrency (exec_init tasks) tr s →
  no_rejection tr →
  ∀ e, loop_iteration agents maxConcurrency s ≠ Reject e.
Proof.
  intros Hnd Hcl Hac Hag Hpos Hrun Hnr e Hl.
  assert (exec_inv s) as Hinv
    by (eapply exec_inv_run; [by apply exec_inv_init | exact Hrun]).
  destruct (reject_is_stuck s e Hinv Hpos Hl) as (Hq & Hr & Hready).
  by apply (pending_task_ready tasks tr s).
Qed.

(** X4.  Such a batch can always be completed: from every state of a run
    without rejections there is a continuation, in which the running tasks
    resolve, that makes [executeParallel] return with one result per task. *)
Theorem well_formed_batch_can_complete tasks tr s :
  NoDup (task_ids tasks) → closed tasks → acyclic tasks →
  all_agents agents tasks → 0 < maxConcurrency →
  run agents maxConcurrency (exec_init tasks) tr s →
  no_rejection tr →
  ∃ tr' rs, executeParallel tasks agents maxConcurrency (tr ++ tr') (Return rs) ∧
            length rs = length tasks.
Proof.
  intros Hnd Hcl Hac Hag Hpos Hrun Hnr.
  assert (exec_inv s) as Hinv
    by (eapply exec_inv_run; [by apply exec_inv_init | exact Hrun]).
  destruct (can_finish_resolved _ s Hinv Hpos (le_n _))
    as (tr' & s' & Hrun' & Hnr' & Hnil & Hfin).
  pose proof (run_trans agents maxConcurrency _ _ _ _ _ Hrun Hrun') as Hfull.
  assert (no_rejection (tr ++ tr')) as Hnrf.
  { intros u msg [?|?]%elem_of_app; [by apply (Hnr u msg) | by apply (Hnr' u msg)]. }
  destruct (loop_iteration agents maxConcurrency s') as [s''|rs|e] eqn:Hl.
  - by destruct (Hfin s'').
  - exists tr', rs. split; [exists s'; by split_and!|].
    pose proof (loop_iteration_Return_idle agents maxConcurrency s' rs Hl) as Hidle.
    apply loop_iteration_Return in Hl as [Hq ->].
    assert (exec_inv s') as Hinv' by (by eapply exec_inv_run).
    rewrite (exec_inv_size s' Hinv') in Hidle.
    pose proof (run_conservation agents maxConcurrency tasks _ s' Hfull) as Hc.
    rewrite Hq, Hnil in Hc. simpl in Hc. lia.
  - assert (exec_inv s') as Hinv' by (by eapply exec_inv_run).
    destruct (reject_is_stuck s' e Hinv' Hpos Hl) as (Hq & Hr & Hready).
    by destruct (pending_task_ready tasks _ s' Hcl Hac Hag Hfull Hnrf Hq Hr).
Qed.

End executor_liveness.

(** The first loop turn under the ceiling 0 takes the deadlock branch. *)
Lemma zero_ceiling_first_turn (agents : gmap string BaseAgent) (tasks : list Task) :
  tasks ≠ [] →
  loop_iteration agents 0 (exec_init tasks) = Reject (JsError deadlock_message).
Proof.
  intros Hne.
  assert (tasksToExecute 0 (exec_init tasks) = []) as Htodo.
  { unfold tasksToExecute, js_slice0. simpl inProgress.
    rewrite size_empty. simpl. rewrite Z.min_l by lia. done. }
  unfold loop_iteration. rewrite Htodo. simpl.
  destruct tasks; [done|]. done.
Qed.

(** X5.  With the ceiling 0 no task is ever dispatched: on every non-empty
    batch [executeParallel] rejects with the deadlock error at its first
    loop turn, whether or not tasks are ready, and it can settle in no
    other way. *)
Theorem zero_ceiling_rejects (agents : gmap string BaseAgent) (tasks : list Task) :
  tasks ≠ [] →
  executeParallel tasks agents 0 [] (Reject (JsError deadlock_message)) ∧
  ∀ tr o, executeParallel tasks agents 0 tr o →
          tr = [] ∧ o = Reject (JsError deadlock_message).
Proof.
  intros Hne.
  pose proof (zero_ceiling_first_turn agents tasks Hne) as Hinit.
  split.
  { exists (exec_init tasks). split_and!; [constructor | done | done | done]. }
  intros tr o (s & Hrun & _ & Hl & _).
  assert (s = exec_init tasks ∧ tr = []) as [-> ->].
  { clear Hl. remember (exec_init tasks) as s0 eqn:Hs0.
    induction Hrun as [|s1 tr s2 evs s3 Hrun IH Hst]; [done|].
    destruct (IH Hs0 Hinit) as [E1 E2]. subst.
    inversion Hst as [sa sb _ Hturn | sa t o' Hin | sa t rest Hf]; subst;
      simpl in *.
    - congruence.
    - by apply elem_of_nil in Hin.
    - discriminate Hf. }
  split; [done | congruence].
Qed.

(** *** The executor properties on concrete runs *)

Lemma ghost_nodup : NoDup (task_ids [ghost_A; ghost_B]).
Proof.
  apply (bool_decide_unpack (NoDup (task_ids [ghost_A; ghost_B]))).
  by vm_compute.
Defined.

Lemma ghost_returns :
  executeParallel [ghost_A; ghost_B] ex_agents 1 ghost_trace (Return ghost_results).
Proof.
  eexists. split_and!; [apply ghost_run | reflexivity | reflexivity | done].
Defined.

(** Witness for X1: the batch with the unregistered role returns two
    results for its two tasks. *)
Lemma return_one_result_witness :
  length ghost_results = length [ghost_A; ghost_B] ∧
  started ghost_trace ≡ₚ [ghost_A; ghost_B].
Proof.
  exact (return_one_result_per_task ex_agents 1 [ghost_A; ghost_B] ghost_trace
           ghost_results ghost_nodup ghost_returns).
Defined.

(** Witness for X2: three independent tasks after the first round. *)
Lemma started_partition_witness :
  started trio_trace ++ queue trio_state ≡ₚ trio ∧
  (length (queue trio_state) + length (running trio_state) +
   length (failing trio_state) + length (results trio_state) =
   length trio)%nat.
Proof.
  exact (started_and_pending_partition ex_agents 2 trio trio_trace trio_state
           trio_run).
Defined.

Lemma chain_closed : closed [chain_A; chain_B].
Proof.
  intros t d Ht Hd. case_tasks Ht; simpl in Hd; case_tasks Hd.
  apply (bool_decide_unpack _). by vm_compute.
Qed.

Lemma chain_acyclic : acyclic [chain_A; chain_B].
Proof.
  apply (acyclic_of_rank _ (λ s, if decide (s = "A") then 0 else 1)%nat).
  intros a b (t & Ht & <- & Hb).
  case_tasks Ht; simpl in Hb; case_tasks Hb; vm_compute; lia.
Qed.

Lemma chain_agents : all_agents ex_agents [chain_A; chain_B].
Proof. intros t Ht. case_tasks Ht; by eexists. Qed.

Lemma chain_no_rejection : no_rejection chain_trace.
Proof.
  intros t msg H. unfold chain_trace in H.
  repeat (apply elem_of_cons in H as [H|H]; [discriminate H|]).
  by apply elem_of_nil in H.
Qed.

(** Witness for X3: after B has been started the loop is not deadlocked. *)
Lemma never_deadlocks_witness :
  no_rejection chain_trace ∧
  ∀ e, loop_iteration ex_agents 4 chain_state ≠ Reject e.
Proof.
  assert (0 < 4) as Hpos by lia.
  split; [exact chain_no_rejection|].
  exact (well_formed_batch_never_deadlocks ex_agents 4 [chain_A; chain_B]
           chain_trace chain_state chain_nodup chain_closed chain_acyclic
           chain_agents Hpos chain_run chain_no_rejection).
Defined.

(** Witness for X4: the chain batch can be completed from that state. *)
Lemma can_complete_witness :
  ∃ tr' rs,
    executeParallel [chain_A; chain_B] ex_agents 4 (chain_trace ++ tr') (Return rs) ∧
    length rs = length [chain_A; chain_B].
Proof.
  assert (0 < 4) as Hpos by lia.
  exact (well_formed_batch_can_complete ex_agents 4 [chain_A; chain_B]
           chain_trace chain_state chain_nodup chain_closed chain_acyclic
           chain_agents Hpos chain_run chain_no_rejection).
Defined.

(** Witness for X5: the chain batch under the ceiling 0. *)
Lemma zero_ceiling_witness :
  executeParallel [chain_A; chain_B] ex_agents 0 []
    (Reject (JsError deadlock_message)) ∧
  ∀ tr o, executeParallel [chain_A; chain_B] ex_agents 0 tr o →
          tr = [] ∧ o = Reject (JsError deadlock_message).
Proof.
  assert ([chain_A; chain_B] ≠ []) as Hne by done.
  exact (zero_ceiling_rejects ex_agents [chain_A; chain_B] Hne).
Defined.

(** ** More on the graph builder *)

(** What a normal return of [buildDAG] gives: the final state of the
    traversal, with every node visited. *)
Lemma buildDAG_Ok_inv (tasks : list Task) (dag : DAG) :
  buildDAG tasks = Ok dag →
  ∃ s', dag = mkDAG (bs_nodes s') (bs_levels s') [] ∧
        build_inv (link_dependents (create_nodes tasks)) s' ∧
        visit_all (visit_fuel (link_dependents (create_nodes tasks)))
                  (order (link_dependents (create_nodes tasks)))
                  (mkBS (link_dependents (create_nodes tasks)) [] ∅ ∅) = Ok s' ∧
        ∀ k, is_Some (js_get (bs_nodes s') k) → k ∈ bs_visited s'.
Proof.
  unfold buildDAG. set (m0 := link_dependents (create_nodes tasks)).
  pose proof (visit_all_spec m0 (visit_fuel m0) (order m0) (mkBS m0 [] ∅ ∅))
    as Hspec.
  destruct (visit_all _ _ _) as [s'|e|]; [|done..].
  intros [= <-]. destruct (Hspec s' eq_refl (build_inv_init m0)) as (Hinv & _ & Hvis).
  exists s'. split_and!; [done..|].
  intros k Hk. apply Hvis, (linked_wf tasks). fold m0.
  rewrite <- (build_inv_dom m0 s' Hinv). by apply js_dom_get.
Qed.

Lemma buildDAG_throw_reason (tasks : list Task) :
  match buildDAG tasks with
  | Ok _ => True
  | Throw e => ∃ n, n ∈ task_ids tasks ∧
                    throw_reason (link_dependents (create_nodes tasks)) n e
  | OutOfFuel => False
  end.
Proof.
  unfold buildDAG. set (m0 := link_dependents (create_nodes tasks)).
  pose proof (visit_all_result m0 (visit_fuel m0) (order m0) _
                (build_inv_init m0) eq_refl) as Hres.
  destruct (visit_all _ _ _) as [s'|e|]; [done| |].
  - destruct Hres as (n & Hn & Hr); [unfold visit_fuel, js_dom; lia|].
    exists n. split; [|done]. by apply linked_dom, (linked_wf tasks).
  - apply Hres. unfold visit_fuel, js_dom. lia.
Qed.

(** X6.  [buildDAG] terminates on every batch, cyclic or not: the depth of
    the recursion of [visit] never exceeds the number of nodes plus one. *)
Theorem buildDAG_terminates (tasks : list Task) : buildDAG tasks ≠ OutOfFuel.
Proof.
  intros H. pose proof (buildDAG_throw_reason tasks) as Hr.
  by rewrite H in Hr.
Qed.

(** X7.  When [buildDAG] throws an [Error], it is the circular-dependency
    error, and the task id it names lies on a dependency cycle of the
    batch. *)
Theorem buildDAG_error_names_cycle (tasks : list Task) (msg : string) :
  buildDAG tasks = Throw (JsError msg) →
  ∃ k, msg = cycle_message k ∧ k ∈ task_ids tasks ∧
       tc (depends_on tasks) k k.
Proof.
  intros H. pose proof (buildDAG_throw_reason tasks) as Hr. rewrite H in Hr.
  destruct Hr as (n & _ & k & -> & Hcyc). exists k. split; [done|].
  split.
  - apply tc_first in Hcyc as (z & node & Hget & _).
    apply linked_dom, js_dom_get. by eexists.
  - by apply (tc_congruence (λ x, x) _ _ _ (linked_edge tasks)) in Hcyc.
Qed.

(** X8.  When [buildDAG] throws the engine's [TypeError], some task of the
    batch names a dependency id that no task of the batch has. *)
Theorem buildDAG_type_error_dangling (tasks : list Task) :
  buildDAG tasks = Throw JsTypeError →
  ∃ t d, t ∈ tasks ∧ d ∈ dependencies t ∧ d ∉ task_ids tasks.
Proof.
  intros H. pose proof (buildDAG_throw_reason tasks) as Hr. rewrite H in Hr.
  destruct Hr as (n & Hn & d & Hnone & Hreach).
  assert (d ∉ task_ids tasks) as Hd.
  { intros [x Hx]%linked_dom%js_dom_get. congruence. }
  apply rtc_inv_r in Hreach as [->|(y & _ & Hyd)]; [done|].
  apply linked_edge in Hyd as (t & Ht & _ & Hdt). eauto.
Qed.

(** Along a dependency edge of a batch with pairwise different ids the
    levels of a returned DAG go down, and the target has a node. *)
Lemma buildDAG_edge_level (tasks : list Task) (dag : DAG) (a b : string) :
  NoDup (task_ids tasks) → buildDAG tasks = Ok dag →
  depends_on tasks a b →
  ∃ la lb, level_of (nodes dag) a = Some la ∧
           level_of (nodes dag) b = Some lb ∧ lb < la.
Proof.
  intros Hnd (s' & -> & Hinv & _ & Hall)%buildDAG_Ok_inv (t & Ht & <- & Hb).
  simpl. set (m0 := link_dependents (create_nodes tasks)) in *.
  destruct (linked_nodup_deps tasks t Hnd Ht) as (node0 & Hget0 & Hd0).
  destruct (build_inv_core_rev m0 s' _ node0 Hinv Hget0) as (node & Hget & Hd).
  destruct (bi_visited m0 s' Hinv (id t)) as (node' & Hget' & _ & _ & Hrule);
    [apply Hall; by eexists|].
  assert (node' = node) as -> by congruence.
  destruct Hrule as (_ & Hdeps & _).
  destruct (Hdeps b) as (lb & Hlb & Hle); [by rewrite Hd, Hd0|].
  exists (level node), lb. split_and!; [|done|lia].
  unfold level_of. by rewrite Hget.
Qed.

(** Along a dependency path the levels of a returned DAG go down. *)
Lemma buildDAG_path_level (tasks : list Task) (dag : DAG) (x y : string) :
  NoDup (task_ids tasks) → buildDAG tasks = Ok dag →
  tc (depends_on tasks) x y →
  ∃ lx ly, level_of (nodes dag) x = Some lx ∧
           level_of (nodes dag) y = Some ly ∧ ly < lx.
Proof.
  intros Hnd Hok.
  induction 1 as [x y Hxy | x y z Hxy _ (ly & lz & Hy & Hz & Hlt)];
    [by eapply buildDAG_edge_level|].
  destruct (buildDAG_edge_level tasks dag x y Hnd Hok Hxy)
    as (lx & ly' & Hx & Hy' & Hlt').
  exists lx, lz. split_and!; [done..|].
  assert (ly' = ly) by congruence. lia.
Qed.

(** X9.  [buildDAG] returns a DAG only for well-formed batches: if it
    returns on a batch with pairwise different ids, every dependency id
    names a task of the batch and the batch has no dependency cycle. *)
Theorem buildDAG_ok_well_formed (tasks : list Task) (dag : DAG) :
  NoDup (task_ids tasks) → buildDAG tasks = Ok dag →
  closed tasks ∧ acyclic tasks.
Proof.
  intros Hnd Hok. split.
  - intros t d Ht Hd.
    destruct (buildDAG_edge_level tasks dag (id t) d Hnd Hok)
      as (_ & lb & _ & Hlb & _); [by exists t|].
    apply buildDAG_Ok_inv in Hok as (s' & -> & Hinv & _ & _). simpl in Hlb.
    apply linked_dom. rewrite <- (build_inv_dom _ s' Hinv).
    apply js_dom_get. unfold level_of in Hlb.
    by destruct (js_get (bs_nodes s') d); [eexists|].
  - intros a Hcyc.
    destruct (buildDAG_path_level tasks dag a a Hnd Hok Hcyc)
      as (l1 & l2 & H1 & H2 & Hlt12).
    assert (l1 = l2) by congruence. lia.
Qed.

(** *** Reverse edges *)

Lemma same_graph_edge (m m' : JsMap DAGNode) (a b : string) :
  same_graph m m' → (node_edge m' a b ↔ node_edge m a b).
Proof.
  intros [_ Hc]. unfold node_edge. specialize (Hc a).
  split; intros (node & Hget & Hb); rewrite Hget in Hc; simpl in Hc.
  - destruct (js_get m a) as [n0|]; simpl in Hc; [|done].
    exists n0. split; [done|].
    assert (node_core node = node_core n0) as Heq by congruence.
    unfold node_core in Heq. by injection Heq as _ <- _.
  - destruct (js_get m' a) as [n0|]; simpl in Hc; [|done].
    exists n0. split; [done|].
    assert (node_core n0 = node_core node) as Heq by congruence.
    unfold node_core in Heq. by injection Heq as _ -> _.
Qed.

Lemma same_graph_is_Some (m m' : JsMap DAGNode) (k : string) :
  same_graph m m' → (is_Some (js_get m' k) ↔ is_Some (js_get m k)).
Proof.
  intros Hsg. rewrite <- !js_dom_get. by rewrite (same_graph_dom m m' Hsg).
Qed.

Lemma dependents_of_add (nodeId depId d : string) (m : JsMap DAGNode) (x : string) :
  x ∈ dependents_of (add_dependent nodeId m depId) d ↔
  x ∈ dependents_of m d ∨ (x = nodeId ∧ d = depId ∧ is_Some (js_get m d)).
Proof.
  unfold add_dependent, dependents_of.
  destruct (js_get m depId) as [dep|] eqn:Hdep.
  - rewrite js_get_mutate. case_decide as Hd.
    + subst d. rewrite Hdep. simpl. rewrite elem_of_app, list_elem_of_singleton.
      split; [intros [?|?]; [by left | right; eauto] | intros [?|(? & _)]; auto].
    + split; [by left|]. intros [?|(_ & ? & _)]; [done | by subst].
  - split; [by left|]. intros [?|(_ & -> & [? ?])]; [done | congruence].
Qed.

Lemma dependents_of_link_node (m : JsMap DAGNode) (k d x : string) :
  x ∈ dependents_of (link_node m k) d ↔
  x ∈ dependents_of m d ∨ (x = k ∧ node_edge m k d ∧ is_Some (js_get m d)).
Proof.
  unfold link_node, node_edge.
  destruct (js_get m k) as [node|] eqn:Hk;
    [|split; [by left | intros [?|(_ & (? & ? & _) & _)]; done]].
  assert (∀ deps m',
    same_graph m m' →
    (x ∈ dependents_of (foldl (add_dependent k) m' deps) d ↔
     x ∈ dependents_of m' d ∨ (x = k ∧ d ∈ deps ∧ is_Some (js_get m d))))
    as Hfold.
  { induction deps as [|d0 deps IH]; intros m' Hsg; simpl.
    - split; [by left|]. intros [?|(_ & ?%elem_of_nil & _)]; done.
    - rewrite IH by (eapply same_graph_trans; [exact Hsg | apply add_dependent_graph]).
      rewrite dependents_of_add, elem_of_cons, (same_graph_is_Some m m' d Hsg).
      split; [intros [[?|(? & ? & ?)]|(? & ? & ?)] | intros [?|(? & [?|?] & ?)]];
        subst; auto 10. }
  rewrite (Hfold _ m (same_graph_refl m)).
  split; intros [?|(-> & H1 & H2)]; auto.
  - right. split_and!; [done | by exists node | done].
  - right. destruct H1 as (node' & [= <-] & ?). done.
Qed.

Lemma dependents_of_link (m : JsMap DAGNode) (d x : string) :
  x ∈ dependents_of (link_dependents m) d ↔
  x ∈ dependents_of m d ∨
  (x ∈ order m ∧ node_edge m x d ∧ is_Some (js_get m d)).
Proof.
  unfold link_dependents.
  assert (∀ ks m',
    same_graph m m' →
    (x ∈ dependents_of (foldl link_node m' ks) d ↔
     x ∈ dependents_of m' d ∨
     (x ∈ ks ∧ node_edge m x d ∧ is_Some (js_get m d)))) as Hfold.
  { induction ks as [|k ks IH]; intros m' Hsg; simpl.
    - split; [by left|]. intros [?|(?%elem_of_nil & _)]; done.
    - rewrite IH by (eapply same_graph_trans; [exact Hsg | apply link_node_graph]).
      rewrite dependents_of_link_node, elem_of_cons.
      rewrite (same_graph_is_Some m m' d Hsg).
      split.
      + intros [[?|(-> & He & ?)]|(? & ? & ?)]; auto 10.
        right. split_and!; [by left | by apply (same_graph_edge m m') | done].
      + intros [?|([->|?] & He & ?)]; auto 10.
        left. right. split_and!; [done | by apply (same_graph_edge m m') | done]. }
  apply (Hfold _ m (same_graph_refl m)).
Qed.

Lemma create_nodes_dependents (tasks : list Task) (d : string) :
  dependents_of (create_nodes tasks) d = [].
Proof.
  unfold dependents_of. induction tasks as [|t tasks IH] using rev_ind.
  - unfold create_nodes, js_get. simpl. by rewrite lookup_empty.
  - rewrite create_nodes_snoc, js_get_set. by case_decide.
Qed.

(** X10.  In a DAG returned by [buildDAG] the [dependents] lists are the
    reverse of the dependency lists: [x] is among the dependents of the
    node [d] exactly when the node [x] names [d] among its dependencies. *)
Theorem buildDAG_dependents_reverse (tasks : list Task) (dag : DAG)
  (d x : string) (node : DAGNode) :
  buildDAG tasks = Ok dag →
  js_get (nodes dag) d = Some node →
  (x ∈ dependents node ↔ node_edge (nodes dag) x d).
Proof.
  intros (s' & -> & Hinv & _ & _)%buildDAG_Ok_inv Hget. simpl in *.
  set (m0 := link_dependents (create_nodes tasks)) in *.
  destruct (build_inv_core m0 s' d node Hinv Hget) as (node0 & Hget0 & _ & _ & Hdep).
  assert (dependents node = dependents_of m0 d) as ->.
  { unfold dependents_of. by rewrite Hget0. }
  assert (node_edge (bs_nodes s') x d ↔ node_edge m0 x d) as ->.
  { unfold node_edge. split; intros (n & Hn & Hd).
    - destruct (build_inv_core m0 s' x n Hinv Hn) as (n0 & ? & E & _).
      exists n0. by rewrite E.
    - destruct (build_inv_core_rev m0 s' x n Hinv Hn) as (n1 & ? & E).
      exists n1. by rewrite E. }
  unfold m0. rewrite dependents_of_link, create_nodes_dependents.
  rewrite (same_graph_edge _ _ x d (link_dependents_graph (create_nodes tasks))).
  split.
  - intros [?%elem_of_nil|(_ & ? & _)]; done.
  - intros He. right. split_and!; [|done|].
    + destruct He as (n & Hn & _). apply (create_nodes_wf tasks), js_dom_get.
      by eexists.
    + apply (same_graph_is_Some _ _ d (link_dependents_graph (create_nodes tasks))).
      by eexists.
Qed.

(** *** Key order *)

Lemma create_nodes_order (tasks : list Task) :
  NoDup (task_ids tasks) → order (create_nodes tasks) = task_ids tasks.
Proof.
  unfold task_ids. induction tasks as [|t tasks IH] using rev_ind; intros Hnd;
    [done|].
  rewrite map_app in Hnd. apply NoDup_app in Hnd as (Hnd & Hfresh & _).
  rewrite create_nodes_snoc, map_app. unfold js_set. simpl.
  rewrite decide_False, IH; [done..|].
  intros Hin. apply (Hfresh (id t)); [|apply list_elem_of_here].
  apply create_nodes_dom, js_dom_get. exact Hin.
Qed.

(** X11.  On a batch with pairwise different ids, the node map of the
    returned DAG lists the task ids in the order of the batch, and the
    critical path of the DAG is still empty. *)
Theorem buildDAG_keeps_task_order (tasks : list Task) (dag : DAG) :
  NoDup (task_ids tasks) → buildDAG tasks = Ok dag →
  order (nodes dag) = task_ids tasks ∧ criticalPath dag = [].
Proof.
  intros Hnd (s' & -> & Hinv & _ & _)%buildDAG_Ok_inv. simpl.
  split; [|done]. rewrite (bi_order _ s' Hinv).
  destruct (link_dependents_graph (create_nodes tasks)) as [-> _].
  by apply create_nodes_order.
Qed.

(** *** A dependency id that names no task of the batch *)

(** After the reverse-edge pass, the dependents recorded for [k] are the
    tasks that name [k] among their dependencies, when [k] is a task id,
    and nothing is recorded for any other id. *)
Lemma linked_dependents (tasks : list Task) (k x : string) :
  NoDup (task_ids tasks) →
  x ∈ dependents_of (link_dependents (create_nodes tasks)) k ↔
  k ∈ task_ids tasks ∧ depends_on tasks x k.
Proof.
  intros Hnd. rewrite dependents_of_link, create_nodes_dependents.
  rewrite <- js_dom_get, create_nodes_dom.
  split.
  - intros [?%elem_of_nil|(_ & (node & Hget & Hk) & Hin)]; [done|].
    split; [done|]. apply create_nodes_get in Hget as (Ht & Hid & Hd).
    exists (task node). by rewrite <- Hd.
  - intros (Hin & t & Ht & <- & Hk). right. split_and!; [| |done].
    + rewrite (create_nodes_order tasks Hnd). unfold task_ids.
      by apply list_elem_of_In, in_map, list_elem_of_In.
    + exists (mkNode t (dependencies t) [] 0).
      split; [by apply create_nodes_nodup | done].
Qed.

(** C1 (as amended).  For every batch with pairwise different ids that
    holds a task [t] with a dependency id [d] absent from the batch:
    there is no unknown-dependency error.  The reverse-edge pass of
    [buildDAG] skips the edge silently (guard [if (depNode)]): the absent
    id gets no node and no dependents entry, the node of [t] keeps its
    dependency list, and the dependents recorded are exactly the edges
    whose target is a task of the batch.  The only [Error] [buildDAG]
    ever raises is the circular-dependency error, which names a task of
    the batch and so never the absent id. *)
Theorem buildDAG_dangling_dependency (tasks : list Task) (t : Task) (d : string) :
  NoDup (task_ids tasks) →
  t ∈ tasks → d ∈ dependencies t → d ∉ task_ids tasks →
  js_get (link_dependents (create_nodes tasks)) d = None ∧
  dependents_of (link_dependents (create_nodes tasks)) d = [] ∧
  (∃ node, js_get (link_dependents (create_nodes tasks)) (id t) = Some node ∧
           node_dependencies node = dependencies t) ∧
  (∀ k x, x ∈ dependents_of (link_dependents (create_nodes tasks)) k ↔
          k ∈ task_ids tasks ∧ depends_on tasks x k) ∧
  ∀ msg, buildDAG tasks = Throw (JsError msg) →
         ∃ k, k ∈ task_ids tasks ∧ k ≠ d ∧ msg = cycle_message k.
Proof.
  intros Hnd Ht Hd Habsent.
  set (m0 := link_dependents (create_nodes tasks)).
  assert (js_get m0 d = None) as Hnone.
  { destruct (js_get m0 d) as [node|] eqn:Hget; [|done].
    destruct Habsent. apply linked_dom, js_dom_get. by eexists. }
  split_and!.
  - done.
  - unfold dependents_of. by rewrite Hnone.
  - by apply linked_nodup_deps.
  - intros k x. by apply linked_dependents.
  - intros msg Hthrow. pose proof (buildDAG_throw_reason tasks) as Hr.
    rewrite Hthrow in Hr. destruct Hr as (n & _ & k & -> & Hcyc).
    assert (k ∈ task_ids tasks) as Hk.
    { apply tc_first in Hcyc as (z & node & Hget & _).
      apply linked_dom, js_dom_get. by eexists. }
    exists k. split_and!; [done | by intros -> | done].
Qed.

(** Witness for C1 as amended: A depends on the absent X. *)
Lemma buildDAG_dangling_witness :
  js_get (link_dependents (create_nodes [dangling_A])) "X" = None ∧
  dependents_of (link_dependents (create_nodes [dangling_A])) "X" = [] ∧
  (∃ node, js_get (link_dependents (create_nodes [dangling_A])) (id dangling_A) =
             Some node ∧
           node_dependencies node = dependencies dangling_A) ∧
  (∀ k x, x ∈ dependents_of (link_dependents (create_nodes [dangling_A])) k ↔
          k ∈ task_ids [dangling_A] ∧ depends_on [dangling_A] x k) ∧
  ∀ msg, buildDAG [dangling_A] = Throw (JsError msg) →
         ∃ k, k ∈ task_ids [dangling_A] ∧ k ≠ "X" ∧ msg = cycle_message k.
Proof.
  apply (buildDAG_dangling_dependency [dangling_A] dangling_A "X"
           dangling_nodup);
    [apply list_elem_of_here | apply list_elem_of_here | exact dangling_absent].
Defined.

(** C1 (counterexample).  The single task A names the absent dependency X;
    the edge is dropped silently, and what [buildDAG] then throws is not an
    error that identifies X: no [Error] with any message at all is thrown,
    but the engine's [TypeError]. *)
Lemma dangling_dependency_type_error :
  "X" ∈ dependencies dangling_A ∧ ("X" ∉ task_ids [dangling_A]) ∧
  buildDAG [dangling_A] = Throw JsTypeError ∧
  ∀ msg, buildDAG [dangling_A] ≠ Throw (JsError msg).
Proof.
  split_and!; [apply list_elem_of_here | exact dangling_absent
              | vm_compute; reflexivity | by vm_compute].
Qed.

(** *** The shape of [levels] *)

Lemma levels_push_dense (l : Z) (n : string) (lv : list (option (list string))) :
  dense lv → (Z.to_nat l ≤ length lv)%nat → dense (levels_push l n lv).
Proof.
  intros Hd Hle. unfold levels_push.
  destruct (lv !! Z.to_nat l) as [[bucket|]|] eqn:Hl.
  - assert (Z.to_nat l < length lv)%nat as Hlt by (by eapply lookup_lt_Some).
    intros i Hi. rewrite length_insert in Hi.
    destruct (decide (i = Z.to_nat l)) as [->|Hne].
    + rewrite list_lookup_insert_eq by done. eexists. split; [done|].
      by destruct bucket.
    + rewrite list_lookup_insert_ne by done. by apply Hd.
  - assert (Z.to_nat l < length lv)%nat as Hlt by (by eapply lookup_lt_Some).
    destruct (Hd _ Hlt) as (b & Hb & _). congruence.
  - apply lookup_ge_None in Hl.
    replace (Z.to_nat l - length lv)%nat with 0%nat by lia. simpl.
    intros i Hi. rewrite length_app in Hi. simpl in Hi.
    destruct (decide (i < length lv)%nat) as [Hlt|Hge].
    + rewrite lookup_app_l by done. by apply Hd.
    + rewrite lookup_app_r by lia.
      replace (i - length lv)%nat with 0%nat by lia. simpl. by eexists.
Qed.

Section levels_shape.
Variable m0 : JsMap DAGNode.

Lemma visited_level_bound (st : BuildState) (k : string) (l : Z) :
  build_inv m0 st → k ∈ bs_visited st →
  level_of (bs_nodes st) k = Some l →
  0 ≤ l ∧ (Z.to_nat l < length (bs_levels st))%nat.
Proof.
  intros Hinv Hk Hl.
  destruct (bi_visited m0 st Hinv k Hk) as (node & Hget & H0 & _).
  assert (l = level node) as ->.
  { unfold level_of in Hl. rewrite Hget in Hl. by injection Hl. }
  split; [done|].
  destruct (proj2 (bi_levels m0 st Hinv (Z.to_nat (level node)) k))
    as (b & Hb & _).
  { split; [done|]. rewrite Hl. f_equal. lia. }
  by eapply lookup_lt_Some.
Qed.

Lemma visit_deps_dense (rec : string → BuildState → outcome (Z * BuildState)) :
  visit_ensures m0 rec →
  (∀ n st l st', rec n st = Ok (l, st') → build_inv m0 st →
                 dense (bs_levels st) → dense (bs_levels st')) →
  ∀ deps acc s acc' s',
    visit_deps rec deps acc s = Ok (acc', s') → build_inv m0 s →
    dense (bs_levels s) → dense (bs_levels s').
Proof.
  intros Hens Hrec. induction deps as [|d ds IH]; intros acc s acc' s' Hv Hinv Hd;
    simpl in Hv.
  - by injection Hv as _ <-.
  - destruct (rec d s) as [[l s1]| |] eqn:Hd1; [|done..].
    destruct (Hens d s l s1 Hd1 Hinv) as (Hinv1 & _).
    eapply IH; [exact Hv | done |]. by eapply Hrec.
Qed.

Lemma visit_dense (fuel : nat) : ∀ n st l st',
  visit fuel n st = Ok (l, st') → build_inv m0 st →
  dense (bs_levels st) → dense (bs_levels st').
Proof.
  induction fuel as [|fuel IH]; intros n st l st' Hv Hinv Hd; [done|].
  rewrite visit_unfold in Hv.
  destruct (decide (n ∈ bs_visited st)) as [Hvis|Hnvis].
  { destruct (js_get (bs_nodes st) n); [|done]. by injection Hv as _ <-. }
  destruct (decide (n ∈ bs_inProgress st)); [done|].
  destruct (js_get (bs_nodes st) n) as [node|] eqn:Hget; [|done].
  destruct (visit_deps _ _ _ _) as [[acc' st2]| |] eqn:Hdeps; [|done..].
  injection Hv as <- <-. simpl.
  pose proof (build_inv_stack m0 st ({[n]} ∪ bs_inProgress st) Hinv) as Hinv1.
  destruct (visit_deps_spec m0 _ (visit_spec m0 fuel) _ _ _ _ _ Hdeps Hinv1)
    as (Hinv2 & _ & Hvis2 & Hle & _ & Hmax).
  pose proof (visit_deps_dense _ (visit_spec m0 fuel) IH _ _ _ _ _ Hdeps Hinv1 Hd)
    as Hd2.
  apply levels_push_dense; [done|].
  destruct Hmax as [-> | (d & Hdin & Hld)]; [simpl; lia|].
  destruct (visited_level_bound st2 d acc' Hinv2 (Hvis2 d Hdin) Hld) as [H0 Hlt].
  lia.
Qed.

Lemma visit_all_dense (fuel : nat) : ∀ keys s s',
  visit_all fuel keys s = Ok s' → build_inv m0 s →
  dense (bs_levels s) → dense (bs_levels s').
Proof.
  induction keys as [|k keys IH]; intros s s' Hv Hinv Hd; simpl in Hv.
  - by injection Hv as <-.
  - destruct (visit fuel k s) as [[l s1]| |] eqn:Hk; [|done..].
    destruct (visit_spec m0 fuel k s l s1 Hk Hinv) as (Hinv1 & _).
    eapply IH; [exact Hv | done |]. by eapply visit_dense.
Qed.

End levels_shape.

(** X12.  The [levels] array of a returned DAG has no hole and no empty
    bucket, and the level of every node is an index of it: the levels in
    use are exactly 0, 1, ..., [levels.length - 1]. *)
Theorem buildDAG_levels_dense (tasks : list Task) (dag : DAG) :
  buildDAG tasks = Ok dag →
  dense (levels dag) ∧
  ∀ k l, level_of (nodes dag) k = Some l →
         0 ≤ l ∧ (Z.to_nat l < length (levels dag))%nat.
Proof.
  intros (s' & -> & Hinv & Hall & Hvis)%buildDAG_Ok_inv. simpl. split.
  - eapply visit_all_dense; [exact Hall | apply build_inv_init |].
    intros i Hi. simpl in Hi. lia.
  - intros k l Hl. eapply visited_level_bound; [done | | done].
    apply Hvis. unfold level_of in Hl.
    by destruct (js_get (bs_nodes s') k); [eexists|].
Qed.

(** ** More on the critical path *)

(** *** The two maximum searches *)

(** The loop shape shared by the endpoint search and the predecessor
    choice: keep the first element whose value exceeds the best so far. *)
Lemma argmax_fold {A} (f : A → Z) (ks : list A) : ∀ (b0 : option A) (m0 : Z),
  let r := foldl (λ '(best, mx) k, if mx <? f k then (Some k, f k) else (best, mx))
                 (b0, m0) ks in
  m0 ≤ snd r ∧
  (∀ k, k ∈ ks → f k ≤ snd r) ∧
  (r = (b0, m0) ∨ ∃ c, c ∈ ks ∧ fst r = Some c ∧ f c = snd r ∧ m0 < snd r).
Proof.
  induction ks as [|k ks IH]; intros b0 m0; simpl.
  - split_and!; [lia | by intros ? ?%elem_of_nil | by left].
  - destruct (Z.ltb_spec m0 (f k)) as [Hlt|Hge].
    + destruct (IH (Some k) (f k)) as (H1 & H2 & H3). split_and!.
      * lia.
      * intros x [->|Hx]%elem_of_cons; [done | by apply H2].
      * right. destruct H3 as [-> | (c & Hc & Hf & Hv & Hlt')].
        -- exists k. split_and!; [apply elem_of_cons; by left | done..].
        -- exists c. split_and!; [apply elem_of_cons; by right | done | done | lia].
    + destruct (IH b0 m0) as (H1 & H2 & H3). split_and!.
      * done.
      * intros x [->|Hx]%elem_of_cons; [lia | by apply H2].
      * destruct H3 as [? | (c & Hc & Hf & Hv & Hlt')]; [by left|].
        right. exists c. split_and!; [apply elem_of_cons; by right | done..].
Qed.

Lemma find_endpoint_spec (m : JsMap DAGNode) (es dur : gmap string Z) :
  let r := find_endpoint m es dur in
  (∀ k, k ∈ order m → finish_of es dur k ≤ snd r) ∧
  (fst r = None → snd r = 0) ∧
  (∀ c, fst r = Some c →
        c ∈ order m ∧ finish_of es dur c = snd r ∧ 0 < snd r).
Proof.
  unfold find_endpoint.
  destruct (argmax_fold (finish_of es dur) (order m) None 0) as (H1 & H2 & H3).
  split_and!; [done| |].
  - intros Hnone. destruct H3 as [-> | (c & _ & Hc & _)]; [done | congruence].
  - intros c Hc. destruct H3 as [Heq | (c' & Hin & Hc' & Hv & Hlt)].
    + rewrite Heq in Hc. done.
    + assert (c' = c) as -> by congruence. done.
Qed.

Lemma critical_pred_spec (es dur : gmap string Z) (deps : list string) (a : string) :
  fst (critical_pred es dur deps) = Some a →
  a ∈ deps ∧ ∀ d, d ∈ deps → finish_of es dur d ≤ finish_of es dur a.
Proof.
  unfold critical_pred. intros Ha.
  destruct (argmax_fold (finish_of es dur) deps None (-1)) as (H1 & H2 & H3).
  destruct H3 as [Heq | (c & Hin & Hc & Hv & Hlt)].
  - rewrite Heq in Ha. done.
  - assert (c = a) as -> by congruence. split; [done|].
    intros d Hd. rewrite Hv. by apply H2.
Qed.

(** *** The shape of the returned path *)

Lemma backtrack_chain (m : JsMap DAGNode) (es dur : gmap string Z) (fuel : nat) :
  ∀ cur path p,
    backtrack fuel m es dur cur path = Ok p →
    critical_chain m es dur path →
    (∀ c h rest, cur = Some c → path = h :: rest →
       ∃ node, js_get m h = Some node ∧ c ∈ node_dependencies node ∧
               ∀ d, d ∈ node_dependencies node →
                    finish_of es dur d ≤ finish_of es dur c) →
    critical_chain m es dur p ∧
    (truthy cur = false → p = path) ∧
    (∀ c, cur = Some c → truthy cur = true →
          ∃ pre, p = pre ++ c :: path ∧ ∀ x, x ∈ p → is_Some (js_get m x) ∨ x ∈ path).
Proof.
  induction fuel as [|fuel IH]; intros cur path p Hb Hchain Hlink; [done|].
  simpl in Hb. destruct cur as [c|]; [|injection Hb as <-; by split_and!].
  destruct (truthy (Some c)) eqn:Htr; [|injection Hb as <-; by split_and!].
  destruct (js_get m c) as [node|] eqn:Hget; [|done].
  destruct (IH _ _ _ Hb) as (Hp & Hfalse & Htrue).
  - simpl. destruct path as [|h rest]; [done|]. split; [|done].
    by apply (Hlink c h rest).
  - intros c' h rest Hc' [= <- <-]. exists node.
    destruct (critical_pred_spec es dur _ c' Hc') as [Hin Hmax]. done.
  - split_and!; [done | done |].
    intros c0 [= <-] _.
    destruct (fst (critical_pred es dur (node_dependencies node))) as [a|] eqn:Ha.
    + destruct (truthy (Some a)) eqn:Hta.
      * destruct (Htrue a eq_refl eq_refl) as (pre & -> & Hall).
        exists (pre ++ [a]). rewrite <- app_assoc. split; [done|].
        intros x Hx.
        destruct (Hall x Hx) as [?|[->|?]%elem_of_cons];
          [by left | left; by eexists | by right].
      * rewrite (Hfalse eq_refl). exists []. split; [done|].
        intros x [->|?]%elem_of_cons; [left; by eexists | by right].
    + rewrite (Hfalse eq_refl). exists []. split; [done|].
      intros x [->|?]%elem_of_cons; [left; by eexists | by right].
Qed.

(** X13.  A non-empty path returned by [identifyCriticalPath] ends at a
    node of maximal earliest finish, which is positive; every element of
    the path is a node of the DAG and is, among the dependencies of its
    successor, one of maximal earliest finish; the path is stored in the
    returned DAG. *)
Theorem critical_path_shape (dag dag' : DAG) (p : list string) :
  identifyCriticalPath dag = Ok (p, dag') → p ≠ [] →
  critical_chain (nodes dag) (earliestStart_of dag) (init_duration (nodes dag)) p ∧
  (∀ x, x ∈ p → is_Some (js_get (nodes dag) x)) ∧
  criticalPath dag' = p ∧
  ∃ c, last p = Some c ∧ 0 < earliestFinish_of dag c ∧
       ∀ k, k ∈ order (nodes dag) → earliestFinish_of dag k ≤ earliestFinish_of dag c.
Proof.
  unfold identifyCriticalPath, earliestFinish_of, earliestStart_of.
  set (m := nodes dag). set (dur := init_duration m).
  set (es := forward_pass m dur).
  destruct (find_endpoint_spec m es dur) as (Hmax & _ & Hsome).
  destruct (fst (find_endpoint m es dur)) as [c|] eqn:Hc;
    [|by intros [= <- <-]].
  destruct (truthy (Some c)) eqn:Htr; [|by intros [= <- <-]].
  destruct (backtrack (backtrack_fuel m) m es dur (Some c) []) as [p'| |] eqn:Hb;
    [|done..].
  intros [= <- <-] Hne. cbn [nodes criticalPath].
  destruct (backtrack_chain m es dur _ _ _ _ Hb) as (Hchain & _ & Htrue);
    [done | by intros ? ? ? _ [=] |].
  destruct (Htrue c eq_refl Htr) as (pre & -> & Hall).
  split_and!; [done | | done |].
  - intros x Hx. destruct (Hall x Hx) as [?|?%elem_of_nil]; done.
  - destruct (Hsome c eq_refl) as (Hin & Hf & Hpos).
    exists c. split_and!; [by rewrite last_snoc | lia |].
    intros k Hk. rewrite Hf. by apply Hmax.
Qed.

(** *** The forward pass *)

Lemma max_fold {A} (f : A → Z) (ds : list A) : ∀ acc,
  let r := foldl (λ a d, Z.max a (f d)) acc ds in
  acc ≤ r ∧ (∀ d, d ∈ ds → f d ≤ r) ∧ (r = acc ∨ ∃ d, d ∈ ds ∧ r = f d).
Proof.
  induction ds as [|d ds IH]; intros acc; simpl.
  - split_and!; [lia | by intros ? ?%elem_of_nil | by left].
  - destruct (IH (Z.max acc (f d))) as (H1 & H2 & H3). split_and!.
    + lia.
    + intros x [->|Hx]%elem_of_cons; [lia | by apply H2].
    + destruct H3 as [H3 | (x & Hx & Hr)].
      * destruct (Z.max_spec acc (f d)) as [[_ Hm]|[_ Hm]].
        -- right. exists d. split; [apply elem_of_cons; by left | lia].
        -- left. lia.
      * right. exists x. split; [apply elem_of_cons; by right | done].
Qed.

Lemma max_fold_ext {A} (f g : A → Z) (ds : list A) (acc : Z) :
  (∀ d, d ∈ ds → f d = g d) →
  foldl (λ a d, Z.max a (f d)) acc ds = foldl (λ a d, Z.max a (g d)) acc ds.
Proof.
  revert acc. induction ds as [|d ds IH]; intros acc Hfg; simpl; [done|].
  rewrite (Hfg d) by (apply elem_of_cons; by left).
  apply IH. intros x Hx. apply Hfg, elem_of_cons. by right.
Qed.

Section forward.
Variable m : JsMap DAGNode.
Variable dur : gmap string Z.

(** One turn of the forward loop. *)
Lemma forward_pass_snoc (ks : list string) (k : string) :
  foldl (λ earliestStart nodeId,
           match js_get m nodeId with
           | Some node =>
             <[nodeId := foldl (λ acc depId, Z.max acc (finish_of earliestStart dur depId))
                               0 (node_dependencies node)]> earliestStart
           | None => earliestStart
           end) ∅ (ks ++ [k]) =
  let es := foldl (λ earliestStart nodeId,
           match js_get m nodeId with
           | Some node =>
             <[nodeId := foldl (λ acc depId, Z.max acc (finish_of earliestStart dur depId))
                               0 (node_dependencies node)]> earliestStart
           | None => earliestStart
           end) ∅ ks in
  match js_get m k with
  | Some node =>
    <[k := foldl (λ acc depId, Z.max acc (finish_of es dur depId))
                 0 (node_dependencies node)]> es
  | None => es
  end.
Proof. by rewrite foldl_snoc. Qed.

Lemma forward_fold (ks : list string) :
  NoDup ks →
  (∀ pre k post node, ks = pre ++ k :: post → js_get m k = Some node →
     ∀ d, d ∈ node_dependencies node → d ∈ pre) →
  let es := foldl (λ earliestStart nodeId,
           match js_get m nodeId with
           | Some node =>
             <[nodeId := foldl (λ acc depId, Z.max acc (finish_of earliestStart dur depId))
                               0 (node_dependencies node)]> earliestStart
           | None => earliestStart
           end) ∅ ks in
  (∀ k, is_Some (es !! k) → k ∈ ks) ∧
  ∀ k node, k ∈ ks → js_get m k = Some node →
    es !! k = Some (foldl (λ acc depId, Z.max acc (finish_of es dur depId))
                          0 (node_dependencies node)).
Proof.
  induction ks as [|k ks IH] using rev_ind; intros Hnd Hord.
  - simpl. split; [intros k [? Hk]; by rewrite lookup_empty in Hk|].
    by intros k node ?%elem_of_nil.
  - apply NoDup_app in Hnd as (Hnd & Hfresh & _).
    assert (k ∉ ks) as Hk.
    { intros Hin. apply (Hfresh k Hin), list_elem_of_here. }
    destruct IH as [Hdom Heq]; [done | |].
    { intros pre k0 post node Hks. apply (Hord pre k0 (post ++ [k])).
      rewrite Hks. by rewrite <- app_assoc. }
    rewrite forward_pass_snoc. cbv zeta.
    set (es := foldl _ ∅ ks) in *.
    destruct (js_get m k) as [node|] eqn:Hget.
    + assert (∀ k0 n0, js_get m k0 = Some n0 → k0 ∈ ks ++ [k] →
                (∀ d, d ∈ node_dependencies n0 → d ≠ k)) as Hdeps.
      { intros k0 n0 Hn0 Hin d Hd Hdk. subst d.
        apply list_elem_of_split in Hin as (pre & post & Hsplit).
        pose proof (Hord pre k0 post n0 Hsplit Hn0 k Hd) as Hpre.
        assert (NoDup (ks ++ [k])) as Hnd'.
        { apply NoDup_app. split_and!; [done | done | apply NoDup_singleton]. }
        rewrite Hsplit in Hnd'. apply NoDup_app in Hnd' as (_ & Hf & Hnd2).
        destruct post as [|x post'] using rev_ind.
        - apply app_inj_tail in Hsplit as [-> ->]. done.
        - rewrite app_comm_cons, app_assoc in Hsplit.
          apply app_inj_tail in Hsplit as [-> ->].
          apply Hk. apply elem_of_app. by left. }
      assert (∀ n0 k0, js_get m k0 = Some n0 → k0 ∈ ks ++ [k] →
                foldl (λ acc depId, Z.max acc (finish_of (<[k:=
                   foldl (λ acc depId, Z.max acc (finish_of es dur depId)) 0
                     (node_dependencies node)]> es) dur depId)) 0
                  (node_dependencies n0) =
                foldl (λ acc depId, Z.max acc (finish_of es dur depId)) 0
                  (node_dependencies n0)) as Hsame.
      { intros n0 k0 Hn0 Hin. apply max_fold_ext. intros d Hd.
        unfold finish_of. rewrite lookup_insert_ne; [done|].
        intros Hkd. by apply (Hdeps k0 n0 Hn0 Hin d Hd). }
      split.
      * intros k0 [v Hv]. apply elem_of_app.
        destruct (decide (k = k0)) as [->|Hne];
          [right; apply list_elem_of_here|].
        rewrite lookup_insert_ne in Hv by done. left. apply Hdom. by eexists.
      * intros k0 n0 Hin Hn0. rewrite (Hsame n0 k0 Hn0 Hin).
        apply elem_of_app in Hin as [Hin | ->%list_elem_of_singleton].
        -- rewrite lookup_insert_ne by (by intros ->). by apply Heq.
        -- rewrite lookup_insert_eq. congruence.
    + split.
      * intros k0 Hk0. apply elem_of_app. left. by apply Hdom.
      * intros k0 n0 [Hin | ->%list_elem_of_singleton]%elem_of_app Hn0;
          [by apply Heq | congruence].
Qed.

(** The start times are never negative. *)
Lemma forward_nonneg (ks : list string) :
  let es := foldl (λ earliestStart nodeId,
           match js_get m nodeId with
           | Some node =>
             <[nodeId := foldl (λ acc depId, Z.max acc (finish_of earliestStart dur depId))
                               0 (node_dependencies node)]> earliestStart
           | None => earliestStart
           end) ∅ ks in
  ∀ k v, es !! k = Some v → 0 ≤ v.
Proof.
  induction ks as [|k ks IH] using rev_ind; [by intros ? ? ?|].
  rewrite forward_pass_snoc. cbv zeta in *.
  set (es := foldl _ ∅ ks) in *.
  destruct (js_get m k) as [node|]; [|exact IH].
  intros k0 v. rewrite lookup_insert. case_decide; [|by apply IH].
  intros [= <-].
  by destruct (max_fold (finish_of es dur) (node_dependencies node) 0) as (? & _).
Qed.

(** With no positive duration every start time is 0. *)
Lemma forward_zero (ks : list string) :
  (∀ k, or_zero (dur !! k) ≤ 0) →
  let es := foldl (λ earliestStart nodeId,
           match js_get m nodeId with
           | Some node =>
             <[nodeId := foldl (λ acc depId, Z.max acc (finish_of earliestStart dur depId))
                               0 (node_dependencies node)]> earliestStart
           | None => earliestStart
           end) ∅ ks in
  ∀ k, or_zero (es !! k) = 0.
Proof.
  intros Hdur. induction ks as [|k ks IH] using rev_ind; [by intros ?|].
  rewrite forward_pass_snoc. cbv zeta in *.
  set (es := foldl _ ∅ ks) in *.
  destruct (js_get m k) as [node|]; [|exact IH].
  intros k0. rewrite lookup_insert. case_decide; [|by apply IH]. simpl.
  destruct (max_fold (finish_of es dur) (node_dependencies node) 0)
    as (H0 & _ & [Hr | (d & _ & Hr)]); [done|].
  rewrite Hr in *. unfold finish_of in *. rewrite IH in *.
  pose proof (Hdur d). lia.
Qed.

End forward.

Lemma init_duration_lookup (m : JsMap DAGNode) (k : string) (node : DAGNode) :
  k ∈ order m → js_get m k = Some node →
  init_duration m !! k = Some (estimatedHours (task node)).
Proof.
  unfold init_duration. generalize (order m). intros ks.
  induction ks as [|k0 ks IH] using rev_ind; [by intros ?%elem_of_nil|].
  intros Hin Hget. rewrite foldl_snoc.
  destruct (decide (k0 = k)) as [->|Hne].
  - rewrite Hget. by rewrite lookup_insert_eq.
  - apply elem_of_app in Hin as [Hin | ->%list_elem_of_singleton]; [|done].
    destruct (js_get m k0); [rewrite lookup_insert_ne by done|]; by apply IH.
Qed.

Lemma init_duration_values (m : JsMap DAGNode) (k : string) (v : Z) :
  init_duration m !! k = Some v →
  ∃ node, js_get m k = Some node ∧ v = estimatedHours (task node).
Proof.
  unfold init_duration. generalize (order m). intros ks.
  induction ks as [|k0 ks IH] using rev_ind; [simpl; by rewrite lookup_empty|].
  rewrite foldl_snoc. destruct (js_get m k0) as [n0|] eqn:Hk0; [|exact IH].
  rewrite lookup_insert. case_decide as Hk; [|exact IH].
  subst k0. intros [= <-]. eauto.
Qed.

(** *** The tables on a DAG returned by [buildDAG] *)

Lemma buildDAG_order (tasks : list Task) (dag : DAG) :
  NoDup (task_ids tasks) → buildDAG tasks = Ok dag →
  order (nodes dag) = task_ids tasks.
Proof.
  intros Hnd (s' & -> & Hinv & _ & _)%buildDAG_Ok_inv. simpl.
  rewrite (bi_order _ s' Hinv).
  destruct (link_dependents_graph (create_nodes tasks)) as [-> _].
  by apply create_nodes_order.
Qed.

Lemma buildDAG_node_of_task (tasks : list Task) (dag : DAG) (t : Task) :
  NoDup (task_ids tasks) → buildDAG tasks = Ok dag → t ∈ tasks →
  ∃ node, js_get (nodes dag) (id t) = Some node ∧ task node = t ∧
          node_dependencies node = dependencies t.
Proof.
  intros Hnd (s' & -> & Hinv & _ & _)%buildDAG_Ok_inv Ht. simpl.
  pose proof (create_nodes_nodup tasks t Hnd Ht) as Hget0.
  destruct (link_dependents_graph (create_nodes tasks)) as [_ Hc].
  specialize (Hc (id t)). rewrite Hget0 in Hc.
  destruct (js_get (link_dependents _) (id t)) as [n1|] eqn:Hn1;
    simpl in Hc; [|done].
  assert (node_core n1 = node_core (mkNode t (dependencies t) [] 0)) as Heq
    by congruence.
  unfold node_core in Heq. simpl in Heq. injection Heq as Ht1 Hd1 _.
  pose proof (bi_core _ s' Hinv (id t)) as Hcore. rewrite Hn1 in Hcore.
  destruct (js_get (bs_nodes s') (id t)) as [node|]; simpl in Hcore; [|done].
  exists node. split; [done|].
  assert (set_level 0 node = set_level 0 n1) as Heq by congruence.
  split.
  - apply (f_equal task) in Heq. simpl in Heq. congruence.
  - apply (f_equal node_dependencies) in Heq. simpl in Heq. congruence.
Qed.

Lemma buildDAG_node_task (tasks : list Task) (dag : DAG) (k : string)
  (node : DAGNode) :
  buildDAG tasks = Ok dag → js_get (nodes dag) k = Some node →
  task node ∈ tasks ∧ k ∈ order (nodes dag).
Proof.
  intros (s' & -> & Hinv & _ & _)%buildDAG_Ok_inv Hget. simpl in *.
  destruct (build_inv_core _ s' k node Hinv Hget) as (n0 & Hget0 & _ & Ht & _).
  split.
  - rewrite <- Ht. by apply linked_get in Hget0 as (? & _).
  - rewrite (bi_order _ s' Hinv). apply (linked_wf tasks), js_dom_get.
    by eexists.
Qed.

(** X14.  On a batch with pairwise different ids in which every task is
    listed after the tasks it depends on, the forward pass computes the
    earliest starts of the critical-path method: for every task, its
    earliest start is the maximum of 0 and of the earliest finishes
    (earliest start plus estimated hours) of its dependencies. *)
Theorem forward_pass_on_ordered_batch (tasks : list Task) (dag : DAG) (t : Task) :
  NoDup (task_ids tasks) → listed_after_dependencies tasks →
  buildDAG tasks = Ok dag → t ∈ tasks →
  ∃ e, earliestStart_of dag !! id t = Some e ∧
       start_rule (earliestStart_of dag) (init_duration (nodes dag))
                  (dependencies t) e ∧
       init_duration (nodes dag) !! id t = Some (estimatedHours t).
Proof.
  intros Hnd Hord Hok Ht.
  destruct (buildDAG_node_of_task tasks dag t Hnd Hok Ht) as (node & Hget & Htask & Hdeps).
  pose proof (buildDAG_order tasks dag Hnd Hok) as Horder.
  set (m := nodes dag) in *. set (dur := init_duration m).
  destruct (forward_fold m dur (order m)) as [_ Heq].
  - by rewrite Horder.
  - intros pre k post n Hsplit Hn d Hd. rewrite Horder in Hsplit.
    unfold task_ids in Hsplit.
    apply fmap_app_inv in Hsplit as (pre_t & rest_t & -> & Hrest & Htasks).
    destruct rest_t as [|u post_t]; [done|]. injection Hrest as -> _.
    assert (u ∈ tasks) as Hu.
    { rewrite Htasks. apply elem_of_app. right. apply list_elem_of_here. }
    destruct (buildDAG_node_of_task tasks dag u Hnd Hok Hu) as (nu & Hnu & _ & Hdu).
    fold m in Hnu. assert (nu = n) as -> by congruence.
    apply (Hord pre_t u post_t Htasks). by rewrite <- Hdu.
  - exists (foldl (λ acc depId, Z.max acc (finish_of (earliestStart_of dag) dur depId))
                  0 (node_dependencies node)).
    split_and!.
    + apply (Heq (id t) node); [|done]. rewrite Horder. unfold task_ids.
      by apply list_elem_of_In, in_map, list_elem_of_In.
    + rewrite Hdeps.
      destruct (max_fold (finish_of (earliestStart_of dag) dur) (dependencies t) 0)
        as (H0 & Hall & Hmax).
      split_and!; [done | done |].
      destruct Hmax as [?|?]; [by left | by right].
    + unfold dur. rewrite (init_duration_lookup m (id t) node);
        [by rewrite Htask | | done].
      rewrite Horder. unfold task_ids.
      by apply list_elem_of_In, in_map, list_elem_of_In.
Qed.

(** X15.  When no task of the batch has a positive estimate (all zero, for
    instance), no node has a positive earliest finish, and
    [identifyCriticalPath] returns the empty path and leaves the DAG as it
    is, whatever the number of nodes. *)
Theorem no_positive_estimate_empty_path (tasks : list Task) (dag : DAG) :
  buildDAG tasks = Ok dag →
  (∀ t, t ∈ tasks → estimatedHours t ≤ 0) →
  identifyCriticalPath dag = Ok ([], dag).
Proof.
  intros Hok Hhours. unfold identifyCriticalPath.
  set (m := nodes dag). set (dur := init_duration m).
  assert (∀ k, or_zero (dur !! k) ≤ 0) as Hdur.
  { intros k. destruct (dur !! k) as [v|] eqn:Hv; [|done]. simpl.
    apply init_duration_values in Hv as (node & Hget & ->).
    apply Hhours. by destruct (buildDAG_node_task tasks dag k node Hok Hget). }
  pose proof (forward_zero m dur (order m) Hdur) as Hes.
  destruct (find_endpoint_spec m (forward_pass m dur) dur) as (Hmax & _ & Hsome).
  destruct (fst (find_endpoint m (forward_pass m dur) dur)) as [c|]; [|done].
  exfalso. destruct (Hsome c eq_refl) as (_ & Hf & Hpos).
  assert (finish_of (forward_pass m dur) dur c ≤ 0) as Hle.
  { unfold finish_of, forward_pass. rewrite (Hes c). pose proof (Hdur c). lia. }
  lia.
Qed.

(** *** The backtracking loop ends on a DAG returned by [buildDAG] *)

Lemma backtrack_total (m : JsMap DAGNode) (es dur : gmap string Z)
  (rank : string → nat) :
  (∀ c node, js_get m c = Some node →
     ∀ d, d ∈ node_dependencies node →
          is_Some (js_get m d) ∧ (rank d < rank c)%nat) →
  ∀ fuel cur path,
    (1 ≤ fuel)%nat →
    (∀ c, cur = Some c → truthy cur = true →
          is_Some (js_get m c) ∧ (rank c + 2 ≤ fuel)%nat) →
    ∃ p, backtrack fuel m es dur cur path = Ok p.
Proof.
  intros Hrank. induction fuel as [|fuel IH]; intros cur path Hfuel Hcur; [lia|].
  simpl. destruct cur as [c|]; [|by eexists].
  destruct (truthy (Some c)) eqn:Htr; [|by eexists].
  destruct (Hcur c eq_refl eq_refl) as [[node Hget] Hc]. rewrite Hget.
  apply IH; [lia|].
  intros a Ha _. apply critical_pred_spec in Ha as [Hin _].
  destruct (Hrank c node Hget a Hin) as [? ?]. split; [done | lia].
Qed.

(** One node can be picked at each level below the length of [levels]. *)
Lemma level_representatives (m0 : JsMap DAGNode) (s : BuildState) :
  build_inv m0 s → dense (bs_levels s) →
  ∀ j, (j ≤ length (bs_levels s))%nat →
    ∃ ks : list string,
      length ks = j ∧ NoDup ks ∧
      ∀ x, x ∈ ks →
        x ∈ bs_visited s ∧
        ∃ i, (i < j)%nat ∧ level_of (bs_nodes s) x = Some (Z.of_nat i).
Proof.
  intros Hinv Hd. induction j as [|j IH]; intros Hj.
  - exists []. split_and!; [done | constructor | by intros ? ?%elem_of_nil].
  - destruct IH as (ks & Hlen & Hnd & Hks); [lia|].
    destruct (Hd j) as (b & Hb & Hne); [lia|].
    destruct b as [|x b']; [done|].
    assert (in_level (bs_levels s) j x) as Hin.
    { exists (x :: b'). split; [done | apply list_elem_of_here]. }
    apply (bi_levels m0 s Hinv) in Hin as [Hvis Hl].
    exists (x :: ks). split_and!.
    + simpl. lia.
    + constructor; [|done]. intros Hx.
      destruct (Hks x Hx) as (_ & i & Hi & Hli).
      rewrite Hl in Hli. injection Hli as Hli. lia.
    + intros y [->|Hy]%elem_of_cons.
      * split; [done|]. exists j. split; [lia | done].
      * destruct (Hks y Hy) as (? & i & ? & ?). split; [done|].
        exists i. split; [lia | done].
Qed.

Lemma levels_length_bound (m0 : JsMap DAGNode) (s : BuildState) :
  build_inv m0 s → dense (bs_levels s) → js_wf m0 →
  (length (bs_levels s) ≤ length (order m0))%nat.
Proof.
  intros Hinv Hd Hwf.
  destruct (level_representatives m0 s Hinv Hd (length (bs_levels s)) (le_n _))
    as (ks & <- & Hnd & Hks).
  apply submseteq_length, NoDup_submseteq; [done|].
  intros x Hx. destruct (Hks x Hx) as (Hvis & _).
  destruct (bi_visited m0 s Hinv x Hvis) as (node & Hget & _).
  apply (proj2 (Hwf x)). rewrite <- (build_inv_dom m0 s Hinv).
  apply js_dom_get. by eexists.
Qed.

(** From a present node the backtracking loop of [identifyCriticalPath]
    returns, on the node map of a DAG that [buildDAG] returned. *)
Lemma buildDAG_backtrack_total (tasks : list Task) (dag : DAG)
  (es dur : gmap string Z) (c : string) :
  buildDAG tasks = Ok dag → c ∈ order (nodes dag) →
  ∃ p, backtrack (backtrack_fuel (nodes dag)) (nodes dag) es dur (Some c) [] =
       Ok p.
Proof.
  intros Hok Hc.
  pose proof Hok as (s' & -> & Hinv & Hall & Hvis)%buildDAG_Ok_inv.
  simpl in *. set (m0 := link_dependents (create_nodes tasks)) in *.
  assert (dense (bs_levels s')) as Hd.
  { eapply visit_all_dense; [exact Hall | apply build_inv_init |].
    intros i Hi. simpl in Hi. lia. }
  pose proof (levels_length_bound m0 s' Hinv Hd (linked_wf tasks)) as Hlen.
  set (rank := λ k, Z.to_nat (default 0 (level_of (bs_nodes s') k))).
  apply (backtrack_total (bs_nodes s') es dur rank) with
    (fuel := backtrack_fuel (bs_nodes s')) (cur := Some c) (path := []).
  - intros k node Hget d Hin.
    destruct (bi_visited m0 s' Hinv k) as (node' & Hget' & H0 & Hdv & Hrule);
      [apply Hvis; by eexists|].
    assert (node' = node) as -> by congruence.
    destruct (bi_visited m0 s' Hinv d (Hdv d Hin)) as (nd & Hgd & Hd0 & _).
    split; [by eexists|].
    destruct Hrule as (_ & Hdeps & _).
    destruct (Hdeps d Hin) as (ld & Hld & Hle).
    unfold rank, level_of in *. rewrite Hget, Hgd in *. simpl in *.
    injection Hld as <-. lia.
  - unfold backtrack_fuel. lia.
  - intros c' [= <-] _.
    assert (is_Some (js_get (bs_nodes s') c)) as Hsome.
    { apply js_dom_get. rewrite (build_inv_dom m0 s' Hinv).
      apply (proj1 (linked_wf tasks c)). fold m0.
      by rewrite <- (bi_order m0 s' Hinv). }
    split; [done|]. destruct Hsome as [node Hget].
    destruct (visited_level_bound m0 s' c (level node) Hinv) as [H0 Hlt].
    { apply Hvis. by eexists. }
    { unfold level_of. by rewrite Hget. }
    unfold backtrack_fuel, rank, level_of. rewrite Hget. simpl.
    rewrite (bi_order m0 s' Hinv). lia.
Qed.

(** On a DAG returned by [buildDAG] the critical-path computation returns,
    and changes the stored path only. *)
Lemma identifyCriticalPath_built (tasks : list Task) (dag : DAG) :
  buildDAG tasks = Ok dag →
  match identifyCriticalPath dag with
  | Ok (p, dag') => dag' = mkDAG (nodes dag) (levels dag) p
  | _ => False
  end.
Proof.
  intros Hok. unfold identifyCriticalPath.
  set (m := nodes dag). set (dur := init_duration m).
  set (es := forward_pass m dur).
  assert (dag = mkDAG (nodes dag) (levels dag) []) as Hdag.
  { by apply buildDAG_Ok_inv in Hok as (s' & -> & _). }
  destruct (find_endpoint_spec m es dur) as (_ & _ & Hsome).
  destruct (fst (find_endpoint m es dur)) as [c|] eqn:Hc; [|done].
  destruct (truthy (Some c)) eqn:Htr; [|done].
  destruct (Hsome c eq_refl) as (Hin & _).
  destruct (buildDAG_backtrack_total tasks dag es dur c Hok Hin) as (p & Hp).
  fold m in Hp. by rewrite Hp.
Qed.

(** X16.  On every DAG that [buildDAG] returned, [identifyCriticalPath]
    returns normally: its backtracking loop ends without reading a missing
    node, and the returned DAG differs from the given one in the stored
    critical path at most. *)
Theorem identifyCriticalPath_returns (tasks : list Task) (dag : DAG) :
  buildDAG tasks = Ok dag →
  ∃ p dag', identifyCriticalPath dag = Ok (p, dag') ∧
            nodes dag' = nodes dag ∧ levels dag' = levels dag ∧
            criticalPath dag' = p.
Proof.
  intros Hok. pose proof (identifyCriticalPath_built tasks dag Hok) as H.
  destruct (identifyCriticalPath dag) as [[p dag']| |]; [|done..].
  exists p, dag'. by subst dag'.
Qed.

(** X17.  On a batch with pairwise different, non-empty ids in which some
    task has a positive estimate, [identifyCriticalPath] returns a
    non-empty path. *)
Theorem positive_estimate_nonempty_path (tasks : list Task) (dag : DAG) (t : Task) :
  NoDup (task_ids tasks) → "" ∉ task_ids tasks →
  buildDAG tasks = Ok dag →
  t ∈ tasks → 0 < estimatedHours t →
  ∃ p dag', identifyCriticalPath dag = Ok (p, dag') ∧ p ≠ [].
Proof.
  intros Hnd Hids Hok Ht Hpos. unfold identifyCriticalPath.
  pose proof (buildDAG_order tasks dag Hnd Hok) as Horder.
  destruct (buildDAG_node_of_task tasks dag t Hnd Hok Ht) as (node & Hget & Htask & _).
  set (m := nodes dag) in *. set (dur := init_duration m).
  set (es := forward_pass m dur).
  assert (id t ∈ order m) as Hin.
  { rewrite Horder. unfold task_ids.
    by apply list_elem_of_In, in_map, list_elem_of_In. }
  assert (0 < finish_of es dur (id t)) as Hfin.
  { unfold finish_of, dur.
    rewrite (init_duration_lookup m (id t) node Hin Hget), Htask. simpl.
    destruct (es !! id t) as [v|] eqn:Hv; simpl; [|lia].
    pose proof (forward_nonneg m (init_duration m) (order m) (id t) v Hv). lia. }
  destruct (find_endpoint_spec m es dur) as (Hmax & Hnone & Hsome).
  pose proof (Hmax (id t) Hin) as Hle.
  destruct (fst (find_endpoint m es dur)) as [c|] eqn:Hc;
    [|specialize (Hnone eq_refl); lia].
  destruct (Hsome c eq_refl) as (Hcin & _).
  assert (truthy (Some c) = true) as Htr.
  { simpl. apply negb_true_iff, String.eqb_neq. intros ->.
    apply Hids. by rewrite <- Horder. }
  rewrite Htr.
  destruct (buildDAG_backtrack_total tasks dag es dur c Hok Hcin) as (p & Hp).
  fold m in Hp. rewrite Hp. eexists _, _. split; [done|].
  destruct (backtrack_chain m es dur _ _ _ _ Hp) as (_ & _ & Htrue);
    [done | by intros ? ? ? _ [=] |].
  destruct (Htrue c eq_refl Htr) as (pre & -> & _). by destruct pre.
Qed.

(** ** [CoordinatorAgent.execute] *)


Lemma coordinate_result (subtasks : list Task) :
  match coordinate subtasks with
  | Ok out =>
    ∃ dag, buildDAG subtasks = Ok dag ∧
           out_subtasks out = subtasks ∧
           out_dag out = mkDAG (nodes dag) (levels dag) (out_criticalPath out) ∧
           out_assignments out = assignAgents subtasks
  | Throw e => buildDAG subtasks = Throw e
  | OutOfFuel => False
  end.
Proof.
  unfold coordinate.
  pose proof (buildDAG_throw_reason subtasks) as Hr.
  destruct (buildDAG subtasks) as [dag|e|] eqn:Hb; [|done..].
  pose proof (identifyCriticalPath_built subtasks dag Hb) as Hc.
  destruct (identifyCriticalPath dag) as [[p dag']| |]; [|done..].
  exists dag. by subst dag'.
Qed.



(** X20.  On a valid task whose decomposition has pairwise different ids
    and a dependency cycle, [execute] reports a failure; when its message
    is not the engine's [TypeError] text it is the circular-dependency
    message, naming a subtask that lies on a cycle. *)
Theorem execute_fails_on_cycle (te : string)
  (decomposeTask : Task → outcome (list Task)) (t : Task)
  (subtasks : list Task) (k : string) :
  validate t = true → decomposeTask t = Ok subtasks →
  NoDup (task_ids subtasks) → tc (depends_on subtasks) k k →
  ∃ r msg, execute te decomposeTask t = Ok r ∧ co_success r = false ∧
           co_output r = None ∧ co_error r = Some msg ∧
           (msg = te ∨ ∃ c, msg = cycle_message c ∧ c ∈ task_ids subtasks ∧
                            tc (depends_on subtasks) c c).
Proof.
  intros Hv Hd Hnd Hcyc. unfold execute. rewrite Hv, Hd.
  pose proof (coordinate_result subtasks) as Hc.
  pose proof (buildDAG_throw_reason subtasks) as Hr.
  destruct (coordinate subtasks) as [out|e|]; [|..|done].
  - exfalso. destruct Hc as (dag & Hb & _).
    destruct (buildDAG_path_level subtasks dag k k Hnd Hb Hcyc)
      as (l1 & l2 & H1 & H2 & Hlt).
    assert (l1 = l2) by congruence. lia.
  - rewrite Hc in Hr. destruct Hr as (n & _ & Hr).
    eexists _, _. split; [done|]. simpl. split_and!; [done..|].
    destruct e as [msg|]; simpl in *; [right|by left].
    destruct Hr as (c & -> & Hc'). exists c. split; [done|]. split.
    + apply tc_first in Hc' as (z & node & Hget & _).
      apply linked_dom, js_dom_get. by eexists.
    + by apply (tc_congruence (λ x, x) _ _ _ (linked_edge subtasks)) in Hc'.
Qed.

(** ** [BaseAgent.retry] *)

Lemma attempts_from_S (a : Z) (n : nat) :
  attempts_from a (S n) = a :: attempts_from (a + 1) n.
Proof.
  unfold attempts_from. rewrite seqZ_cons by lia.
  do 2 f_equal; lia.
Qed.

Lemma delays_from_S (d a : Z) (n : nat) :
  delays_from d a (S n) = d * a :: delays_from d (a + 1) n.
Proof.
  unfold delays_from. rewrite seqZ_cons by lia. rewrite fmap_cons.
  do 3 f_equal; lia.
Qed.

Lemma retry_loop_S {T} (fuel : nat) (operation : Z → T + js_error)
  (maxRetries delay attempt : Z) :
  attempt ≤ maxRetries →
  retry_loop (S fuel) operation maxRetries delay attempt =
  match operation attempt with
  | inl v => (Ok v, [Called attempt])
  | inr e =>
    if attempt =? maxRetries then (Throw e, [Called attempt])
    else
      let r := retry_loop fuel operation maxRetries delay (attempt + 1) in
      (fst r, Called attempt :: Waited (delay * attempt) :: snd r)
  end.
Proof. intros H. simpl. by destruct (Z.leb_spec attempt maxRetries); [|lia]. Qed.

Lemma retry_loop_done {T} (fuel : nat) (operation : Z → T + js_error)
  (maxRetries delay attempt : Z) :
  maxRetries < attempt →
  retry_loop fuel operation maxRetries delay attempt =
  (Throw (JsError "Max retries exceeded"), []).
Proof.
  intros H. destruct fuel; simpl;
    by destruct (Z.leb_spec attempt maxRetries); [lia|].
Qed.

Section retry_runs.
Context {T : Type}.
Variable operation : Z → T + js_error.
Variables maxRetries delay : Z.

(** [n] failed calls from attempt [a] on, then a call that resolves. *)
Lemma retry_loop_success (n : nat) : ∀ (fuel : nat) (a : Z) (v : T),
  (n < fuel)%nat → a + Z.of_nat n ≤ maxRetries →
  (∀ j, a ≤ j < a + Z.of_nat n → ∃ e, operation j = inr e) →
  operation (a + Z.of_nat n) = inl v →
  ∃ evs, retry_loop fuel operation maxRetries delay a = (Ok v, evs) ∧
         calls evs = attempts_from a (S n) ∧
         waits evs = delays_from delay a n.
Proof.
  induction n as [|n IH]; intros fuel a v Hfuel Hle Hfail Hok.
  - destruct fuel as [|fuel]; [lia|]. simpl.
    rewrite Z.add_0_r in Hok, Hle.
    destruct (Z.leb_spec a maxRetries); [|lia]. rewrite Hok.
    eexists. split; [done|]. rewrite attempts_from_S. done.
  - destruct fuel as [|fuel]; [lia|]. simpl.
    destruct (Z.leb_spec a maxRetries); [|lia].
    destruct (Hfail a) as [e He]; [lia|]. rewrite He.
    destruct (Z.eqb_spec a maxRetries); [lia|].
    destruct (IH fuel (a + 1) v) as (evs & Hrun & Hc & Hw); [lia|lia|..].
    + intros j Hj. apply Hfail. lia.
    + rewrite <- Hok. f_equal. lia.
    + rewrite Hrun. eexists. split; [done|]. simpl.
      by rewrite Hc, Hw, (attempts_from_S a), delays_from_S.
Qed.

(** [n] failed calls from attempt [a] on, then a failed last attempt. *)
Lemma retry_loop_exhaust (n : nat) : ∀ (fuel : nat) (a : Z) (e : js_error),
  (n < fuel)%nat → a + Z.of_nat n = maxRetries →
  (∀ j, a ≤ j < maxRetries → ∃ e', operation j = inr e') →
  operation maxRetries = inr e →
  ∃ evs, retry_loop fuel operation maxRetries delay a = (Throw e, evs) ∧
         calls evs = attempts_from a (S n) ∧
         waits evs = delays_from delay a n.
Proof.
  induction n as [|n IH]; intros fuel a e Hfuel Hle Hfail Hlast.
  - destruct fuel as [|fuel]; [lia|]. simpl.
    rewrite Z.add_0_r in Hle. subst a.
    rewrite Z.leb_refl, Hlast, Z.eqb_refl.
    eexists. split; [done|]. rewrite attempts_from_S. done.
  - destruct fuel as [|fuel]; [lia|]. simpl.
    destruct (Z.leb_spec a maxRetries); [|lia].
    destruct (Hfail a) as [e' He']; [lia|]. rewrite He'.
    destruct (Z.eqb_spec a maxRetries); [lia|].
    destruct (IH fuel (a + 1) e) as (evs & Hrun & Hc & Hw); [lia|lia|..].
    + intros j Hj. apply Hfail. lia.
    + done.
    + rewrite Hrun. eexists. split; [done|]. simpl.
      by rewrite Hc, Hw, (attempts_from_S a), delays_from_S.
Qed.

End retry_runs.

(** X21.  When the operation first resolves at its [k]-th call, with
    [k] at most [maxRetries], [retry] returns that value after exactly the
    calls 1..k, and has waited [delay * j] after each failed call [j]: the
    delays grow linearly ([delay], [2 * delay], ...). *)
Theorem retry_returns_first_success {T} (operation : Z → T + js_error)
  (maxRetries delay k : Z) (v : T) :
  1 ≤ k ≤ maxRetries →
  (∀ j, 1 ≤ j < k → ∃ e, operation j = inr e) →
  operation k = inl v →
  ∃ evs, retry operation maxRetries delay = (Ok v, evs) ∧
         calls evs = seqZ 1 k ∧
         waits evs = (λ j, delay * j) <$> seqZ 1 (k - 1).
Proof.
  intros Hk Hfail Hok. unfold retry.
  destruct (retry_loop_success operation maxRetries delay (Z.to_nat (k - 1))
              (Z.to_nat maxRetries) 1 v) as (evs & Hrun & Hc & Hw).
  - lia.
  - lia.
  - intros j Hj. apply Hfail. lia.
  - rewrite <- Hok. f_equal. lia.
  - exists evs. split; [done|]. unfold attempts_from, delays_from in *.
    rewrite Hc, Hw. split; do 2 f_equal; lia.
Qed.

(** X22.  When each of the first [maxRetries] calls rejects
    ([maxRetries] at least 1), [retry] rethrows the error of the last call
    (not 'Max retries exceeded'), after exactly [maxRetries] calls and
    without waiting after the last one. *)
Theorem retry_rethrows_last_error {T} (operation : Z → T + js_error)
  (maxRetries delay : Z) (e : js_error) :
  1 ≤ maxRetries →
  (∀ j, 1 ≤ j < maxRetries → ∃ e', operation j = inr e') →
  operation maxRetries = inr e →
  ∃ evs, retry operation maxRetries delay = (Throw e, evs) ∧
         calls evs = seqZ 1 maxRetries ∧
         waits evs = (λ j, delay * j) <$> seqZ 1 (maxRetries - 1).
Proof.
  intros Hm Hfail Hlast. unfold retry.
  destruct (retry_loop_exhaust operation maxRetries delay
              (Z.to_nat (maxRetries - 1)) (Z.to_nat maxRetries) 1 e)
    as (evs & Hrun & Hc & Hw); [lia|lia|done|done|].
  exists evs. split; [done|]. unfold attempts_from, delays_from in *.
  rewrite Hc, Hw. split; do 2 f_equal; lia.
Qed.

(** X23.  [retry] makes no call of the operation exactly when
    [maxRetries] is below 1, and it then throws 'Max retries exceeded'. *)
Theorem retry_without_attempt {T} (operation : Z → T + js_error)
  (maxRetries delay : Z) :
  (calls (snd (retry operation maxRetries delay)) = [] ↔ maxRetries ≤ 0) ∧
  (maxRetries ≤ 0 →
   retry operation maxRetries delay =
   (Throw (JsError "Max retries exceeded"), [])).
Proof.
  assert (maxRetries ≤ 0 →
          retry operation maxRetries delay =
          (Throw (JsError "Max retries exceeded"), [])) as Hnone.
  { intros Hm. unfold retry. apply retry_loop_done. lia. }
  split; [|done]. split; [|by intros ->%Hnone].
  intros Hcalls. destruct (Z.le_gt_cases maxRetries 0) as [|Hm]; [done|].
  exfalso. unfold retry in Hcalls.
  destruct (Z.to_nat maxRetries) as [|fuel] eqn:Hf; [lia|].
  rewrite retry_loop_S in Hcalls by lia.
  destruct (operation 1); [done|].
  by destruct (1 =? maxRetries).
Qed.

(** ** The batches of the command-line runner *)

Lemma js_slice_window {A} (i c : Z) (l : list A) :
  0 ≤ i → 0 ≤ c →
  js_slice i (i + c) l = take (Z.to_nat c) (drop (Z.to_nat i) l).
Proof.
  intros Hi Hc. unfold js_slice.
  destruct (Z.ltb_spec i 0); [lia|]. destruct (Z.ltb_spec (i + c) 0); [lia|].
  destruct (Z.le_gt_cases (Z.of_nat (length l)) i) as [Hlen|Hlen].
  - rewrite !drop_ge by lia. by rewrite !take_nil.
  - rewrite (Z.min_l i) by lia.
    destruct (Z.le_gt_cases (i + c) (Z.of_nat (length l))).
    + rewrite Z.min_l by lia. f_equal. lia.
    + rewrite Z.min_r by lia. rewrite !take_ge; [done|..];
        rewrite length_drop; lia.
Qed.

Lemma batches_cover (issueNumbers : list Z) (concurrency : Z) :
  1 ≤ concurrency →
  ∀ (fuel : nat) (i : Z),
    0 ≤ i → Z.of_nat (length issueNumbers) - i ≤ Z.of_nat fuel →
    ∃ bs, AgentRunner.batches fuel issueNumbers concurrency i = Ok bs ∧
          concat bs = drop (Z.to_nat i) issueNumbers ∧
          ∀ (j : nat) b, bs !! j = Some b →
            b ≠ [] ∧
            b = take (Z.to_nat concurrency)
                     (drop (Z.to_nat i + j * Z.to_nat concurrency) issueNumbers).
Proof.
  intros Hc. induction fuel as [|fuel IH]; intros i Hi Hfuel.
  - simpl. destruct (Z.ltb_spec i (Z.of_nat (length issueNumbers))); [lia|].
    exists []. split; [done|]. split; [by rewrite drop_ge by lia | done].
  - simpl. destruct (Z.ltb_spec i (Z.of_nat (length issueNumbers))) as [Hlt|Hge].
    + destruct (IH (i + concurrency)) as (bs & -> & Hcat & Hbs); [lia..|].
      eexists. split; [done|].
      rewrite js_slice_window by lia. split.
      * simpl. rewrite Hcat.
        replace (Z.to_nat (i + concurrency))
          with (Z.to_nat i + Z.to_nat concurrency)%nat by lia.
        rewrite <- drop_drop. apply take_drop.
      * intros [|j] b Hb; simpl in Hb.
        -- injection Hb as <-. rewrite Nat.add_0_r. split; [|done].
           intros Hnil%(f_equal length). rewrite length_take, length_drop in Hnil.
           simpl in Hnil. lia.
        -- destruct (Hbs j b Hb) as [Hne ->]. split; [done|].
           do 2 f_equal. lia.
    + exists []. split; [done|]. split; [by rewrite drop_ge by lia | done].
Qed.

(** X24.  With a concurrency of at least 1 the runner's loop ends and cuts
    the issue list into consecutive batches: batch [j] is the (non-empty)
    window of [concurrency] issues from position [j * concurrency], and the
    batches together are the issue list, each issue once and in order. *)
Theorem runner_batches_cover (fuel : nat) (issueNumbers : list Z) (concurrency : Z) :
  1 ≤ concurrency → (length issueNumbers ≤ fuel)%nat →
  ∃ bs, AgentRunner.executeParallel fuel issueNumbers concurrency = Ok bs ∧
        concat bs = issueNumbers ∧
        ∀ (j : nat) b, bs !! j = Some b →
          b ≠ [] ∧
          b = take (Z.to_nat concurrency)
                   (drop (j * Z.to_nat concurrency) issueNumbers).
Proof.
  intros Hc Hfuel. unfold AgentRunner.executeParallel.
  destruct (batches_cover issueNumbers concurrency Hc fuel 0)
    as (bs & Hrun & Hcat & Hbs); [lia..|].
  exists bs. split; [done|]. split; [done|]. exact Hbs.
Qed.

(** X25.  With a concurrency of 0 or less and at least one issue the
    runner's loop never ends: the index never reaches the length of the
    issue list, whatever number of iterations is allowed. *)
Theorem runner_nonpositive_concurrency_diverges (issueNumbers : list Z)
  (concurrency : Z) (fuel : nat) :
  concurrency ≤ 0 → issueNumbers ≠ [] →
  AgentRunner.executeParallel fuel issueNumbers concurrency = OutOfFuel.
Proof.
  intros Hc Hne. unfold AgentRunner.executeParallel.
  assert (0 < length issueNumbers)%nat as Hlen.
  { destruct issueNumbers; [done | simpl; lia]. }
  assert (∀ i, i ≤ 0 →
            AgentRunner.batches fuel issueNumbers concurrency i = OutOfFuel)
    as Hloop; [|by apply Hloop].
  induction fuel as [|fuel IH]; intros i Hi; simpl;
    destruct (Z.ltb_spec i (Z.of_nat (length issueNumbers))); try lia; [done|].
  rewrite IH by lia. done.
Qed.

(** ** Role assignment and dispatch *)

Lemma determineAgentType_labels_nonempty (t : Task) :
  truthy (assignedAgent t) = false → determineAgentType t ≠ "".
Proof.
  intros Ht. unfold determineAgentType. rewrite Ht.
  repeat (match goal with |- context [if ?b then _ else _] => destruct b end);
    done.
Qed.

(** X26.  The key under which [executeParallel] looks a task's agent up is
    the role [assignAgents] computes for the task exactly when the task
    carries a non-empty [assignedAgent], or carries none and its labels
    select 'codegen': the executor never consults the labels. *)
Theorem dispatch_key_matches_role (t : Task) :
  agent_key t = agentType (assignment_of t) ↔
  truthy (assignedAgent t) = true ∨
  (assignedAgent t = None ∧ determineAgentType t = "codegen").
Proof.
  unfold assignment_of, agent_key. simpl.
  destruct (truthy (assignedAgent t)) eqn:Ht.
  - split; [by left|]. intros _. unfold determineAgentType. rewrite Ht.
    by destruct (assignedAgent t).
  - pose proof (determineAgentType_labels_nonempty t Ht) as Hne.
    destruct (assignedAgent t) as [r|] eqn:Hr; simpl.
    + assert (r = "") as ->.
      { simpl in Ht. apply negb_false_iff in Ht. by apply String.eqb_eq in Ht. }
      split; [by intros ?|]. by intros [?|[? _]].
    + split; [by right|]. by intros [?|[_ ?]].
Qed.

(** ** The further properties on concrete inputs *)

Lemma cyclic_pair_nodup : NoDup (task_ids cyclic_pair).
Proof. apply (bool_decide_unpack (NoDup (task_ids cyclic_pair))). by vm_compute. Defined.

Lemma ordered_chain_nodup : NoDup (task_ids ordered_chain).
Proof. apply (bool_decide_unpack (NoDup (task_ids ordered_chain))). by vm_compute. Defined.

Lemma diamond_nodup : NoDup (task_ids diamond).
Proof. apply (bool_decide_unpack (NoDup (task_ids diamond))). by vm_compute. Defined.

Lemma diamond_ids_nonempty : "" ∉ task_ids diamond.
Proof. apply (bool_decide_unpack ("" ∉ task_ids diamond)). by vm_compute. Defined.

Lemma buildDAG_ordered_chain : buildDAG ordered_chain = Ok ordered_chain_dag.
Proof. vm_compute. reflexivity. Defined.

Lemma buildDAG_diamond_dag : buildDAG diamond = Ok diamond_dag.
Proof. vm_compute. reflexivity. Defined.

Lemma buildDAG_zero_dag : buildDAG [zero_task] = Ok zero_dag.
Proof. vm_compute. reflexivity. Defined.

Lemma cyclic_pair_cycle : tc (depends_on cyclic_pair) "A" "A".
Proof.
  apply (tc_l _ _ "B").
  - exists (task_of "A" None ["B"] 1).
    split_and!; [apply list_elem_of_here | done | apply list_elem_of_here].
  - apply tc_once. exists (task_of "B" None ["A"] 1).
    split_and!; [apply list_elem_of_further, list_elem_of_here | done
                | apply list_elem_of_here].
Defined.

Lemma ordered_chain_listed : listed_after_dependencies ordered_chain.
Proof.
  intros pre t post Heq d Hd. unfold ordered_chain in Heq.
  destruct pre as [|a [|b [|c pre]]]; simplify_eq/=.
  - by apply elem_of_nil in Hd.
  - apply list_elem_of_singleton in Hd as ->. apply list_elem_of_here.
  - apply list_elem_of_singleton in Hd as ->.
    apply list_elem_of_further, list_elem_of_here.
  - by destruct pre.
Qed.

(** Witness for X7: the circular pair A ⇄ B. *)
Lemma buildDAG_error_names_cycle_witness :
  ∃ k, "Circular dependency detected at A" = cycle_message k ∧
       k ∈ task_ids cyclic_pair ∧ tc (depends_on cyclic_pair) k k.
Proof.
  apply (buildDAG_error_names_cycle cyclic_pair). vm_compute. reflexivity.
Defined.

(** Witness for X8: A depends on the absent X. *)
Lemma buildDAG_type_error_witness :
  ∃ t d, t ∈ [dangling_A] ∧ d ∈ dependencies t ∧ d ∉ task_ids [dangling_A].
Proof.
  apply (buildDAG_type_error_dangling [dangling_A]). vm_compute. reflexivity.
Defined.

(** Witness for X9: the chain A → B → C. *)
Lemma buildDAG_ok_well_formed_witness :
  closed ordered_chain ∧ acyclic ordered_chain.
Proof.
  exact (buildDAG_ok_well_formed ordered_chain ordered_chain_dag
           ordered_chain_nodup buildDAG_ordered_chain).
Defined.

(** Witness for X10: the dependents of A in the diamond. *)
Lemma buildDAG_dependents_witness :
  "B" ∈ dependents diamond_node_A ↔ node_edge (nodes diamond_dag) "B" "A".
Proof.
  apply (buildDAG_dependents_reverse diamond diamond_dag "A" "B" diamond_node_A
           buildDAG_diamond_dag).
  vm_compute. reflexivity.
Defined.

(** Witness for X11: the chain A → B → C. *)
Lemma buildDAG_keeps_task_order_witness :
  order (nodes ordered_chain_dag) = task_ids ordered_chain ∧
  criticalPath ordered_chain_dag = [].
Proof.
  exact (buildDAG_keeps_task_order ordered_chain ordered_chain_dag
           ordered_chain_nodup buildDAG_ordered_chain).
Defined.

(** Witness for X12: the diamond. *)
Lemma buildDAG_levels_dense_witness :
  dense (levels diamond_dag) ∧
  ∀ k l, level_of (nodes diamond_dag) k = Some l →
         0 ≤ l ∧ (Z.to_nat l < length (levels diamond_dag))%nat.
Proof. exact (buildDAG_levels_dense diamond diamond_dag buildDAG_diamond_dag). Defined.

(** Witness for X13: the critical path A → B → D of the diamond. *)
Lemma critical_path_shape_witness :
  critical_chain (nodes diamond_dag) (earliestStart_of diamond_dag)
    (init_duration (nodes diamond_dag)) ["A"; "B"; "D"] ∧
  (∀ x, x ∈ ["A"; "B"; "D"] → is_Some (js_get (nodes diamond_dag) x)) ∧
  criticalPath diamond_critical_dag = ["A"; "B"; "D"] ∧
  ∃ c, last ["A"; "B"; "D"] = Some c ∧ 0 < earliestFinish_of diamond_dag c ∧
       ∀ k, k ∈ order (nodes diamond_dag) →
            earliestFinish_of diamond_dag k ≤ earliestFinish_of diamond_dag c.
Proof.
  apply (critical_path_shape diamond_dag diamond_critical_dag ["A"; "B"; "D"]);
    [vm_compute; reflexivity | done].
Defined.

(** Witness for X14: the task C of the chain A → B → C. *)
Lemma forward_pass_witness :
  ∃ e, earliestStart_of ordered_chain_dag !! "C" = Some e ∧
       start_rule (earliestStart_of ordered_chain_dag)
                  (init_duration (nodes ordered_chain_dag)) ["B"] e ∧
       init_duration (nodes ordered_chain_dag) !! "C" = Some 4.
Proof.
  apply (forward_pass_on_ordered_batch ordered_chain ordered_chain_dag
           (task_of "C" None ["B"] 4) ordered_chain_nodup ordered_chain_listed
           buildDAG_ordered_chain).
  apply list_elem_of_further, list_elem_of_further, list_elem_of_here.
Defined.

(** Witness for X15: a single task estimated at zero hours. *)
Lemma no_positive_estimate_witness :
  identifyCriticalPath zero_dag = Ok ([], zero_dag).
Proof.
  apply (no_positive_estimate_empty_path [zero_task] zero_dag buildDAG_zero_dag).
  intros t Ht. case_tasks Ht. simpl. lia.
Defined.

(** Witness for X16: the diamond. *)
Lemma identifyCriticalPath_returns_witness :
  ∃ p dag', identifyCriticalPath diamond_dag = Ok (p, dag') ∧
            nodes dag' = nodes diamond_dag ∧ levels dag' = levels diamond_dag ∧
            criticalPath dag' = p.
Proof. exact (identifyCriticalPath_returns diamond diamond_dag buildDAG_diamond_dag). Defined.

(** Witness for X17: the diamond, whose task B is estimated at 5 hours. *)
Lemma positive_estimate_witness :
  ∃ p dag', identifyCriticalPath diamond_dag = Ok (p, dag') ∧ p ≠ [].
Proof.
  apply (positive_estimate_nonempty_path diamond diamond_dag
           (task_of "B" None ["A"] 5) diamond_nodup diamond_ids_nonempty
           buildDAG_diamond_dag);
    [apply list_elem_of_further, list_elem_of_here | simpl; lia].
Defined.



(** Witness for X20: a valid parent task decomposed into the circular pair. *)
Lemma execute_fails_on_cycle_witness :
  ∃ r msg, execute "TypeError" decompose_cycle parent_task = Ok r ∧
           co_success r = false ∧
           co_output r = None ∧ co_error r = Some msg ∧
           (msg = "TypeError" ∨
            ∃ c, msg = cycle_message c ∧ c ∈ task_ids cyclic_pair ∧
                 tc (depends_on cyclic_pair) c c).
Proof.
  apply (execute_fails_on_cycle "TypeError" decompose_cycle parent_task
           cyclic_pair "A");
    [reflexivity | reflexivity | exact cyclic_pair_nodup | exact cyclic_pair_cycle].
Defined.

(** Witness for X21: two rejections, then the value 7, with five attempts
    allowed and a delay of 1000 ms. *)
Lemma retry_first_success_witness :
  ∃ evs, retry third_time_lucky 5 1000 = (Ok 7, evs) ∧
         calls evs = seqZ 1 3 ∧
         waits evs = (λ j, 1000 * j) <$> seqZ 1 (3 - 1).
Proof.
  apply (retry_returns_first_success third_time_lucky 5 1000 3 7);
    [lia | | reflexivity].
  intros j Hj. exists (JsError "busy"). unfold third_time_lucky.
  by destruct (Z.ltb_spec j 3); [|lia].
Defined.

(** Witness for X22: three attempts that all reject. *)
Lemma retry_rethrows_witness :
  ∃ evs, retry always_down 3 1000 = (Throw (JsError "down"), evs) ∧
         calls evs = seqZ 1 3 ∧
         waits evs = (λ j, 1000 * j) <$> seqZ 1 (3 - 1).
Proof.
  apply (retry_rethrows_last_error always_down 3 1000 (JsError "down"));
    [lia | | reflexivity].
  intros j _. by exists (JsError "down").
Defined.

(** Witness for X24: five issues in batches of two. *)
Lemma runner_batches_witness :
  ∃ bs, AgentRunner.executeParallel 5 [11; 12; 13; 14; 15] 2 = Ok bs ∧
        concat bs = [11; 12; 13; 14; 15] ∧
        ∀ (j : nat) b, bs !! j = Some b →
          b ≠ [] ∧
          b = take (Z.to_nat 2) (drop (j * Z.to_nat 2) [11; 12; 13; 14; 15]).
Proof.
  apply (runner_batches_cover 5 [11; 12; 13; 14; 15] 2); [lia | simpl; lia].
Defined.

(** Witness for X25: one issue with a concurrency of 0. *)
Lemma runner_diverges_witness :
  AgentRunner.executeParallel 10 [11] 0 = OutOfFuel.
Proof.
  apply (runner_nonpositive_concurrency_diverges [11] 0 10); [lia | done].
Defined.
